(** * AI interview simulator: error classifier, welcome audio, live session

  Shallow embedding of [src/utils/error.ts] ([getApiErrorMessage]), of the
  Gemini service ([generateWelcomeAudio]) and of the live-session part of
  the [App] component ([appReducer], [cleanupAudio], [onaudioprocess],
  [onmessage]), followed by the properties the specification states
  about them.

  Conventions.
  - A JavaScript string is a [string]: a sequence of code units, here the
    units U+0000..U+00FF.  [toLowerCase], [trim] and [includes] are the
    ECMAScript operations restricted to those units.
  - Times on the audio clock (seconds) and frame energies are rationals
    [Q]: a double is the rational it stands for.  Comparisons and
    [Math.max] are exact; what the code computes by a double addition or
    division is the exact result rounded to the nearest double
    ([Double.round]).
  - Timer delays are milliseconds in [N].
  - A handler runs from its first line to its last before the next one
    starts, as on the event loop; what the browser and the SDK are asked to
    do is recorded in a log of calls. *)

From Stdlib Require Import String Ascii List Bool NArith ZArith QArith Qminmax Qround Qpower.
From Stdlib Require Import Lia Lqa.
Import ListNotations.
Local Open Scope string_scope.
Set Warnings "-register-all".

(** ** JavaScript strings *)

Module JsString.

(** [String.prototype.toLowerCase] on one code unit: A-Z and the
    Latin-1 capitals U+00C0..U+00DE (but not the multiplication sign
    U+00D7) move up by 32. *)
Definition lower_unit (c : ascii) : ascii :=
  let n := N_of_ascii c in
  if ((65 <=? n) && (n <=? 90) || (192 <=? n) && (n <=? 222) && negb (n =? 215))%N
  then ascii_of_N (n + 32) else c.

Fixpoint toLowerCase (s : string) : string :=
  match s with
  | EmptyString => EmptyString
  | String c s' => String (lower_unit c) (toLowerCase s')
  end.

(** [s.includes(pat)]: [pat] occurs in [s] at some position. *)
Fixpoint includes (s pat : string) : bool :=
  if prefix pat s then true
  else match s with
       | EmptyString => false
       | String _ s' => includes s' pat
       end.

(** White space and line terminators of ECMAScript among the units
    U+0000..U+00FF: TAB, LF, VT, FF, CR, SP, NBSP. *)
Definition is_space (c : ascii) : bool :=
  let n := N_of_ascii c in
  ((9 <=? n) && (n <=? 13) || (n =? 32) || (n =? 160))%N.

Fixpoint trimStart (s : string) : string :=
  match s with
  | EmptyString => EmptyString
  | String c s' => if is_space c then trimStart s' else s
  end.

(** Drops the white space at the end: a unit is kept when it is not a
    space or when something is kept after it. *)
Fixpoint trimEnd (s : string) : string :=
  match s with
  | EmptyString => EmptyString
  | String c s' =>
      match trimEnd s' with
      | EmptyString => if is_space c then EmptyString else String c EmptyString
      | rest => String c rest
      end
  end.

Definition trim (s : string) : string := trimEnd (trimStart s).

(** Truthiness of a string: every string but the empty one. *)
Definition nonEmpty (s : string) : bool :=
  match s with EmptyString => false | String _ _ => true end.

End JsString.

(** ** JavaScript numbers *)

Module Double.
Local Open Scope Q_scope.

(** A number of JavaScript is an IEEE 754 binary64 value.  The finite ones
    are the rationals [m * 2^e] with [|m| <= 2^53] and [-1074 <= e]; the
    result of [+] and [/] is the exact result rounded to the nearest of
    them, to the one with the even mantissa when two are as near.  No
    exponent is too large here: a result of [2^1024] or more, which
    JavaScript turns into [Infinity], is out of reach of the clock of an
    audio context and of the length of a buffer. *)
Definition pow2 (e : Z) : Q := 2 ^ e.

(** The integer part of the base-2 logarithm of a positive rational. *)
Definition log2 (q : Q) : Z :=
  let k := (Z.log2 (Qnum q) - Z.log2 (Zpos (Qden q)))%Z in
  if Qle_bool (pow2 k) q then k else (k - 1)%Z.

(** The nearest integer, the even one of two that are as near. *)
Definition nearestEven (q : Q) : Z :=
  let f := Qfloor q in
  match Qcompare (q - inject_Z f) (1 # 2) with
  | Lt => f
  | Gt => (f + 1)%Z
  | Eq => if Z.even f then f else (f + 1)%Z
  end.

(** The exponent of the unit in the last place: 53 bits of mantissa, and
    nothing finer than [2^-1074] (the subnormal numbers). *)
Definition exponent (q : Q) : Z := Z.max (log2 q - 52) (-1074).

Definition roundPositive (q : Q) : Q :=
  let e := exponent q in
  inject_Z (nearestEven (q * pow2 (- e))) * pow2 e.

(** The double nearest to [q]. *)
Definition round (q : Q) : Q :=
  match Qcompare q 0 with
  | Eq => 0
  | Gt => roundPositive q
  | Lt => - roundPositive (- q)
  end.

(** [x + y] and [x / y] on doubles. *)
Definition add (x y : Q) : Q := round (x + y).
Definition div (x y : Q) : Q := round (x / y).

(** [q] is a double. *)
Definition representable (q : Q) : Prop := round q == q.

End Double.

Arguments Double.round : simpl never.
Arguments Double.add : simpl never.
Arguments Double.div : simpl never.

(** ** src/utils/error.ts *)

Module ErrorUtil.
Import JsString.

(** The values [getApiErrorMessage] is handed, as [lib.d.ts] types them.
    An instance of [Error] carries its [message], a string, and may carry
    further own properties; a plain object is its list of properties (the
    first binding of a key is the one read).  A number is an integer here:
    NaN behaves as 0 in everything below.  The values with an [Error]
    whose [message] is anything at all come after the function
    ([AnyValue]). *)
Inductive JsValue : Type :=
| VUndefined
| VNull
| VBool (b : bool)
| VNumber (n : Z)
| VString (s : string)
| VObject (props : list (string * JsValue))
| VError (message : string) (props : list (string * JsValue)).

Fixpoint lookup (key : string) (props : list (string * JsValue)) : JsValue :=
  match props with
  | [] => VUndefined
  | (k, v) :: rest => if String.eqb k key then v else lookup key rest
  end.

(** [v?.key] *)
Definition get (v : JsValue) (key : string) : JsValue :=
  match v with
  | VObject props => lookup key props
  | VError message props =>
      if String.eqb key "message" then VString message else lookup key props
  | _ => VUndefined
  end.

Definition truthy (v : JsValue) : bool :=
  match v with
  | VUndefined | VNull => false
  | VBool b => b
  | VNumber n => negb (n =? 0)%Z
  | VString s => nonEmpty s
  | VObject _ | VError _ _ => true
  end.

Definition unknownError : string := "An unknown error occurred.".

(** Lines 4-9: the error itself, or the one it wraps. *)
Definition inspected (error : JsValue) : JsValue :=
  if truthy (get error "error") then get error "error" else error.

(** Lines 3-20: the message the classifier works on. *)
Definition extractMessage (error : JsValue) : string :=
  let errorToInspect := inspected error in
  match errorToInspect with
  | VError message _ => message
  | VString s => s
  | _ =>
      match get errorToInspect "message" with
      | VString s => s
      | _ =>
          match get error "message" with
          | VString s => s
          | _ => unknownError
          end
      end
  end.

(** Lines 22-55: the sentence for a message. *)
Definition describe (errorMessage context : string) : string :=
  let lowerCaseMessage := toLowerCase errorMessage in
  if includes lowerCaseMessage "api key not valid" then
    "The provided API key is invalid or not activated for this project. Please check your configuration."
  else if includes lowerCaseMessage "permission denied" || includes lowerCaseMessage "403" then
    "You do not have permission to access this resource. This could be due to an incorrect API key or project settings."
  else if includes lowerCaseMessage "quota" || includes lowerCaseMessage "rate limit"
          || includes lowerCaseMessage "429" then
    "The API request quota has been exceeded. Please wait a while before trying again."
  else if includes lowerCaseMessage "content has been blocked"
          || includes lowerCaseMessage "safety policy" then
    "The request was blocked due to the safety policy. Please modify your script and try again."
  else if includes lowerCaseMessage "server error" || includes lowerCaseMessage "500"
          || includes lowerCaseMessage "service unavailable" then
    "The AI service is currently experiencing issues. Please try again later."
  else if includes lowerCaseMessage "network error"
          || includes lowerCaseMessage "failed to fetch" then
    "A network error occurred. Please check your internet connection and try again."
  else if String.eqb context "start" then
    if String.eqb errorMessage unknownError then errorMessage
    else "Could not start the interview: " ++ errorMessage ++ "."
  else if String.eqb context "summary" then
    if String.eqb errorMessage unknownError then errorMessage
    else "An API error occurred while generating the summary: " ++ errorMessage
  else
    if String.eqb errorMessage unknownError then errorMessage
    else "An API error occurred: " ++ errorMessage.

(** Lines 2-56, on the values above. *)
Definition getApiErrorMessage (error : JsValue) (context : string) : string :=
  describe (extractMessage error) context.

(** *** Errors with any [message]

    The parameter is declared [any], and line 13 reads the [message] of an
    instance of [Error] without the [typeof] test of lines 16 and 18.  So
    the values are taken once more, this time with whatever [message] an
    instance of [Error] has been given; none of them but a string has a
    method [toLowerCase], and line 22 throws a [TypeError] on the others. *)
Inductive AnyValue : Type :=
| AUndefined
| ANull
| ABool (b : bool)
| ANumber (n : Z)
| AString (s : string)
| AObject (props : list (string * AnyValue))
| AError (message : AnyValue) (props : list (string * AnyValue)).

Fixpoint lookupAny (key : string) (props : list (string * AnyValue)) : AnyValue :=
  match props with
  | [] => AUndefined
  | (k, v) :: rest => if String.eqb k key then v else lookupAny key rest
  end.

Definition getAny (v : AnyValue) (key : string) : AnyValue :=
  match v with
  | AObject props => lookupAny key props
  | AError message props =>
      if String.eqb key "message" then message else lookupAny key props
  | _ => AUndefined
  end.

Definition truthyAny (v : AnyValue) : bool :=
  match v with
  | AUndefined | ANull => false
  | ABool b => b
  | ANumber n => negb (n =? 0)%Z
  | AString s => nonEmpty s
  | AObject _ | AError _ _ => true
  end.

(** Lines 4-9. *)
Definition inspectedAny (error : AnyValue) : AnyValue :=
  if truthyAny (getAny error "error") then getAny error "error" else error.

(** Lines 3-20: the value of [errorMessage] when line 22 is reached. *)
Definition extractAny (error : AnyValue) : AnyValue :=
  let errorToInspect := inspectedAny error in
  match errorToInspect with
  | AError message _ => message
  | AString s => AString s
  | _ =>
      match getAny errorToInspect "message" with
      | AString s => AString s
      | _ =>
          match getAny error "message" with
          | AString s => AString s
          | _ => AString unknownError
          end
      end
  end.

(** How a call ends. *)
Inductive Completion : Type :=
| Returns (result : string)
| ThrowsTypeError.

(** Lines 2-56, on any value. *)
Definition getApiErrorMessageAny (error : AnyValue) (context : string) : Completion :=
  match extractAny error with
  | AString errorMessage => Returns (describe errorMessage context)
  | _ => ThrowsTypeError
  end.

(** A value of the first kind among the values of the second. *)
Fixpoint typed (v : JsValue) : AnyValue :=
  match v with
  | VUndefined => AUndefined
  | VNull => ANull
  | VBool b => ABool b
  | VNumber n => ANumber n
  | VString s => AString s
  | VObject props => AObject (map (fun kv => (fst kv, typed (snd kv))) props)
  | VError message props =>
      AError (AString message) (map (fun kv => (fst kv, typed (snd kv))) props)
  end.

(** *** The classifier as the specification words it

    Six categories, tried in a fixed order of priority; each is
    recognised by substrings of the lower-cased message and answers with
    one sentence. *)
Inductive Category : Type :=
| InvalidCredential
| PermissionDenied
| QuotaRateLimit
| SafetyBlock
| ServerError
| NetworkError.

Definition priority : list Category :=
  [InvalidCredential; PermissionDenied; QuotaRateLimit; SafetyBlock; ServerError; NetworkError].

Definition patterns (c : Category) : list string :=
  match c with
  | InvalidCredential => ["api key not valid"]
  | PermissionDenied => ["permission denied"; "403"]
  | QuotaRateLimit => ["quota"; "rate limit"; "429"]
  | SafetyBlock => ["content has been blocked"; "safety policy"]
  | ServerError => ["server error"; "500"; "service unavailable"]
  | NetworkError => ["network error"; "failed to fetch"]
  end.

Definition sentence (c : Category) : string :=
  match c with
  | InvalidCredential =>
      "The provided API key is invalid or not activated for this project. Please check your configuration."
  | PermissionDenied =>
      "You do not have permission to access this resource. This could be due to an incorrect API key or project settings."
  | QuotaRateLimit =>
      "The API request quota has been exceeded. Please wait a while before trying again."
  | SafetyBlock =>
      "The request was blocked due to the safety policy. Please modify your script and try again."
  | ServerError =>
      "The AI service is currently experiencing issues. Please try again later."
  | NetworkError =>
      "A network error occurred. Please check your internet connection and try again."
  end.

Definition matches (lower : string) (c : Category) : bool :=
  existsb (includes lower) (patterns c).

(** The first category, in priority order, one of whose substrings occurs. *)
Definition classify (lower : string) : option Category :=
  find (matches lower) priority.

(** The generic message for a context tag, built around the message. *)
Definition contextualized (context message : string) : string :=
  if String.eqb context "start" then "Could not start the interview: " ++ message ++ "."
  else if String.eqb context "summary" then
    "An API error occurred while generating the summary: " ++ message
  else "An API error occurred: " ++ message.

(** [typeof v === 'string'] *)
Definition isString (v : JsValue) : bool :=
  match v with
  | VString _ => true
  | _ => false
  end.

(** One of the four shapes of lines 12-20 yields a message. *)
Definition messageFound (error : JsValue) : bool :=
  match inspected error with
  | VError _ _ | VString _ => true
  | v => isString (get v "message") || isString (get error "message")
  end.

(** [typeof v === 'string'] *)
Definition isStringAny (v : AnyValue) : bool :=
  match v with
  | AString _ => true
  | _ => false
  end.

(** The same on any value: an instance of [Error] yields its [message],
    whatever that is. *)
Definition messageFoundAny (error : AnyValue) : bool :=
  match inspectedAny error with
  | AError _ _ | AString _ => true
  | v => isStringAny (getAny v "message") || isStringAny (getAny error "message")
  end.

(** The error inspected is an instance of [Error] whose [message] is not
    a string. *)
Definition untypedMessage (error : AnyValue) : bool :=
  match inspectedAny error with
  | AError message _ => negb (isStringAny message)
  | _ => false
  end.

End ErrorUtil.

(** ** The Gemini service: generateWelcomeAudio *)

Module GeminiService.
Import JsString.

(** How a promise settles. *)
Inductive Settled (A : Type) : Type :=
| Fulfilled (value : A)
| Rejected (reason : ErrorUtil.JsValue).
Arguments Fulfilled {A} value.
Arguments Rejected {A} reason.

(** The response of [ai.models.generateContent], as far as line 39 reads
    it; every level of the chain may be absent. *)
Record Blob : Type := { data : option string }.
Record Part : Type := { inlineData : option Blob }.
Record Content : Type := { parts : option (list Part) }.
Record Candidate : Type := { content : option Content }.
Record GenerateContentResponse : Type := { candidates : option (list Candidate) }.

(** The keys of the [welcomeMessages] table. *)
Definition welcomeLanguages : list string :=
  ["English"; "Spanish"; "French"; "German"; "Japanese"; "Mandarin Chinese"; "Hindi";
   "Portuguese"].

(** Property names every object literal inherits from [Object.prototype]:
    indexing the table with one of them yields a truthy value that is not
    one of its sentences. *)
Definition objectPrototypeKeys : list string :=
  ["constructor"; "__proto__"; "hasOwnProperty"; "isPrototypeOf"; "propertyIsEnumerable";
   "toLocaleString"; "toString"; "valueOf"; "__defineGetter__"; "__defineSetter__";
   "__lookupGetter__"; "__lookupSetter__"].

(** The value of [text] at line 23.  The sentences of the table play no
    part in what follows; each is named by its key. *)
Inductive WelcomeText : Type :=
| Sentence (language : string)
| Inherited (key : string).

Definition mem (s : string) (l : list string) : bool := existsb (String.eqb s) l.

(** [welcomeMessages[language] || welcomeMessages['English']] *)
Definition welcomeText (language : string) : WelcomeText :=
  if mem language welcomeLanguages then Sentence language
  else if mem language objectPrototypeKeys then Inherited language
  else Sentence "English".

(** [a?.[0]] on an optional array. *)
Definition first {A : Type} (l : option (list A)) : option A :=
  match l with
  | Some (x :: _) => Some x
  | _ => None
  end.

(** [o?.f] on an optional object. *)
Definition opt {A B : Type} (o : option A) (f : A -> option B) : option B :=
  match o with
  | Some a => f a
  | None => None
  end.

(** Line 39: [response.candidates?.[0]?.content?.parts?.[0]?.inlineData?.data]. *)
Definition audioOf (response : GenerateContentResponse) : option string :=
  opt (opt (first (opt (opt (first (candidates response)) content) parts)) inlineData) data.

(** [try { body } catch (error) { handler }] around an awaited call. *)
Definition tryCatch {A B : Type} (awaited : Settled A) (body : A -> Settled B)
  (handler : ErrorUtil.JsValue -> Settled B) : Settled B :=
  match awaited with
  | Fulfilled a =>
      match body a with
      | Fulfilled b => Fulfilled b
      | Rejected reason => handler reason
      end
  | Rejected reason => handler reason
  end.

Section WelcomeAudio.

(** The model call: what [ai.models.generateContent] settles to for a text. *)
Variable generateContent : WelcomeText -> Settled GenerateContentResponse.

Definition generateWelcomeAudio (language : string) : Settled string :=
  let text := welcomeText language in
  tryCatch (generateContent text)
    (fun response =>
       match audioOf response with
       | Some base64Audio => if nonEmpty base64Audio then Fulfilled base64Audio else Fulfilled ""
       | None => Fulfilled ""
       end)
    (fun error => Fulfilled "").

End WelcomeAudio.

End GeminiService.

(** ** The App component: reducer state *)

Module App.
Import JsString.

Inductive InterviewState : Type :=
| IDLE
| CONNECTING
| IN_CONVERSATION
| SUMMARIZING
| FINISHED
| ERROR.

Record TranscriptEntry : Type := { speaker : string; text : string }.

Record AppState : Type := {
  script : string;
  interviewState : InterviewState;
  transcript : list TranscriptEntry;
  currentInterviewerText : string;
  currentUserText : string;
  summary : option string;
  error : option string;
  language : string;
  micGain : Q;
  speakerVolume : Q
}.

(** [Partial<AppState>]: each field given or left out. *)
Record PartialAppState : Type := {
  p_script : option string;
  p_interviewState : option InterviewState;
  p_transcript : option (list TranscriptEntry);
  p_currentInterviewerText : option string;
  p_currentUserText : option string;
  p_summary : option (option string);
  p_error : option (option string);
  p_language : option string;
  p_micGain : option Q;
  p_speakerVolume : option Q
}.

Inductive AppAction : Type :=
| SET_STATE (payload : PartialAppState)
| START_CONNECTING (script language : string)
| CONNECTION_ESTABLISHED
| UPDATE_TRANSCRIPTIONS (user interviewer : string)
| FINALIZE_TURN (user interviewer : string)
| START_SUMMARIZING
| FINISH_INTERVIEW (payload : string)
| SET_ERROR (payload : string)
| RESET.

Definition initialState : AppState :=
  {| script := "Conduct a 15-minute interview for a senior product manager role. Focus on strategy, execution, and leadership. Start by introducing yourself.";
     interviewState := IDLE;
     transcript := [];
     currentInterviewerText := "";
     currentUserText := "";
     summary := None;
     error := None;
     language := "English";
     micGain := 1;
     speakerVolume := 1 |}.

Definition orElse {A : Type} (given : option A) (old : A) : A :=
  match given with
  | Some a => a
  | None => old
  end.

(** [array.push(entry)] guarded by the truthiness of the entry's text. *)
Definition pushIf (who said : string) (entries : list TranscriptEntry) : list TranscriptEntry :=
  if nonEmpty said then entries ++ [{| speaker := who; text := said |}] else entries.

Definition appReducer (state : AppState) (action : AppAction) : AppState :=
  match action with
  | SET_STATE p =>
      {| script := orElse (p_script p) (script state);
         interviewState := orElse (p_interviewState p) (interviewState state);
         transcript := orElse (p_transcript p) (transcript state);
         currentInterviewerText :=
           orElse (p_currentInterviewerText p) (currentInterviewerText state);
         currentUserText := orElse (p_currentUserText p) (currentUserText state);
         summary := orElse (p_summary p) (summary state);
         error := orElse (p_error p) (error state);
         language := orElse (p_language p) (language state);
         micGain := orElse (p_micGain p) (micGain state);
         speakerVolume := orElse (p_speakerVolume p) (speakerVolume state) |}
  | START_CONNECTING script' language' =>
      {| script := script';
         interviewState := CONNECTING;
         transcript := [];
         currentInterviewerText := "";
         currentUserText := "";
         summary := None;
         error := None;
         language := language';
         micGain := micGain state;
         speakerVolume := speakerVolume state |}
  | CONNECTION_ESTABLISHED =>
      {| script := script state;
         interviewState := IN_CONVERSATION;
         transcript := transcript state;
         currentInterviewerText := currentInterviewerText state;
         currentUserText := currentUserText state;
         summary := summary state;
         error := error state;
         language := language state;
         micGain := micGain state;
         speakerVolume := speakerVolume state |}
  | UPDATE_TRANSCRIPTIONS user interviewer =>
      {| script := script state;
         interviewState := interviewState state;
         transcript := transcript state;
         currentInterviewerText := interviewer;
         currentUserText := user;
         summary := summary state;
         error := error state;
         language := language state;
         micGain := micGain state;
         speakerVolume := speakerVolume state |}
  | FINALIZE_TURN user interviewer =>
      let newTranscript :=
        pushIf "Interviewer" interviewer (pushIf "You" user (transcript state)) in
      {| script := script state;
         interviewState := interviewState state;
         transcript := newTranscript;
         currentInterviewerText := "";
         currentUserText := "";
         summary := summary state;
         error := error state;
         language := language state;
         micGain := micGain state;
         speakerVolume := speakerVolume state |}
  | START_SUMMARIZING =>
      {| script := script state;
         interviewState := SUMMARIZING;
         transcript := transcript state;
         currentInterviewerText := currentInterviewerText state;
         currentUserText := currentUserText state;
         summary := summary state;
         error := error state;
         language := language state;
         micGain := micGain state;
         speakerVolume := speakerVolume state |}
  | FINISH_INTERVIEW payload =>
      {| script := script state;
         interviewState := FINISHED;
         transcript := transcript state;
         currentInterviewerText := currentInterviewerText state;
         currentUserText := currentUserText state;
         summary := Some payload;
         error := error state;
         language := language state;
         micGain := micGain state;
         speakerVolume := speakerVolume state |}
  | SET_ERROR payload =>
      {| script := script state;
         interviewState := ERROR;
         transcript := transcript state;
         currentInterviewerText := currentInterviewerText state;
         currentUserText := currentUserText state;
         summary := summary state;
         error := Some payload;
         language := language state;
         micGain := micGain state;
         speakerVolume := speakerVolume state |}
  | RESET => initialState
  end.

(** ** The App component: refs, browser and handlers *)

(** Objects handed out by the browser and the SDK are named by numbers. *)
Definition Handle : Type := nat.

(** The calls on browser and SDK objects that the handlers make, in the
    order they are made. *)
Inductive Effect : Type :=
| SetTimeout (id : positive) (delay : N)
| ClearTimeout (id : positive)
| SessionClose (session : Handle)
| SendRealtimeInput (session : Handle)
| Disconnect (node : Handle)
| TracksStop (stream : Handle)
| ContextClose (context : Handle)
| SourceStart (source : Handle) (when : Q)
| SourceStop (source : Handle).

(** The refs holding the session, the audio graph and the device. *)
Record Handles : Type := {
  sessionPromise : option Handle;
  inputAudioContext : option Handle;
  outputAudioContext : option Handle;
  scriptProcessorNode : option Handle;
  mediaStreamSource : option Handle;
  inputGainNode : option Handle;
  outputGainNode : option Handle;
  userMediaStream : option Handle
}.

(** The refs of the silence detection.  A timer id is a positive number,
    hence truthy. *)
Record Segmenter : Type := {
  silenceTimerRef : option positive;
  hasSpokenInTurnRef : bool;
  isSilentRef : bool
}.

(** The refs of the playback: a JavaScript [Set] is its members in
    insertion order, without repetition. *)
Record Playback : Type := {
  audioSources : list Handle;
  nextStartTime : Q
}.

(** What the browser keeps: the timeouts not yet fired, each with the
    milliseconds left; the next timer id and source node it hands out; the
    calls received so far. *)
Record Browser : Type := {
  timers : list (positive * N);
  nextTimerId : positive;
  nextSourceId : Handle;
  effects : list Effect
}.

Record World : Type := {
  app : AppState;
  handles : Handles;
  segmenter : Segmenter;
  playback : Playback;
  currentInterviewerTextRef : string;
  currentUserTextRef : string;
  browser : Browser
}.

Definition noHandles : Handles :=
  {| sessionPromise := None; inputAudioContext := None; outputAudioContext := None;
     scriptProcessorNode := None; mediaStreamSource := None; inputGainNode := None;
     outputGainNode := None; userMediaStream := None |}.

(** The component as first rendered: every [useRef] at its initial value. *)
Definition initialWorld : World :=
  {| app := initialState;
     handles := noHandles;
     segmenter := {| silenceTimerRef := None; hasSpokenInTurnRef := false;
                     isSilentRef := false |};
     playback := {| audioSources := []; nextStartTime := 0 |};
     currentInterviewerTextRef := "";
     currentUserTextRef := "";
     browser := {| timers := []; nextTimerId := 1; nextSourceId := 0%nat; effects := [] |} |}.

Definition withApp (a : AppState) (w : World) : World :=
  {| app := a; handles := handles w; segmenter := segmenter w; playback := playback w;
     currentInterviewerTextRef := currentInterviewerTextRef w;
     currentUserTextRef := currentUserTextRef w; browser := browser w |}.

Definition withHandles (h : Handles) (w : World) : World :=
  {| app := app w; handles := h; segmenter := segmenter w; playback := playback w;
     currentInterviewerTextRef := currentInterviewerTextRef w;
     currentUserTextRef := currentUserTextRef w; browser := browser w |}.

Definition withSegmenter (s : Segmenter) (w : World) : World :=
  {| app := app w; handles := handles w; segmenter := s; playback := playback w;
     currentInterviewerTextRef := currentInterviewerTextRef w;
     currentUserTextRef := currentUserTextRef w; browser := browser w |}.

Definition withPlayback (p : Playback) (w : World) : World :=
  {| app := app w; handles := handles w; segmenter := segmenter w; playback := p;
     currentInterviewerTextRef := currentInterviewerTextRef w;
     currentUserTextRef := currentUserTextRef w; browser := browser w |}.

Definition withTexts (interviewer user : string) (w : World) : World :=
  {| app := app w; handles := handles w; segmenter := segmenter w; playback := playback w;
     currentInterviewerTextRef := interviewer;
     currentUserTextRef := user; browser := browser w |}.

Definition withBrowser (b : Browser) (w : World) : World :=
  {| app := app w; handles := handles w; segmenter := segmenter w; playback := playback w;
     currentInterviewerTextRef := currentInterviewerTextRef w;
     currentUserTextRef := currentUserTextRef w; browser := b |}.

(** [dispatch(action)] *)
Definition dispatch (action : AppAction) (w : World) : World :=
  withApp (appReducer (app w) action) w.

(** Records one call on a browser or SDK object. *)
Definition call (e : Effect) (w : World) : World :=
  let b := browser w in
  withBrowser {| timers := timers b; nextTimerId := nextTimerId b;
                 nextSourceId := nextSourceId b; effects := effects b ++ [e] |} w.

(** [o?.method()] on a ref that may be null. *)
Definition callOn (ref : option Handle) (e : Handle -> Effect) (w : World) : World :=
  match ref with
  | Some h => call (e h) w
  | None => w
  end.

(** [clearTimeout(id)]: the timeout, if still waiting, is dropped. *)
Definition clearTimeout (id : positive) (w : World) : World :=
  let b := browser (call (ClearTimeout id) w) in
  withBrowser {| timers := filter (fun t => negb (Pos.eqb (fst t) id)) (timers b);
                 nextTimerId := nextTimerId b; nextSourceId := nextSourceId b;
                 effects := effects b |} w.

(** [setTimeout(callback, delay)]; the only callback there is sets
    [isSilentRef.current = true] (see [elapse]).  Returns the new id. *)
Definition setTimeout (delay : N) (w : World) : positive * World :=
  let id := nextTimerId (browser w) in
  let b := browser (call (SetTimeout id delay) w) in
  (id, withBrowser {| timers := timers b ++ [(id, delay)]; nextTimerId := Pos.succ id;
                      nextSourceId := nextSourceId b; effects := effects b |} w).

Definition setSilenceTimerRef (r : option positive) (w : World) : World :=
  let s := segmenter w in
  withSegmenter {| silenceTimerRef := r; hasSpokenInTurnRef := hasSpokenInTurnRef s;
                   isSilentRef := isSilentRef s |} w.

Definition setHasSpokenInTurnRef (v : bool) (w : World) : World :=
  let s := segmenter w in
  withSegmenter {| silenceTimerRef := silenceTimerRef s; hasSpokenInTurnRef := v;
                   isSilentRef := isSilentRef s |} w.

Definition setIsSilentRef (v : bool) (w : World) : World :=
  let s := segmenter w in
  withSegmenter {| silenceTimerRef := silenceTimerRef s;
                   hasSpokenInTurnRef := hasSpokenInTurnRef s; isSilentRef := v |} w.

Definition setAudioSources (l : list Handle) (w : World) : World :=
  withPlayback {| audioSources := l; nextStartTime := nextStartTime (playback w) |} w.

Definition setNextStartTime (t : Q) (w : World) : World :=
  withPlayback {| audioSources := audioSources (playback w); nextStartTime := t |} w.

(** [if (silenceTimerRef.current) { clearTimeout(...); silenceTimerRef.current = null; }] *)
Definition cancelSilenceTimer (w : World) : World :=
  match silenceTimerRef (segmenter w) with
  | Some id => setSilenceTimerRef None (clearTimeout id w)
  | None => w
  end.

(** [audioSources.current.forEach(source => source.stop())] *)
Definition stopAll (sources : list Handle) (w : World) : World :=
  fold_left (fun acc source => call (SourceStop source) acc) sources w.

Definition clearSources (w : World) : World :=
  setNextStartTime 0 (setAudioSources [] (stopAll (audioSources (playback w)) w)).

(** Lines 276-304. *)
Definition cleanupAudio (w : World) : World :=
  let w := cancelSilenceTimer w in
  let h := handles w in
  let w :=
    match sessionPromise h with
    | Some session =>
        withHandles
          {| sessionPromise := None; inputAudioContext := inputAudioContext h;
             outputAudioContext := outputAudioContext h;
             scriptProcessorNode := scriptProcessorNode h;
             mediaStreamSource := mediaStreamSource h; inputGainNode := inputGainNode h;
             outputGainNode := outputGainNode h; userMediaStream := userMediaStream h |}
          (call (SessionClose session) w)
    | None => w
    end in
  let w := callOn (scriptProcessorNode h) Disconnect w in
  let w := callOn (mediaStreamSource h) Disconnect w in
  let w := callOn (inputGainNode h) Disconnect w in
  let w := callOn (outputGainNode h) Disconnect w in
  let w := callOn (userMediaStream h) TracksStop w in
  let w := callOn (inputAudioContext h) ContextClose w in
  let w := callOn (outputAudioContext h) ContextClose w in
  let w := clearSources w in
  withHandles noHandles w.

(** What the refs hold, as the calls that let go of it, in the order
    [cleanupAudio] makes them: the timeout cleared, the session closed, the
    four nodes disconnected, the tracks of the stream stopped, the two
    contexts closed, every source of the active set stopped. *)
Definition owed {A : Type} (ref : option A) (e : A -> Effect) : list Effect :=
  match ref with
  | Some x => [e x]
  | None => []
  end.

Definition releases (w : World) : list Effect :=
  let h := handles w in
  owed (silenceTimerRef (segmenter w)) ClearTimeout
  ++ owed (sessionPromise h) SessionClose
  ++ owed (scriptProcessorNode h) Disconnect
  ++ owed (mediaStreamSource h) Disconnect
  ++ owed (inputGainNode h) Disconnect
  ++ owed (outputGainNode h) Disconnect
  ++ owed (userMediaStream h) TracksStop
  ++ owed (inputAudioContext h) ContextClose
  ++ owed (outputAudioContext h) ContextClose
  ++ map SourceStop (audioSources (playback w)).

Definition SILENCE_THRESHOLD : Q := 1 # 100.
Definition SILENCE_DURATION_MS : N := 1500.

(** [a > b] on numbers. *)
Definition gt (a b : Q) : bool := negb (Qle_bool a b).

(** Time passes: [dt] milliseconds.  Every timeout whose delay has run out
    fires, which runs its callback [isSilentRef.current = true]; the ref
    that holds its id is left as it is. *)
Definition elapse (dt : N) (w : World) : World :=
  let b := browser w in
  let fired := filter (fun t => (snd t <=? dt)%N) (timers b) in
  let waiting := filter (fun t => negb (snd t <=? dt)%N) (timers b) in
  let w := withBrowser {| timers := map (fun t => (fst t, (snd t - dt)%N)) waiting;
                          nextTimerId := nextTimerId b; nextSourceId := nextSourceId b;
                          effects := effects b |} w in
  match fired with
  | [] => w
  | _ :: _ => setIsSilentRef true w
  end.

(** The ['ended'] listener of a source (line 411). *)
Definition onended (source : Handle) (w : World) : World :=
  setAudioSources (filter (fun s => negb (Nat.eqb s source)) (audioSources (playback w))) w.

(** [audioSources.current.add(source)] *)
Definition addSource (source : Handle) (w : World) : World :=
  let l := audioSources (playback w) in
  if existsb (Nat.eqb source) l then w else setAudioSources (l ++ [source]) w.

(** [createBufferSource()]: a new node. *)
Definition createBufferSource (w : World) : Handle * World :=
  let b := browser w in
  (nextSourceId b,
   withBrowser {| timers := timers b; nextTimerId := nextTimerId b;
                  nextSourceId := S (nextSourceId b); effects := effects b |} w).

(** A decoded buffer: its length in sample frames and its sample rate. *)
Record AudioBuffer : Type := { frames : N; sampleRate : positive }.

(** [audioBuffer.duration]: the length divided by the sample rate, a
    double. *)
Definition duration (b : AudioBuffer) : Q :=
  Double.div (inject_Z (Z.of_N (frames b))) (inject_Z (Zpos (sampleRate b))).

(** An inbound message, with the fields the handler reads: optional where
    it reads them with [?.] or tests them, present elsewhere. *)
Record InlineData : Type := { data : option string }.
Record AudioPart : Type := { inlineData : InlineData }.
Record ModelTurn : Type := { parts : list AudioPart }.
Record Transcription : Type := { transcriptionText : string }.
Record LiveServerContent : Type := {
  modelTurn : option ModelTurn;
  interrupted : option bool;
  turnComplete : option bool;
  inputTranscription : option Transcription;
  outputTranscription : option Transcription
}.
Record LiveServerMessage : Type := { serverContent : option LiveServerContent }.

(** Line 404: [message.serverContent?.modelTurn?.parts[0]?.inlineData.data]. *)
Definition base64AudioOf (message : LiveServerMessage) : option string :=
  match serverContent message with
  | Some sc =>
      match modelTurn sc with
      | Some turn =>
          match parts turn with
          | part :: _ => data (inlineData part)
          | [] => None
          end
      | None => None
      end
  | None => None
  end.

(** Truthiness of an optional flag. *)
Definition flag (field : LiveServerContent -> option bool) (message : LiveServerMessage) : bool :=
  match serverContent message with
  | Some sc => match field sc with Some b => b | None => false end
  | None => false
  end.

Definition transcriptionOf (field : LiveServerContent -> option Transcription)
  (message : LiveServerMessage) : option string :=
  match serverContent message with
  | Some sc => match field sc with Some t => Some (transcriptionText t) | None => None end
  | None => None
  end.

Section Handlers.

(** Two helpers of [utils/audio], which is not among the sources, are taken
    as given: the energy of a block of samples and the decoding of a chunk
    of inbound audio (at 24 kHz, one channel) into a buffer.  Decoding is
    taken to succeed: a chunk that cannot be decoded makes the handler
    reject at line 407, which is outside this model. *)
Variable Samples : Type.
Variable calculateRMS : Samples -> Q.
Variable decodeAudioData : string -> AudioBuffer.

(** Lines 372-398. *)
Definition onaudioprocess (inputData : Samples) (w : World) : World :=
  let rms := calculateRMS inputData in
  let w :=
    if gt rms SILENCE_THRESHOLD then
      setIsSilentRef false (cancelSilenceTimer w)
    else
      match hasSpokenInTurnRef (segmenter w), silenceTimerRef (segmenter w) with
      | true, None =>
          let (id, w) := setTimeout SILENCE_DURATION_MS w in
          setSilenceTimerRef (Some id) w
      | _, _ => w
      end in
  if negb (isSilentRef (segmenter w)) then
    callOn (sessionPromise (handles w)) SendRealtimeInput w
  else w.

(** Lines 404-415; [currentTime] is the reading of
    [outputAudioContext.current.currentTime] when the handler runs.  The
    [+=] of line 413 is an addition of doubles. *)
Definition playChunk (currentTime : Q) (message : LiveServerMessage) (w : World) : World :=
  match base64AudioOf message, outputAudioContext (handles w), outputGainNode (handles w) with
  | Some base64Audio, Some _, Some _ =>
      if nonEmpty base64Audio then
        let w := setNextStartTime (Qmax (nextStartTime (playback w)) currentTime) w in
        let audioBuffer := decodeAudioData base64Audio in
        let (source, w) := createBufferSource w in
        let w := call (SourceStart source (nextStartTime (playback w))) w in
        let w := setNextStartTime
                   (Double.add (nextStartTime (playback w)) (duration audioBuffer)) w in
        addSource source w
      else w
  | _, _, _ => w
  end.

(** Lines 417-421. *)
Definition onInterrupted (message : LiveServerMessage) (w : World) : World :=
  if flag interrupted message then clearSources w else w.

(** Lines 423-432. *)
Definition onTranscriptions (message : LiveServerMessage) (w : World) : World :=
  let w :=
    match transcriptionOf outputTranscription message with
    | Some delta => withTexts (currentInterviewerTextRef w ++ delta) (currentUserTextRef w) w
    | None => w
    end in
  let w :=
    match transcriptionOf inputTranscription message with
    | Some delta =>
        let w := withTexts (currentInterviewerTextRef w) (currentUserTextRef w ++ delta) w in
        if nonEmpty (trim delta) then setHasSpokenInTurnRef true w else w
    | None => w
    end in
  dispatch (UPDATE_TRANSCRIPTIONS (currentUserTextRef w) (currentInterviewerTextRef w)) w.

(** Lines 434-446. *)
Definition onTurnComplete (message : LiveServerMessage) (w : World) : World :=
  if flag turnComplete message then
    let w := dispatch (FINALIZE_TURN (trim (currentUserTextRef w))
                                     (trim (currentInterviewerTextRef w))) w in
    let w := withTexts "" "" w in
    let w := setHasSpokenInTurnRef false w in
    let w := setIsSilentRef false w in
    cancelSilenceTimer w
  else w.

(** Lines 403-447. *)
Definition onmessage (currentTime : Q) (message : LiveServerMessage) (w : World) : World :=
  onTurnComplete message (onTranscriptions message (onInterrupted message
    (playChunk currentTime message w))).

(** What can happen to the running component. *)
Inductive Event : Type :=
| AudioProcess (inputData : Samples)
| Message (currentTime : Q) (message : LiveServerMessage)
| Elapse (dt : N)
| Ended (source : Handle)
| Cleanup.

Definition step (w : World) (e : Event) : World :=
  match e with
  | AudioProcess inputData => onaudioprocess inputData w
  | Message currentTime message => onmessage currentTime message w
  | Elapse dt => elapse dt w
  | Ended source => onended source w
  | Cleanup => cleanupAudio w
  end.

Definition run (w : World) (events : list Event) : World := fold_left step events w.

(** *** The turn segmenter, as the specification names its states *)

Inductive TurnSegmentState : Type :=
| Idle
| Active
| PendingSilence
| Suspended.

(** The timeout whose id [silenceTimerRef] holds is still waiting. *)
Definition timerPending (w : World) : bool :=
  match silenceTimerRef (segmenter w) with
  | Some id => existsb (fun t => Pos.eqb (fst t) id) (timers (browser w))
  | None => false
  end.

Definition segmentState (w : World) : TurnSegmentState :=
  if isSilentRef (segmenter w) then Suspended
  else if timerPending w then PendingSilence
  else if hasSpokenInTurnRef (segmenter w) then Active
  else Idle.

(** How often the run enters [Suspended]: the steps over which
    [isSilentRef] goes from false to true. *)
Fixpoint suspensions (w : World) (events : list Event) : nat :=
  match events with
  | [] => 0
  | e :: rest =>
      let w' := step w e in
      (if negb (isSilentRef (segmenter w)) && isSilentRef (segmenter w') then 1 else 0)
      + suspensions w' rest
  end.

(** The milliseconds that pass during a run. *)
Fixpoint elapsed (events : list Event) : N :=
  match events with
  | [] => 0
  | Elapse dt :: rest => dt + elapsed rest
  | _ :: rest => elapsed rest
  end.

(** The duration of the buffer an audio chunk decodes to. *)
Definition chunkDuration (message : LiveServerMessage) : Q :=
  match base64AudioOf message with
  | Some base64Audio => duration (decodeAudioData base64Audio)
  | None => 0
  end.

(** The sum of the durations of the chunks. *)
Definition totalDuration (chunks : list (Q * LiveServerMessage)) : Q :=
  fold_right (fun c acc => chunkDuration (snd c) + acc) 0 chunks.

(** Their sum as doubles add up, one chunk after the other, from [from]. *)
Definition accumulated (from : Q) (chunks : list (Q * LiveServerMessage)) : Q :=
  fold_left (fun acc c => Double.add acc (chunkDuration (snd c))) chunks from.

(** The readings of the output clock are doubles. *)
Definition clockReadings (chunks : list (Q * LiveServerMessage)) : Prop :=
  Forall (fun c => Double.representable (fst c)) chunks.

Definition messages (chunks : list (Q * LiveServerMessage)) : list Event :=
  map (fun c => Message (fst c) (snd c)) chunks.

(** Every block of samples handled in the run has its energy above the
    threshold; the other events are free. *)
Definition allAbove (events : list Event) : Prop :=
  Forall (fun e => match e with
                   | AudioProcess x => SILENCE_THRESHOLD < calculateRMS x
                   | _ => True
                   end) events.

(** The same with energies at or above the threshold. *)
Definition allAtOrAbove (events : list Event) : Prop :=
  Forall (fun e => match e with
                   | AudioProcess x => SILENCE_THRESHOLD <= calculateRMS x
                   | _ => True
                   end) events.

(** A stretch of silence: time passes and every block of samples handled
    has its energy below the threshold; nothing else happens. *)
Definition silence (events : list Event) : Prop :=
  Forall (fun e => match e with
                   | AudioProcess x => calculateRMS x < SILENCE_THRESHOLD
                   | Elapse _ => True
                   | _ => False
                   end) events.

End Handlers.

Arguments AudioProcess {Samples} inputData.
Arguments Message {Samples} currentTime message.
Arguments Elapse {Samples} dt.
Arguments Ended {Samples} source.
Arguments Cleanup {Samples}.

(** The only timeouts waiting are the one [silenceTimerRef] holds; one
    waits only in a turn in which the user has spoken; and when the ref
    holds an id whose timeout waits no more, that timeout has fired and
    nothing has switched sending on again.  Every handler keeps this, and
    the component starts with it. *)
Definition consistent (w : World) : Prop :=
  (forall t, In t (timers (browser w)) -> silenceTimerRef (segmenter w) = Some (fst t))
  /\ (timers (browser w) <> [] -> hasSpokenInTurnRef (segmenter w) = true)
  /\ (silenceTimerRef (segmenter w) <> None -> timers (browser w) = [] ->
      isSilentRef (segmenter w) = true).

(** Sending is on and no timeout is waiting. *)
Definition calm (w : World) : Prop :=
  segmentState w <> Suspended /\ timers (browser w) = [].

(** An inbound event that carries audio to play. *)
Definition audioChunk (message : LiveServerMessage) : Prop :=
  exists base64Audio,
    base64AudioOf message = Some base64Audio /\ nonEmpty base64Audio = true.

(** An audio chunk that comes without the interrupted flag. *)
Definition uninterruptedChunk (message : LiveServerMessage) : Prop :=
  audioChunk message /\ flag interrupted message = false.

(** The output graph is there, as it is from the start of a conversation
    until it is torn down. *)
Definition playbackReady (w : World) : Prop :=
  outputAudioContext (handles w) <> None /\ outputGainNode (handles w) <> None.

(** The text a transcription adds to its buffer. *)
Definition delta (field : LiveServerContent -> option Transcription)
  (message : LiveServerMessage) : string :=
  match transcriptionOf field message with
  | Some d => d
  | None => ""
  end.

(** The entries a turn with these two buffers leaves in the transcript, as
    the specification gives them: the user's, then the interviewer's, each
    only if something is left of it after trimming. *)
Definition finalized (user interviewer : string) : list TranscriptEntry :=
  (if nonEmpty (trim user) then [{| speaker := "You"; text := trim user |}] else [])
  ++ (if nonEmpty (trim interviewer)
      then [{| speaker := "Interviewer"; text := trim interviewer |}] else []).

End App.

(** ** A conversation to run the handlers on *)

Module Scenario.
Import App.

(** A block of samples stands for its energy. *)
Definition energy (rms : Q) : Q := rms.

(** Every chunk decodes to half a second of audio at 24 kHz. *)
Definition halfSecond (base64Audio : string) : AudioBuffer :=
  {| frames := 12000; sampleRate := 24000 |}.

(** Every character of a chunk decodes to a tenth of a second of audio at
    24 kHz. *)
Definition tenthPerCharacter (base64Audio : string) : AudioBuffer :=
  {| frames := 2400 * N.of_nat (String.length base64Audio); sampleRate := 24000 |}.

Definition audio (base64Audio : string) : LiveServerMessage :=
  {| serverContent :=
       Some {| modelTurn :=
                 Some {| parts := [{| inlineData := {| data := Some base64Audio |} |}] |};
               interrupted := None; turnComplete := None;
               inputTranscription := None; outputTranscription := None |} |}.

Definition userSaid (words : string) : LiveServerMessage :=
  {| serverContent :=
       Some {| modelTurn := None; interrupted := None; turnComplete := None;
               inputTranscription := Some {| transcriptionText := words |};
               outputTranscription := None |} |}.

Definition interviewerSaid (words : string) : LiveServerMessage :=
  {| serverContent :=
       Some {| modelTurn := None; interrupted := None; turnComplete := None;
               inputTranscription := None;
               outputTranscription := Some {| transcriptionText := words |} |} |}.

Definition turnCompleted : LiveServerMessage :=
  {| serverContent :=
       Some {| modelTurn := None; interrupted := None; turnComplete := Some true;
               inputTranscription := None; outputTranscription := None |} |}.

Definition wasInterrupted : LiveServerMessage :=
  {| serverContent :=
       Some {| modelTurn := None; interrupted := Some true; turnComplete := None;
               inputTranscription := None; outputTranscription := None |} |}.

(** The component once a conversation is open: session, graph and device
    are held, the reducer is in conversation. *)
Definition conversing : World :=
  withHandles
    {| sessionPromise := Some 1%nat; inputAudioContext := Some 2%nat;
       outputAudioContext := Some 3%nat; scriptProcessorNode := Some 4%nat;
       mediaStreamSource := Some 5%nat; inputGainNode := Some 6%nat;
       outputGainNode := Some 7%nat; userMediaStream := Some 8%nat |}
    (dispatch CONNECTION_ESTABLISHED
       (dispatch (START_CONNECTING (script initialState) "English") initialWorld)).

(** The user has said something in this turn. *)
Definition afterSpeech : World :=
  onmessage halfSecond 0 (userSaid "hi") conversing.

(** ... and has then fallen silent: the silence timer runs. *)
Definition pendingSilence : World :=
  onaudioprocess Q energy (1 # 200) afterSpeech.

End Scenario.

(** ** The Gemini service: generateInterviewSummary *)

Module SummaryService.
Import JsString ErrorUtil GeminiService App.

(** The line feed of the template literals. *)
Definition nl : string := String (ascii_of_N 10) EmptyString.

(** Line 54: [`${entry.speaker}: ${entry.text}`]. *)
Definition formatEntry (entry : TranscriptEntry) : string :=
  speaker entry ++ ": " ++ text entry.

(** Line 54: [transcript.map(...).join('\n\n')]. *)
Definition formattedTranscript (transcript : list TranscriptEntry) : string :=
  String.concat (nl ++ nl) (map formatEntry transcript).

(** Lines 56-73. *)
Definition summaryPrompt (transcript : list TranscriptEntry) (language : string) : string :=
  "You are an expert HR manager providing feedback on a job interview." ++ nl
  ++ "Provide the feedback in " ++ language ++ "." ++ nl
  ++ nl
  ++ "Based on the following interview transcript, please provide a comprehensive summary of the candidate's performance." ++ nl
  ++ nl
  ++ "Your feedback should include:" ++ nl
  ++ "1.  **Overall Summary:** A brief, high-level overview of the interview." ++ nl
  ++ "2.  **Strengths:** Identify specific examples from the candidate's answers that demonstrate their strengths." ++ nl
  ++ "3.  **Areas for Improvement:** Offer constructive feedback on where the candidate could improve, again, referencing their answers." ++ nl
  ++ "4.  **Final Recommendation:** A concluding thought on the candidate's suitability for a generic role based on this interview." ++ nl
  ++ nl
  ++ "Format your response clearly using markdown headings." ++ nl
  ++ nl
  ++ "**Interview Transcript:**" ++ nl
  ++ "---" ++ nl
  ++ formattedTranscript transcript ++ nl
  ++ "---" ++ nl.

(** The response of the model call, as far as line 80 reads it. *)
Record SummaryResponse : Type := { responseText : string }.

Section Summary.

(** The model call: what [ai.models.generateContent] settles to for a prompt. *)
Variable generateContent : string -> Settled SummaryResponse.

(** Lines 53-85. *)
Definition generateInterviewSummary (transcript : list TranscriptEntry) (language : string)
  : Settled string :=
  let prompt := summaryPrompt transcript language in
  tryCatch (generateContent prompt)
    (fun response => Fulfilled (responseText response))
    (fun error => Rejected (VError (getApiErrorMessage error "summary") [])).

End Summary.

End SummaryService.

(** ** The App component: starting, stopping, resetting *)

Module Lifecycle.
Import JsString ErrorUtil GeminiService SummaryService App.

(** [v === s] for a string literal [s]. *)
Definition isTheString (v : JsValue) (s : string) : bool :=
  match v with
  | VString x => String.eqb x s
  | _ => false
  end.

(** Lines 468-484: the message shown when starting fails. *)
Definition startErrorMessage (err : JsValue) : string :=
  match err with
  | VError message _ =>
      if String.eqb message "API key not configured." then
        "The API key is not configured. This is a setup issue and requires developer attention."
      else if isTheString (get err "name") "NotAllowedError" then
        "Microphone access was denied. Please enable microphone permissions for this site in your browser settings and try again."
      else if isTheString (get err "name") "NotFoundError" then
        "No microphone was found on your device. Please connect a microphone and try again."
      else if isTheString (get err "name") "NotReadableError" then
        "There was a hardware error with your microphone, or it might be in use by another application. Please check your microphone and try again."
      else getApiErrorMessage err "start"
  | _ => getApiErrorMessage err "start"
  end.

(** What starting meets outside the component: whether the API key is
    set, the objects the browser and the SDK hand out (making a context or
    a node is taken to succeed), and how the request for the microphone
    settles. *)
Record StartEnv : Type := {
  apiKey : bool;
  newOutputContext : Handle;
  newOutputGain : Handle;
  getUserMedia : Settled Handle;
  newInputContext : Handle;
  newInputGain : Handle;
  connect : Handle
}.

(** Lines 486-487: the [catch] of [handleStartConversation]. *)
Definition startFailed (err : JsValue) (w : World) : World :=
  cleanupAudio (dispatch (SET_ERROR (startErrorMessage err)) w).

(** Lines 323-489.  The welcome audio is asked for but not awaited: what
    its promise brings is handled by [onWelcomeAudio].  The session opens
    later, in [onopen].  The request for the microphone is awaited; it is
    taken to settle before any other handler runs. *)
Definition handleStartConversation (env : StartEnv) (w : World) : World :=
  let state := app w in
  if String.eqb (trim (script state)) "" then
    dispatch (SET_ERROR "Please provide an interview topic or script.") w
  else
    let w := dispatch (START_CONNECTING (script state) (language state)) w in
    let w := withTexts "" "" w in
    if negb (apiKey env) then startFailed (VError "API key not configured." []) w
    else
      let h := handles w in
      let w := withHandles
                 {| sessionPromise := sessionPromise h;
                    inputAudioContext := inputAudioContext h;
                    outputAudioContext := Some (newOutputContext env);
                    scriptProcessorNode := scriptProcessorNode h;
                    mediaStreamSource := mediaStreamSource h;
                    inputGainNode := inputGainNode h;
                    outputGainNode := Some (newOutputGain env);
                    userMediaStream := userMediaStream h |} w in
      let w := setNextStartTime 0 w in
      match getUserMedia env with
      | Rejected err => startFailed err w
      | Fulfilled stream =>
          let h := handles w in
          withHandles
            {| sessionPromise := Some (connect env);
               inputAudioContext := Some (newInputContext env);
               outputAudioContext := outputAudioContext h;
               scriptProcessorNode := scriptProcessorNode h;
               mediaStreamSource := mediaStreamSource h;
               inputGainNode := Some (newInputGain env);
               outputGainNode := outputGainNode h;
               userMediaStream := Some stream |} w
      end.

(** Lines 343-355: the welcome audio has arrived.  [source.start()] starts
    the source at once, which is [start(0)]; the source is not put into
    [audioSources]. *)
Definition onWelcomeAudio (welcomeAudioBase64 : string) (w : World) : World :=
  match outputAudioContext (handles w), outputGainNode (handles w) with
  | Some _, Some _ =>
      if nonEmpty welcomeAudioBase64 then
        let (source, w) := createBufferSource w in
        call (SourceStart source 0) w
      else w
  | _, _ => w
  end.

(** How a callback ends: it returns, or it throws where it stands. *)
Inductive Outcome : Type :=
| Returned (w : World)
| Threw (w : World).

Definition stateOf (o : Outcome) : World :=
  match o with
  | Returned w => w
  | Threw w => w
  end.

(** Lines 365-402: the session is open.  [source] and [processor] are the
    nodes the input context hands out.  The three refs read with [!] are
    null after a teardown, and the calls they are passed to then throw. *)
Definition onopen (source processor : Handle) (w : World) : Outcome :=
  let w := dispatch CONNECTION_ESTABLISHED w in
  match inputAudioContext (handles w), userMediaStream (handles w) with
  | Some _, Some _ =>
      let h := handles w in
      let w := withHandles
                 {| sessionPromise := sessionPromise h;
                    inputAudioContext := inputAudioContext h;
                    outputAudioContext := outputAudioContext h;
                    scriptProcessorNode := Some processor;
                    mediaStreamSource := Some source;
                    inputGainNode := inputGainNode h;
                    outputGainNode := outputGainNode h;
                    userMediaStream := userMediaStream h |} w in
      match inputGainNode (handles w) with
      | Some _ => Returned w
      | None => Threw w
      end
  | _, _ => Threw w
  end.

(** Lines 448-452. *)
Definition onerror (e : JsValue) (w : World) : World :=
  cleanupAudio (dispatch (SET_ERROR (getApiErrorMessage e "start")) w).

(** Lines 491-494. *)
Definition handleReset (w : World) : World :=
  dispatch RESET (cleanupAudio w).

(** Lines 310-314: what is sent to be summarized; [transcript] is the
    one of the render the handler was made in. *)
Definition finalTranscript (transcript : list TranscriptEntry) (w : World)
  : list TranscriptEntry :=
  transcript
  ++ (if nonEmpty (trim (currentUserTextRef w))
      then [{| speaker := "You"; text := trim (currentUserTextRef w) |}] else [])
  ++ (if nonEmpty (trim (currentInterviewerTextRef w))
      then [{| speaker := "Interviewer"; text := trim (currentInterviewerTextRef w) |}]
      else []).

(** Lines 306-321.  [transcript] and [language] are those of the render
    the handler was made in.  The summary is awaited; it is taken to settle
    before any other handler runs. *)
Definition handleStopConversation (generateContent : string -> Settled SummaryResponse)
  (w : World) : World :=
  let state := app w in
  let w := cleanupAudio w in
  let w := dispatch START_SUMMARIZING w in
  match generateInterviewSummary generateContent (finalTranscript (transcript state) w)
          (language state) with
  | Fulfilled result => dispatch (FINISH_INTERVIEW result) w
  | Rejected err =>
      let message :=
        match err with
        | VError message _ => message
        | _ => "Failed to generate summary."
        end in
      dispatch (SET_ERROR message) w
  end.

Section Commands.

Variable Samples : Type.
Variable calculateRMS : Samples -> Q.
Variable decodeAudioData : string -> AudioBuffer.

(** Everything that can happen to the component. *)
Inductive Command : Type :=
| Start (env : StartEnv)
| Welcome (welcomeAudioBase64 : string)
| Open (source processor : Handle)
| Live (e : Event Samples)
| SessionError (e : JsValue)
| Stop (generateContent : string -> Settled SummaryResponse)
| Reset.

Definition exec (w : World) (c : Command) : World :=
  match c with
  | Start env => handleStartConversation env w
  | Welcome welcomeAudioBase64 => onWelcomeAudio welcomeAudioBase64 w
  | Open source processor => stateOf (onopen source processor w)
  | Live e => step Samples calculateRMS decodeAudioData w e
  | SessionError e => onerror e w
  | Stop generateContent => handleStopConversation generateContent w
  | Reset => handleReset w
  end.

Definition execAll (w : World) (commands : list Command) : World :=
  fold_left exec commands w.

(** The states the component can be in: those some sequence of commands
    leads to from the first render. *)
Definition reachable (w : World) : Prop :=
  exists commands, w = execAll initialWorld commands.

End Commands.

Arguments Start {Samples} env.
Arguments Welcome {Samples} welcomeAudioBase64.
Arguments Open {Samples} source processor.
Arguments Live {Samples} e.
Arguments SessionError {Samples} e.
Arguments Stop {Samples} generateContent.
Arguments Reset {Samples}.

(** *** Notions the properties are stated with *)

Definition isSend (e : Effect) : bool :=
  match e with
  | SendRealtimeInput _ => true
  | _ => false
  end.

(** The number of blocks of audio handed to the session so far. *)
Definition sent (w : World) : nat := length (filter isSend (effects (browser w))).

(** A text of white space only (the empty one included). *)
Fixpoint blank (s : string) : bool :=
  match s with
  | EmptyString => true
  | String c s' => is_space c && blank s'
  end.

(** The source an entry of the log is about. *)
Definition sourceOf (e : Effect) : option Handle :=
  match e with
  | SourceStart source _ => Some source
  | SourceStop source => Some source
  | _ => None
  end.

(** The active set holds no source twice; each of its sources has been
    started and not stopped; and no source the log knows of, or the set
    holds, is one the browser has yet to hand out. *)
Definition tracked (w : World) : Prop :=
  NoDup (audioSources (playback w))
  /\ (forall source, In source (audioSources (playback w)) ->
        (exists when, In (SourceStart source when) (effects (browser w)))
        /\ ~ In (SourceStop source) (effects (browser w)))
  /\ (forall source, In source (audioSources (playback w)) ->
        (source < nextSourceId (browser w))%nat)
  /\ (forall e source, In e (effects (browser w)) -> sourceOf e = Some source ->
        (source < nextSourceId (browser w))%nat).

(** An entry as a finalized turn makes it. *)
Definition wellFormedEntry (entry : TranscriptEntry) : Prop :=
  (speaker entry = "You" \/ speaker entry = "Interviewer")
  /\ nonEmpty (text entry) = true.

(** The actions that may drop entries of the transcript. *)
Definition replacesTranscript (action : AppAction) : bool :=
  match action with
  | SET_STATE _ | START_CONNECTING _ _ | RESET => true
  | _ => false
  end.

Section Runs.

Variable Samples : Type.
Variable calculateRMS : Samples -> Q.

(** Time passes and blocks of samples arrive, none above the threshold. *)
Definition quietRun (events : list (Event Samples)) : Prop :=
  Forall (fun e => match e with
                   | AudioProcess x => calculateRMS x <= SILENCE_THRESHOLD
                   | Elapse _ => True
                   | _ => False
                   end) events.

(** Time passes and blocks of samples arrive, of any energy. *)
Definition captureOnly (events : list (Event Samples)) : Prop :=
  Forall (fun e => match e with
                   | AudioProcess _ | Elapse _ => True
                   | _ => False
                   end) events.

(** Nothing tears the conversation down. *)
Definition noCleanup (events : list (Event Samples)) : Prop :=
  Forall (fun e => match e with
                   | Cleanup => False
                   | _ => True
                   end) events.

(** The number of blocks of samples in a run. *)
Fixpoint blocks (events : list (Event Samples)) : nat :=
  match events with
  | [] => 0
  | AudioProcess _ :: rest => S (blocks rest)
  | _ :: rest => blocks rest
  end.

End Runs.

(** *** Cases to run the handlers on *)

(** Everything works: the key is set and the microphone is granted. *)
Definition granted : StartEnv :=
  {| apiKey := true; newOutputContext := 11%nat; newOutputGain := 12%nat;
     getUserMedia := Fulfilled 13%nat; newInputContext := 14%nat;
     newInputGain := 15%nat; connect := 16%nat |}.

(** The user refuses the microphone. *)
Definition denied : StartEnv :=
  {| apiKey := true; newOutputContext := 11%nat; newOutputGain := 12%nat;
     getUserMedia := Rejected (VError "Permission denied" [("name", VString "NotAllowedError")]);
     newInputContext := 14%nat; newInputGain := 15%nat; connect := 16%nat |}.

(** A model call that answers, and one that is refused for quota. *)
Definition answering (prompt : string) : Settled SummaryResponse :=
  Fulfilled {| responseText := "## Overall Summary" |}.

Definition overQuota (prompt : string) : Settled SummaryResponse :=
  Rejected (VError "429 Resource has been exhausted (e.g. check quota)." []).

End Lifecycle.

(** * Properties *)

(** ** Rounding to the nearest double *)

Section DoubleArithmetic.
Import Double.
Local Open Scope Q_scope.

Lemma pow2_pos (e : Z) : 0 < pow2 e.
Proof. apply Qpower_0_lt. reflexivity. Qed.

Lemma pow2_plus (a b : Z) : pow2 (a + b) == pow2 a * pow2 b.
Proof. apply Qpower_plus. discriminate. Qed.

Lemma pow2_le (a b : Z) : (a <= b)%Z -> pow2 a <= pow2 b.
Proof. intros H. apply Qpower_le_compat_l; [exact H | discriminate]. Qed.

Lemma pow2_lt_inv (a b : Z) : pow2 a < pow2 b -> (a < b)%Z.
Proof. intros H. apply (Qpower_lt_compat_l_inv 2); [exact H | reflexivity]. Qed.

Lemma pow2_inject (n : Z) : (0 <= n)%Z -> inject_Z (2 ^ n) == pow2 n.
Proof. intros H. apply (Zpower_Qpower 2 n H). Qed.

Lemma pow2_cancel (e : Z) : pow2 e * pow2 (- e) == 1.
Proof. rewrite <- pow2_plus, Z.add_opp_diag_r. reflexivity. Qed.

(** moving a power of two across an inequality *)
Lemma pow2_le_shift (x y : Q) (e : Z) : x * pow2 e <= y -> x <= y * pow2 (- e).
Proof.
  intros H.
  apply (Qmult_le_compat_r _ _ (pow2 (- e))) in H; [|apply Qlt_le_weak, pow2_pos].
  rewrite <- Qmult_assoc, pow2_cancel, Qmult_1_r in H. exact H.
Qed.

Lemma pow2_lt_shift (x y : Q) (e : Z) : x * pow2 e < y -> x < y * pow2 (- e).
Proof.
  intros H.
  apply (Qmult_lt_compat_r _ _ (pow2 (- e))) in H; [|apply pow2_pos].
  rewrite <- Qmult_assoc, pow2_cancel, Qmult_1_r in H. exact H.
Qed.

Lemma pow2_ge_shift (x y : Q) (e : Z) : y <= x * pow2 e -> y * pow2 (- e) <= x.
Proof.
  intros H.
  apply (Qmult_le_compat_r _ _ (pow2 (- e))) in H; [|apply Qlt_le_weak, pow2_pos].
  rewrite <- Qmult_assoc, pow2_cancel, Qmult_1_r in H. exact H.
Qed.

Lemma log2_bounds (q : Q) :
  0 < q ->
  let k := (Z.log2 (Qnum q) - Z.log2 (Zpos (Qden q)))%Z in
  pow2 (k - 1) <= q /\ q < pow2 (k + 1).
Proof.
  intros Hq k.
  destruct q as [a b]. cbn [Qnum Qden] in k.
  assert (Ha : (0 < a)%Z).
  { unfold Qlt in Hq. cbn in Hq. lia. }
  destruct (Z.log2_spec a Ha) as [Ha1 Ha2].
  destruct (Z.log2_spec (Zpos b) (Pos2Z.is_pos b)) as [Hb1 Hb2].
  pose proof (Z.log2_nonneg a) as Hla.
  pose proof (Z.log2_nonneg (Zpos b)) as Hlb.
  set (la := Z.log2 a) in *. set (lb := Z.log2 (Zpos b)) in *.
  assert (Hqb : (a # b) * inject_Z (Zpos b) == inject_Z a).
  { unfold Qeq, Qmult, inject_Z. cbn. lia. }
  assert (Hq0 : 0 <= a # b) by (apply Qlt_le_weak; exact Hq).
  split.
  - (* 2^la <= a = q * b <= q * 2^(lb+1) *)
    replace (k - 1)%Z with (la + - (lb + 1))%Z by (unfold k; lia).
    rewrite pow2_plus. apply pow2_ge_shift.
    rewrite <- pow2_inject by exact Hla.
    rewrite <- pow2_inject by lia.
    apply Qle_trans with (inject_Z a).
    + rewrite <- Zle_Qle. exact Ha1.
    + rewrite <- Hqb. rewrite (Qmult_comm (a # b)), (Qmult_comm (a # b)).
      apply Qmult_le_compat_r; [|exact Hq0].
      rewrite <- Zle_Qle. unfold Z.succ in Hb2. lia.
  - replace (k + 1)%Z with ((la + 1) + - lb)%Z by (unfold k; lia).
    rewrite pow2_plus. apply pow2_lt_shift.
    rewrite <- pow2_inject by exact Hlb.
    rewrite <- pow2_inject by lia.
    apply Qle_lt_trans with (inject_Z a).
    + rewrite <- Hqb. rewrite (Qmult_comm (a # b)), (Qmult_comm (a # b)).
      apply Qmult_le_compat_r; [|exact Hq0].
      rewrite <- Zle_Qle. exact Hb1.
    + rewrite <- Zlt_Qlt. unfold Z.succ in Ha2. lia.
Qed.

Lemma log2_spec (q : Q) : 0 < q -> pow2 (log2 q) <= q /\ q < pow2 (log2 q + 1).
Proof.
  intros Hq. destruct (log2_bounds q Hq) as [Hl Hu].
  unfold log2.
  destruct (Qle_bool _ q) eqn:E.
  - split; [apply Qle_bool_iff; exact E | exact Hu].
  - split; [exact Hl|].
    rewrite Z.sub_add.
    apply Qnot_le_lt. intros H. apply Qle_bool_iff in H. congruence.
Qed.

Lemma log2_unique (q : Q) (k : Z) : pow2 k <= q -> q < pow2 (k + 1) -> log2 q = k.
Proof.
  intros Hl Hu.
  assert (Hq : 0 < q) by (eapply Qlt_le_trans; [apply pow2_pos | exact Hl]).
  destruct (log2_spec q Hq) as [Hl' Hu'].
  assert (log2 q < k + 1)%Z by (apply pow2_lt_inv; eapply Qle_lt_trans; eassumption).
  assert (k < log2 q + 1)%Z by (apply pow2_lt_inv; eapply Qle_lt_trans; eassumption).
  lia.
Qed.

Lemma log2_le (x y : Q) : 0 < x -> x <= y -> (log2 x <= log2 y)%Z.
Proof.
  intros Hx Hxy.
  assert (Hy : 0 < y) by (eapply Qlt_le_trans; eassumption).
  destruct (log2_spec x Hx) as [Hl _]. destruct (log2_spec y Hy) as [_ Hu].
  assert (log2 x < log2 y + 1)%Z; [|lia].
  apply pow2_lt_inv. eapply Qle_lt_trans; [exact Hl|]. eapply Qle_lt_trans; eassumption.
Qed.

Lemma nearestEven_bounds (q : Q) :
  (Qfloor q <= nearestEven q <= Qfloor q + 1)%Z.
Proof.
  unfold nearestEven.
  destruct (Qcompare _ _); [destruct (Z.even _)| |]; lia.
Qed.

Lemma nearestEven_Z (z : Z) : nearestEven (inject_Z z) = z.
Proof.
  unfold nearestEven. rewrite Qfloor_Z.
  destruct (Qcompare_spec (inject_Z z - inject_Z z) (1 # 2)) as [H|H|H]; [lra|reflexivity|lra].
Qed.

Lemma nearestEven_le (x y : Q) : x <= y -> (nearestEven x <= nearestEven y)%Z.
Proof.
  intros Hxy.
  pose proof (Qfloor_resp_le x y Hxy) as Hf.
  pose proof (nearestEven_bounds x) as Hx.
  pose proof (nearestEven_bounds y) as Hy.
  destruct (Z.eq_dec (Qfloor x) (Qfloor y)) as [E|E]; [|lia].
  clear Hx Hy Hf. unfold nearestEven. rewrite E.
  destruct (Qcompare_spec (x - inject_Z (Qfloor y)) (1 # 2)) as [Hx|Hx|Hx];
    destruct (Qcompare_spec (y - inject_Z (Qfloor y)) (1 # 2)) as [Hy|Hy|Hy];
    try lra; try lia; destruct (Z.even _); lia.
Qed.

Lemma nearestEven_nonneg (q : Q) : 0 <= q -> (0 <= nearestEven q)%Z.
Proof. intros H. rewrite <- (nearestEven_Z 0). apply nearestEven_le. exact H. Qed.

Lemma exponent_ge (q : Q) : (log2 q - 52 <= exponent q)%Z /\ (-1074 <= exponent q)%Z.
Proof. unfold exponent. lia. Qed.

Lemma scaled_le (q : Q) : 0 < q -> q * pow2 (- exponent q) <= inject_Z (2 ^ 53).
Proof.
  intros Hq. destruct (log2_spec q Hq) as [_ Hu]. destruct (exponent_ge q) as [He _].
  rewrite pow2_inject by lia.
  apply pow2_ge_shift. rewrite <- pow2_plus.
  apply Qlt_le_weak. eapply Qlt_le_trans; [exact Hu|]. apply pow2_le. lia.
Qed.

Lemma scaled_ge (q : Q) :
  0 < q -> exponent q = (log2 q - 52)%Z -> inject_Z (2 ^ 52) <= q * pow2 (- exponent q).
Proof.
  intros Hq He. destruct (log2_spec q Hq) as [Hl _].
  rewrite pow2_inject by lia.
  apply pow2_le_shift. rewrite <- pow2_plus.
  eapply Qle_trans; [|exact Hl]. apply pow2_le. lia.
Qed.

Lemma mantissa_bounds (q : Q) :
  0 < q -> (0 <= nearestEven (q * pow2 (- exponent q)) <= 2 ^ 53)%Z.
Proof.
  intros Hq. split.
  - apply nearestEven_nonneg. apply Qmult_le_0_compat; apply Qlt_le_weak; [exact Hq | apply pow2_pos].
  - rewrite <- (nearestEven_Z (2 ^ 53)). apply nearestEven_le, scaled_le, Hq.
Qed.

Lemma roundPositive_nonneg (q : Q) : 0 < q -> 0 <= roundPositive q.
Proof.
  intros Hq. unfold roundPositive.
  apply Qmult_le_0_compat; [|apply Qlt_le_weak, pow2_pos].
  change 0 with (inject_Z 0). rewrite <- Zle_Qle. apply mantissa_bounds, Hq.
Qed.

Lemma roundPositive_upper (q : Q) : 0 < q -> roundPositive q <= pow2 (53 + exponent q).
Proof.
  intros Hq. unfold roundPositive. rewrite pow2_plus, <- (pow2_inject 53) by lia.
  apply Qmult_le_compat_r; [|apply Qlt_le_weak, pow2_pos].
  rewrite <- Zle_Qle. apply mantissa_bounds, Hq.
Qed.

Lemma roundPositive_lower (q : Q) :
  0 < q -> exponent q = (log2 q - 52)%Z -> pow2 (52 + exponent q) <= roundPositive q.
Proof.
  intros Hq He. unfold roundPositive. rewrite pow2_plus, <- (pow2_inject 52) by lia.
  apply Qmult_le_compat_r; [|apply Qlt_le_weak, pow2_pos].
  rewrite <- Zle_Qle. rewrite <- (nearestEven_Z (2 ^ 52)) at 1.
  apply nearestEven_le, scaled_ge; assumption.
Qed.

Lemma roundPositive_le (x y : Q) : 0 < x -> x <= y -> roundPositive x <= roundPositive y.
Proof.
  intros Hx Hxy.
  assert (Hy : 0 < y) by (eapply Qlt_le_trans; eassumption).
  pose proof (log2_le x y Hx Hxy) as Hl.
  destruct (Z.eq_dec (exponent x) (exponent y)) as [E|E].
  - unfold roundPositive. rewrite E.
    apply Qmult_le_compat_r; [|apply Qlt_le_weak, pow2_pos].
    rewrite <- Zle_Qle. apply nearestEven_le.
    apply Qmult_le_compat_r; [exact Hxy | apply Qlt_le_weak, pow2_pos].
  - assert (Hlt : (exponent x < exponent y)%Z) by (unfold exponent in *; lia).
    assert (He : exponent y = (log2 y - 52)%Z) by (unfold exponent in *; lia).
    eapply Qle_trans; [apply roundPositive_upper, Hx|].
    eapply Qle_trans; [|apply roundPositive_lower; assumption].
    apply pow2_le. lia.
Qed.

Lemma round_nonneg (q : Q) : 0 <= q -> 0 <= round q.
Proof.
  intros Hq. unfold round.
  destruct (Qcompare_spec q 0) as [H|H|H]; [lra|lra|apply roundPositive_nonneg, H].
Qed.

Lemma round_le (x y : Q) : x <= y -> round x <= round y.
Proof.
  intros Hxy. unfold round.
  destruct (Qcompare_spec x 0) as [Hx|Hx|Hx]; destruct (Qcompare_spec y 0) as [Hy|Hy|Hy];
    try lra.
  - apply roundPositive_nonneg, Hy.
  - assert (H := roundPositive_nonneg (- x)). lra.
  - assert (H := roundPositive_le (- y) (- x)). lra.
  - assert (H := roundPositive_nonneg (- x)). assert (H' := roundPositive_nonneg y). lra.
  - apply roundPositive_le; assumption.
Qed.

Lemma round_eq (x y : Q) : x == y -> round x == round y.
Proof.
  intros H. apply Qle_antisym; apply round_le; rewrite H; apply Qle_refl.
Qed.

Lemma nearestEven_eq (q : Q) (z : Z) : q == inject_Z z -> nearestEven q = z.
Proof.
  intros H.
  assert (nearestEven q <= nearestEven (inject_Z z))%Z
    by (apply nearestEven_le; rewrite H; apply Qle_refl).
  assert (nearestEven (inject_Z z) <= nearestEven q)%Z
    by (apply nearestEven_le; rewrite H; apply Qle_refl).
  rewrite nearestEven_Z in *. lia.
Qed.

(** a value with a 53-bit mantissa and an exponent in range is left alone *)
Lemma roundPositive_exact (d : Q) (m e : Z) :
  (0 < m <= 2 ^ 53)%Z -> (-1074 <= e)%Z -> d == inject_Z m * pow2 e ->
  roundPositive d == d.
Proof.
  intros Hm He Hd.
  destruct (Z.log2_spec m (proj1 Hm)) as [Hm1 Hm2].
  pose proof (Z.log2_nonneg m) as Hlm.
  set (lm := Z.log2 m) in *.
  assert (Hl : log2 d = (lm + e)%Z).
  { apply log2_unique; rewrite Hd.
    - rewrite pow2_plus, <- (pow2_inject lm) by exact Hlm.
      apply Qmult_le_compat_r; [|apply Qlt_le_weak, pow2_pos].
      rewrite <- Zle_Qle. exact Hm1.
    - replace (lm + e + 1)%Z with ((lm + 1) + e)%Z by lia.
      rewrite pow2_plus, <- (pow2_inject (lm + 1)) by lia.
      apply Qmult_lt_compat_r; [apply pow2_pos|].
      rewrite <- Zlt_Qlt. exact Hm2. }
  assert (Hlm53 : (lm <= 53)%Z).
  { destruct (Z_le_gt_dec lm 53) as [H|H]; [exact H|].
    assert (2 ^ 54 <= 2 ^ lm)%Z by (apply Z.pow_le_mono_r; lia). lia. }
  unfold roundPositive, exponent. rewrite Hl.
  destruct (Z_le_gt_dec lm 52) as [Hn|Hn].
  - set (e' := Z.max (lm + e - 52) (-1074)).
    assert (He' : (e' <= e)%Z) by (unfold e'; lia).
    assert (Hs : d * pow2 (- e') == inject_Z (m * 2 ^ (e - e'))).
    { rewrite Hd, inject_Z_mult, pow2_inject by lia.
      rewrite <- Qmult_assoc, <- pow2_plus. reflexivity. }
    rewrite (nearestEven_eq _ _ Hs), Hd.
    rewrite inject_Z_mult, pow2_inject by lia.
    rewrite <- Qmult_assoc, <- pow2_plus.
    replace (e - e' + e')%Z with e by lia. reflexivity.
  - assert (lm = 53)%Z by lia.
    assert (Hm53 : m = (2 ^ 53)%Z).
    { assert (2 ^ 53 <= m)%Z by (subst lm; rewrite <- H; exact Hm1). lia. }
    replace (Z.max (lm + e - 52) (-1074)) with (e + 1)%Z by lia.
    assert (Hs : d * pow2 (- (e + 1)) == inject_Z (2 ^ 52)).
    { rewrite Hd, Hm53, !pow2_inject by lia.
      rewrite <- !pow2_plus. replace (53 + e + - (e + 1))%Z with 52%Z by lia. reflexivity. }
    rewrite (nearestEven_eq _ _ Hs), Hd, Hm53, !pow2_inject by lia.
    rewrite <- !pow2_plus. replace (52 + (e + 1))%Z with (53 + e)%Z by lia. reflexivity.
Qed.

Lemma round_representable (q : Q) : representable (round q).
Proof.
  unfold representable.
  assert (Hpos : forall p, 0 < p -> round (roundPositive p) == roundPositive p).
  { intros p Hp. pose proof (mantissa_bounds p Hp) as Hm.
    destruct (exponent_ge p) as [_ He].
    destruct (Z.eq_dec (nearestEven (p * pow2 (- exponent p))) 0) as [E|E].
    - assert (H0 : roundPositive p == 0) by (unfold roundPositive; rewrite E; ring).
      rewrite (round_eq _ _ H0), H0. reflexivity.
    - assert (Hgt : 0 < roundPositive p).
      { unfold roundPositive. apply Qmult_lt_0_compat; [|apply pow2_pos].
        change 0 with (inject_Z 0). rewrite <- Zlt_Qlt. lia. }
      unfold round at 1.
      destruct (Qcompare_spec (roundPositive p) 0) as [H|H|H]; [lra|lra|].
      eapply roundPositive_exact; [|exact He|reflexivity]. lia. }
  assert (Hopp : forall p, round (- p) == - round p).
  { intros p. unfold round.
    destruct (Qcompare_spec p 0) as [H|H|H]; destruct (Qcompare_spec (- p) 0) as [H'|H'|H'];
      try lra.
    replace (- - p) with p; [reflexivity|].
    destruct p as [a b]. unfold Qopp. cbn. rewrite Z.opp_involutive. reflexivity. }
  unfold round at 2 3.
  destruct (Qcompare_spec q 0) as [H|H|H].
  - reflexivity.
  - rewrite Hopp, Hpos; [reflexivity | lra].
  - apply Hpos, H.
Qed.

Lemma add_nonneg (x y : Q) : 0 <= x + y -> 0 <= add x y.
Proof. apply round_nonneg. Qed.

(** adding a non-negative double to a double never goes below it *)
Lemma add_ge (x y : Q) : representable x -> 0 <= y -> x <= add x y.
Proof.
  intros Hx Hy. unfold representable in Hx. unfold add.
  eapply Qle_trans; [|apply (round_le x); lra]. rewrite Hx. apply Qle_refl.
Qed.

Lemma add_le (x x' y : Q) : x <= x' -> add x y <= add x' y.
Proof. intros H. apply round_le. lra. Qed.

Lemma nearestEven_error (q : Q) :
  q - (1 # 2) <= inject_Z (nearestEven q) /\ inject_Z (nearestEven q) <= q + (1 # 2).
Proof.
  pose proof (Qfloor_le q) as Hl. pose proof (Qlt_floor q) as Hu.
  rewrite inject_Z_plus in Hu. change (inject_Z 1) with 1 in Hu.
  unfold nearestEven.
  destruct (Qcompare_spec (q - inject_Z (Qfloor q)) (1 # 2)) as [H|H|H];
    [destruct (Z.even _)| |]; rewrite ?inject_Z_plus; change (inject_Z 1) with 1;
    split; lra.
Qed.

Lemma roundPositive_error (q : Q) :
  q - pow2 (exponent q - 1) <= roundPositive q /\ roundPositive q <= q + pow2 (exponent q - 1).
Proof.
  destruct (nearestEven_error (q * pow2 (- exponent q))) as [Hl Hu].
  pose proof (pow2_pos (exponent q)) as Hp.
  assert (Hh : pow2 (exponent q - 1) == (1 # 2) * pow2 (exponent q)).
  { replace (exponent q - 1)%Z with (-1 + exponent q)%Z by lia. rewrite pow2_plus. reflexivity. }
  assert (Hq : q == q * pow2 (- exponent q) * pow2 (exponent q)).
  { rewrite <- Qmult_assoc, (Qmult_comm (pow2 (- _))), pow2_cancel. ring. }
  unfold roundPositive. rewrite Hh.
  set (n := q * pow2 (- exponent q)) in *.
  set (P := pow2 (exponent q)) in *.
  set (m := inject_Z (nearestEven n)) in *.
  apply (Qmult_le_compat_r _ _ P) in Hl; [|lra].
  apply (Qmult_le_compat_r _ _ P) in Hu; [|lra].
  split.
  - eapply Qle_trans; [|exact Hl]. rewrite Hq. ring_simplify. apply Qle_refl.
  - eapply Qle_trans; [exact Hu|]. rewrite Hq. ring_simplify. apply Qle_refl.
Qed.

(** In the normal range a double is within [2^-53] of what it rounds. *)
Lemma round_error (q : Q) :
  pow2 (-1022) <= q ->
  q * (1 - pow2 (-53)) <= round q /\ round q <= q * (1 + pow2 (-53)).
Proof.
  intros Hn.
  assert (Hq : 0 < q) by (eapply Qlt_le_trans; [apply pow2_pos | exact Hn]).
  destruct (log2_spec q Hq) as [Hl Hu].
  assert (He : exponent q = (log2 q - 52)%Z).
  { assert (-1022 < log2 q + 1)%Z; [|unfold exponent; lia].
    apply pow2_lt_inv. eapply Qle_lt_trans; eassumption. }
  destruct (roundPositive_error q) as [Rl Ru].
  assert (Hh : pow2 (exponent q - 1) <= q * pow2 (-53)).
  { rewrite He. replace (log2 q - 52 - 1)%Z with (log2 q + -53)%Z by lia.
    rewrite pow2_plus. apply Qmult_le_compat_r; [exact Hl | apply Qlt_le_weak, pow2_pos]. }
  unfold round. destruct (Qcompare_spec q 0) as [H|H|H]; [lra|lra|].
  split; lra.
Qed.

(** What JavaScript prints [0.30000000000000004] for; a tie that goes to
    the even mantissa, and one that goes up to it; the same among the
    subnormal numbers. *)
Example tenth_plus_two_tenths :
  add (round (1 # 10)) (round (2 # 10)) == 1351079888211149 # 4503599627370496
  /\ ~ add (round (1 # 10)) (round (2 # 10)) == round (3 # 10).
Proof. split; vm_compute; [reflexivity|discriminate]. Qed.

Example ties_to_even :
  round (inject_Z (2 ^ 53 + 1)) == inject_Z (2 ^ 53)
  /\ round (inject_Z (2 ^ 53 + 3)) == inject_Z (2 ^ 53 + 4)
  /\ round (pow2 (-1075)) == 0
  /\ round (3 * pow2 (-1075)) == pow2 (-1073).
Proof. repeat split; vm_compute; reflexivity. Qed.

End DoubleArithmetic.

(** ** The error classifier *)

Section ErrorClassifier.
Import JsString ErrorUtil.

Example invalid_key_start :
  getApiErrorMessage (VError "API key not valid. Please pass a valid API key." []) "start"
  = sentence InvalidCredential.
Proof. reflexivity. Qed.

Example wrapped_quota_summary :
  getApiErrorMessage (VObject [("error", VObject [("message", VString "Quota exceeded")])])
    "summary"
  = sentence QuotaRateLimit.
Proof. reflexivity. Qed.

(** "403" and "quota" both occur: permission denied comes first. *)
Example priority_403_over_quota :
  getApiErrorMessage (VString "403: quota exceeded") "start" = sentence PermissionDenied.
Proof. reflexivity. Qed.

Example fallback_start :
  getApiErrorMessage (VString "boom") "start" = "Could not start the interview: boom.".
Proof. reflexivity. Qed.

Example fallback_summary :
  getApiErrorMessage (VObject [("message", VString "boom")]) "summary"
  = "An API error occurred while generating the summary: boom".
Proof. reflexivity. Qed.

Example unknown_for_undefined :
  getApiErrorMessage VUndefined "start" = "An unknown error occurred.".
Proof. reflexivity. Qed.

(** The wrapped value has no message: the message of the wrapper is used. *)
Example wrapper_message_used :
  getApiErrorMessage (VObject [("error", VNumber 7); ("message", VString "Failed to fetch")])
    "start"
  = sentence NetworkError.
Proof. reflexivity. Qed.

Example empty_message_start :
  getApiErrorMessage (VError "" []) "start" = "Could not start the interview: .".
Proof. reflexivity. Qed.

Lemma unknownError_unclassified : classify (toLowerCase unknownError) = None.
Proof. reflexivity. Qed.

Lemma extractMessage_not_found (error : JsValue) :
  messageFound error = false -> extractMessage error = unknownError.
Proof.
  unfold messageFound, extractMessage.
  destruct (inspected error) as [| | b | n | s | props | m props]; try discriminate;
    cbn [get]; intros H;
    try (destruct (lookup "message" props); cbn in H; try discriminate H);
    destruct (get error "message"); cbn in H; try discriminate H; reflexivity.
Qed.

(** The cascade of tests is the first match in the table of categories;
    what is left when none matches is the message of the context. *)
Lemma getApiErrorMessage_classify (error : JsValue) (context : string) :
  getApiErrorMessage error context =
    match classify (toLowerCase (extractMessage error)) with
    | Some c => sentence c
    | None =>
        if String.eqb (extractMessage error) unknownError then unknownError
        else contextualized context (extractMessage error)
    end.
Proof.
  unfold getApiErrorMessage, describe, classify, contextualized.
  cbn [find priority matches patterns existsb sentence].
  set (m := extractMessage error).
  set (l := toLowerCase m).
  repeat rewrite orb_false_r.
  repeat match goal with
         | |- context [includes l ?p] => destruct (includes l p); cbn [orb]; try reflexivity
         end.
  destruct (String.eqb m unknownError) eqn:E.
  - apply String.eqb_eq in E. rewrite E. repeat destruct (String.eqb context _); reflexivity.
  - repeat destruct (String.eqb context _); reflexivity.
Qed.

Lemma find_first {A : Type} (f : A -> bool) (l : list A) (x : A) :
  find f l = Some x ->
  f x = true /\ exists pre post, l = (pre ++ x :: post)%list /\ forallb (fun y => negb (f y)) pre = true.
Proof.
  induction l as [|a l IH]; cbn; [discriminate|].
  destruct (f a) eqn:Fa.
  - intros [= ->]. split; [exact Fa|]. exists [], l. split; reflexivity.
  - intros H. destruct (IH H) as [Fx (pre & post & -> & Hpre)].
    split; [exact Fx|]. exists (a :: pre), post. cbn. rewrite Fa, Hpre. split; reflexivity.
Qed.

Lemma priority_complete (c : Category) : In c priority.
Proof. destruct c; cbn; tauto. Qed.

Lemma sentence_nonEmpty (c : Category) : nonEmpty (sentence c) = true.
Proof. destruct c; reflexivity. Qed.

(** C8, as the code has it.  For every raw error and context tag the
    classifier answers with the sentence of the first category, in the
    order invalid credential, permission denied, quota or rate limit,
    safety block, server error, network error, one of whose substrings
    occurs in the lower-cased extracted message.  If no category matches,
    the answer is the message of the context built around the extracted
    message, unless that message is exactly "An unknown error occurred.",
    which is then returned as it is. *)
Theorem classifier_first_match_else_context (error : JsValue) (context : string) :
  let lower := toLowerCase (extractMessage error) in
  match classify lower with
  | Some c =>
      getApiErrorMessage error context = sentence c
      /\ matches lower c = true
      /\ exists earlier later,
           priority = (earlier ++ c :: later)%list
           /\ forallb (fun c' => negb (matches lower c')) earlier = true
  | None =>
      (forall c, matches lower c = false)
      /\ getApiErrorMessage error context =
           if String.eqb (extractMessage error) unknownError then unknownError
           else contextualized context (extractMessage error)
  end.
Proof.
  intros lower. pose proof (getApiErrorMessage_classify error context) as E.
  fold lower in E. destruct (classify lower) as [c|] eqn:C.
  - destruct (find_first _ _ _ C) as [M S]. auto.
  - split; [|exact E]. intros c.
    exact (find_none _ _ C c (priority_complete c)).
Qed.

(** C8, as the specification words it, fails where nothing matches and the
    message is the unknown one: for [null] no category matches, yet the
    answer is not the message of the context, and it is the same for both
    tags. *)
Lemma classifier_unknown_not_contextualized :
  classify (toLowerCase (extractMessage VNull)) = None
  /\ getApiErrorMessage VNull "start" <> contextualized "start" (extractMessage VNull)
  /\ getApiErrorMessage VNull "summary" <> contextualized "summary" (extractMessage VNull)
  /\ getApiErrorMessage VNull "start" = getApiErrorMessage VNull "summary".
Proof.
  split; [reflexivity|]. split; [|split]; [vm_compute; discriminate ..|reflexivity].
Qed.

Lemma getApiErrorMessage_total (error : JsValue) (context : string) :
  nonEmpty (getApiErrorMessage error context) = true
  /\ (messageFound error = false -> getApiErrorMessage error context = unknownError).
Proof.
  split.
  - rewrite getApiErrorMessage_classify.
    destruct (classify _); [apply sentence_nonEmpty|].
    destruct (String.eqb _ unknownError); [reflexivity|].
    unfold contextualized. repeat destruct (String.eqb context _); reflexivity.
  - intros H. rewrite getApiErrorMessage_classify, (extractMessage_not_found _ H).
    rewrite unknownError_unclassified. reflexivity.
Qed.

(** Lines 22-55 never answer with the empty string, and leave the unknown
    message as it is. *)
Lemma describe_nonEmpty (errorMessage context : string) :
  nonEmpty (describe errorMessage context) = true.
Proof. exact (proj1 (getApiErrorMessage_total (VString errorMessage) context)). Qed.

Lemma describe_unknown (context : string) : describe unknownError context = unknownError.
Proof. exact (proj2 (getApiErrorMessage_total VNull context) eq_refl). Qed.

(** The two readings of the values agree on those of the first. *)
Lemma typed_lookup (key : string) (props : list (string * JsValue)) :
  lookupAny key (map (fun kv => (fst kv, typed (snd kv))) props) = typed (lookup key props).
Proof.
  induction props as [|[k v] props IH]; cbn; [reflexivity|].
  destruct (String.eqb k key); [reflexivity|exact IH].
Qed.

Lemma typed_get (v : JsValue) (key : string) : getAny (typed v) key = typed (get v key).
Proof.
  destruct v as [| | b | n | s | props | m props]; cbn; try reflexivity.
  - apply typed_lookup.
  - destruct (String.eqb key "message"); [reflexivity|apply typed_lookup].
Qed.

Lemma typed_truthy (v : JsValue) : truthyAny (typed v) = truthy v.
Proof. destruct v; reflexivity. Qed.

Lemma typed_inspected (error : JsValue) : inspectedAny (typed error) = typed (inspected error).
Proof.
  unfold inspectedAny, inspected. rewrite typed_get, typed_truthy.
  destruct (truthy _); reflexivity.
Qed.

Lemma typed_extract (error : JsValue) : extractAny (typed error) = AString (extractMessage error).
Proof.
  unfold extractAny, extractMessage. rewrite typed_inspected.
  destruct (inspected error) as [| | b | n | s | props | m props]; try reflexivity;
    rewrite !typed_get;
    (destruct (get _ "message"); try reflexivity;
     destruct (get error "message"); reflexivity).
Qed.

(** On a value whose instances of [Error] carry a string, the call returns
    what [getApiErrorMessage] gives. *)
Lemma typed_getApiErrorMessage (error : JsValue) (context : string) :
  getApiErrorMessageAny (typed error) context = Returns (getApiErrorMessage error context).
Proof. unfold getApiErrorMessageAny. rewrite typed_extract. reflexivity. Qed.

Lemma extractAny_not_found (error : AnyValue) :
  messageFoundAny error = false -> extractAny error = AString unknownError.
Proof.
  unfold messageFoundAny, extractAny.
  destruct (inspectedAny error) as [| | b | n | s | props | m props]; try discriminate;
    intros H; apply orb_false_elim in H; destruct H as [H1 H2];
    destruct (getAny _ "message"); try discriminate H1;
    destruct (getAny error "message"); try discriminate H2; reflexivity.
Qed.

Lemma extractAny_string (error : AnyValue) :
  untypedMessage error = false -> exists errorMessage, extractAny error = AString errorMessage.
Proof.
  unfold untypedMessage, extractAny.
  destruct (inspectedAny error) as [| | b | n | s | props | m props]; intros H;
    try (destruct m; try discriminate H; eexists; reflexivity);
    try (eexists; reflexivity);
    (destruct (getAny _ "message"); try (eexists; reflexivity);
     destruct (getAny error "message"); eexists; reflexivity).
Qed.




End ErrorClassifier.

(** ** The welcome audio *)

Section WelcomeAudio.
Import JsString ErrorUtil GeminiService.

Variable generateContent : WelcomeText -> Settled GenerateContentResponse.

Example welcomeText_known : welcomeText "German" = Sentence "German".
Proof. reflexivity. Qed.

Example welcomeText_fallback : welcomeText "Klingon" = Sentence "English".
Proof. reflexivity. Qed.

(** C9.  For every language the welcome audio settles without rejecting,
    to the audio of the response or to the empty string: to the empty
    string when the model call fails and when the response carries no audio
    data, to the data otherwise. *)
Theorem welcome_audio_best_effort (language : string) :
  (exists audio, generateWelcomeAudio generateContent language = Fulfilled audio)
  /\ (forall reason,
        generateContent (welcomeText language) = Rejected reason ->
        generateWelcomeAudio generateContent language = Fulfilled "")
  /\ (forall response,
        generateContent (welcomeText language) = Fulfilled response ->
        audioOf response = None \/ audioOf response = Some "" ->
        generateWelcomeAudio generateContent language = Fulfilled "")
  /\ (forall response base64Audio,
        generateContent (welcomeText language) = Fulfilled response ->
        audioOf response = Some base64Audio ->
        generateWelcomeAudio generateContent language = Fulfilled base64Audio).
Proof.
  unfold generateWelcomeAudio, tryCatch.
  destruct (generateContent (welcomeText language)) as [response|reason].
  - destruct (audioOf response) as [[|c b]|] eqn:A; cbn.
    + split; [eexists; reflexivity|]. split; [discriminate|].
      split; [reflexivity|]. intros r b [= <-]. rewrite A. intros [= <-]. reflexivity.
    + split; [eexists; reflexivity|]. split; [discriminate|].
      split.
      * intros r [= <-]. rewrite A. intros [H|H]; discriminate H.
      * intros r b' [= <-]. rewrite A. intros [= <-]. reflexivity.
    + split; [eexists; reflexivity|]. split; [discriminate|].
      split; [reflexivity|]. intros r b [= <-]. rewrite A. discriminate.
  - split; [eexists; reflexivity|]. split; [reflexivity|].
    split; discriminate.
Qed.

End WelcomeAudio.

Lemma welcome_audio_best_effort_witness :
  GeminiService.generateWelcomeAudio
    (fun _ => GeminiService.Rejected (ErrorUtil.VString "503 service unavailable")) "French"
  = GeminiService.Fulfilled "".
Proof.
  apply (proj1 (proj2 (welcome_audio_best_effort
    (fun _ => GeminiService.Rejected (ErrorUtil.VString "503 service unavailable")) "French"))
    (ErrorUtil.VString "503 service unavailable")).
  reflexivity.
Defined.

(** ** The live session *)

Section LiveSession.
Import JsString App.
Local Open Scope list_scope.

Variable Samples : Type.
Variable calculateRMS : Samples -> Q.
Variable decodeAudioData : string -> AudioBuffer.

Abbreviation onaudioprocess := (onaudioprocess Samples calculateRMS).
Abbreviation onmessage := (onmessage decodeAudioData).
Abbreviation playChunk := (playChunk decodeAudioData).
Abbreviation step := (step Samples calculateRMS decodeAudioData).
Abbreviation run := (run Samples calculateRMS decodeAudioData).
Abbreviation suspensions := (suspensions Samples calculateRMS decodeAudioData).
Abbreviation allAbove := (allAbove Samples calculateRMS).
Abbreviation silence := (silence Samples calculateRMS).
Abbreviation chunkDuration := (chunkDuration decodeAudioData).
Abbreviation totalDuration := (totalDuration decodeAudioData).
Abbreviation accumulated := (accumulated decodeAudioData).
Abbreviation messages := (messages Samples).
Abbreviation elapsed := (elapsed Samples).

(** *** What each piece leaves alone *)

Lemma stopAll_frame (sources : list Handle) (w : World) :
  app (stopAll sources w) = app w
  /\ handles (stopAll sources w) = handles w
  /\ segmenter (stopAll sources w) = segmenter w
  /\ playback (stopAll sources w) = playback w
  /\ currentInterviewerTextRef (stopAll sources w) = currentInterviewerTextRef w
  /\ currentUserTextRef (stopAll sources w) = currentUserTextRef w
  /\ timers (browser (stopAll sources w)) = timers (browser w)
  /\ nextTimerId (browser (stopAll sources w)) = nextTimerId (browser w)
  /\ nextSourceId (browser (stopAll sources w)) = nextSourceId (browser w)
  /\ effects (browser (stopAll sources w)) = effects (browser w) ++ map SourceStop sources.
Proof.
  revert w. induction sources as [|s sources IH]; intros w; cbn.
  - rewrite app_nil_r. repeat split.
  - destruct (IH (call (SourceStop s) w)) as (A & H & S & P & I & U & T & N & C & E).
    unfold stopAll in *. rewrite A, H, S, P, I, U, T, N, C, E. cbn.
    rewrite <- app_assoc. repeat split.
Qed.

Lemma clearSources_playback (w : World) :
  playback (clearSources w) = {| audioSources := []; nextStartTime := 0 |}.
Proof. reflexivity. Qed.

Lemma clearSources_frame (w : World) :
  app (clearSources w) = app w
  /\ handles (clearSources w) = handles w
  /\ segmenter (clearSources w) = segmenter w
  /\ currentInterviewerTextRef (clearSources w) = currentInterviewerTextRef w
  /\ currentUserTextRef (clearSources w) = currentUserTextRef w
  /\ timers (browser (clearSources w)) = timers (browser w)
  /\ nextTimerId (browser (clearSources w)) = nextTimerId (browser w)
  /\ effects (browser (clearSources w))
     = effects (browser w) ++ map SourceStop (audioSources (playback w)).
Proof.
  destruct (stopAll_frame (audioSources (playback w)) w) as (A & H & S & P & I & U & T & N & C & E).
  unfold clearSources. cbn. rewrite A, H, S, I, U, T, N, E. repeat split.
Qed.

Lemma callOn_frame (ref : option Handle) (e : Handle -> Effect) (w : World) :
  app (callOn ref e w) = app w
  /\ handles (callOn ref e w) = handles w
  /\ segmenter (callOn ref e w) = segmenter w
  /\ playback (callOn ref e w) = playback w
  /\ currentInterviewerTextRef (callOn ref e w) = currentInterviewerTextRef w
  /\ currentUserTextRef (callOn ref e w) = currentUserTextRef w
  /\ timers (browser (callOn ref e w)) = timers (browser w)
  /\ nextTimerId (browser (callOn ref e w)) = nextTimerId (browser w).
Proof. destruct ref; cbn; repeat split. Qed.

Lemma cancelSilenceTimer_frame (w : World) :
  app (cancelSilenceTimer w) = app w
  /\ handles (cancelSilenceTimer w) = handles w
  /\ playback (cancelSilenceTimer w) = playback w
  /\ currentInterviewerTextRef (cancelSilenceTimer w) = currentInterviewerTextRef w
  /\ currentUserTextRef (cancelSilenceTimer w) = currentUserTextRef w
  /\ hasSpokenInTurnRef (segmenter (cancelSilenceTimer w)) = hasSpokenInTurnRef (segmenter w)
  /\ isSilentRef (segmenter (cancelSilenceTimer w)) = isSilentRef (segmenter w)
  /\ silenceTimerRef (segmenter (cancelSilenceTimer w)) = None
  /\ nextTimerId (browser (cancelSilenceTimer w)) = nextTimerId (browser w).
Proof.
  unfold cancelSilenceTimer. destruct (silenceTimerRef (segmenter w)) eqn:R; cbn; repeat split.
  exact R.
Qed.

Lemma filter_owned (id : positive) (l : list (positive * N)) :
  (forall t, In t l -> Some id = Some (fst t)) ->
  filter (fun t => negb (Pos.eqb (fst t) id)) l = [].
Proof.
  induction l as [|t l IH]; intros H; cbn; [reflexivity|].
  assert (E : Some id = Some (fst t)) by (apply H; left; reflexivity).
  injection E as E. rewrite <- E, Pos.eqb_refl. cbn. apply IH.
  intros t' Ht'. apply H. right. exact Ht'.
Qed.

Lemma cancelSilenceTimer_timers (w : World) :
  (forall t, In t (timers (browser w)) -> silenceTimerRef (segmenter w) = Some (fst t)) ->
  timers (browser (cancelSilenceTimer w)) = [].
Proof.
  intros Own. unfold cancelSilenceTimer.
  destruct (silenceTimerRef (segmenter w)) as [id|] eqn:R; cbn.
  - apply filter_owned. intros t Ht. apply Own, Ht.
  - destruct (timers (browser w)) as [|t l] eqn:T; [reflexivity|].
    specialize (Own t (or_introl eq_refl)). discriminate Own.
Qed.

(** *** Teardown *)

Lemma cleanupAudio_fixed (w : World) :
  silenceTimerRef (segmenter w) = None ->
  handles w = noHandles ->
  playback w = {| audioSources := []; nextStartTime := 0 |} ->
  cleanupAudio w = w.
Proof.
  destruct w as [a h [r sp si] p it ut [tm nt ns ef]]. cbn.
  intros -> -> ->. reflexivity.
Qed.

Lemma cleanupAudio_result (w : World) :
  handles (cleanupAudio w) = noHandles
  /\ playback (cleanupAudio w) = {| audioSources := []; nextStartTime := 0 |}
  /\ silenceTimerRef (segmenter (cleanupAudio w)) = None.
Proof.
  split; [reflexivity|]. split; [reflexivity|].
  unfold cleanupAudio. cbn [segmenter withHandles].
  match goal with
  | |- silenceTimerRef (segmenter (clearSources ?x)) = _ =>
      destruct (clearSources_frame x) as (_ & _ & -> & _)
  end.
  repeat match goal with
         | |- silenceTimerRef (segmenter (callOn ?r ?e ?x)) = _ =>
             destruct (callOn_frame r e x) as (_ & _ & -> & _)
         end.
  destruct (cancelSilenceTimer_frame w) as (_ & _ & _ & _ & _ & _ & _ & R & _).
  destruct (sessionPromise (handles (cancelSilenceTimer w))); cbn; exact R.
Qed.

Lemma callOn_effects (ref : option Handle) (e : Handle -> Effect) (w : World) :
  effects (browser (callOn ref e w)) = effects (browser w) ++ owed ref e.
Proof. destruct ref; cbn; [reflexivity|]. rewrite app_nil_r. reflexivity. Qed.

(** The calls of a teardown are the ones that let go of what the refs
    hold, no more and no fewer, in the order of lines 277-293. *)
Lemma cleanupAudio_releases (w : World) :
  effects (browser (cleanupAudio w)) = effects (browser w) ++ releases w.
Proof.
  destruct (cancelSilenceTimer_frame w) as (_ & Hh & Hp & _).
  assert (Hc : effects (browser (cancelSilenceTimer w))
               = effects (browser w) ++ owed (silenceTimerRef (segmenter w)) ClearTimeout).
  { unfold cancelSilenceTimer. destruct (silenceTimerRef (segmenter w)); cbn;
      [reflexivity|]. rewrite app_nil_r. reflexivity. }
  unfold cleanupAudio, releases. cbn [browser withHandles].
  set (c := cancelSilenceTimer w) in *. clearbody c. rewrite Hh.
  set (s := match sessionPromise (handles w) with
            | Some session => _
            | None => c
            end).
  assert (Hs : playback s = playback w
               /\ effects (browser s)
                  = effects (browser c) ++ owed (sessionPromise (handles w)) SessionClose).
  { unfold s. destruct (sessionPromise (handles w)); cbn; split;
      rewrite ?app_nil_r; auto. }
  clearbody s. destruct Hs as [Ps Es].
  destruct (clearSources_frame
              (callOn (outputAudioContext (handles w)) ContextClose
                 (callOn (inputAudioContext (handles w)) ContextClose
                    (callOn (userMediaStream (handles w)) TracksStop
                       (callOn (outputGainNode (handles w)) Disconnect
                          (callOn (inputGainNode (handles w)) Disconnect
                             (callOn (mediaStreamSource (handles w)) Disconnect
                                (callOn (scriptProcessorNode (handles w)) Disconnect s))))))))
    as (_ & _ & _ & _ & _ & _ & _ & E).
  rewrite E. clear E.
  repeat match goal with
         | |- context [playback (callOn ?r ?e ?x)] =>
             destruct (callOn_frame r e x) as (_ & _ & _ & -> & _)
         end.
  rewrite !callOn_effects, Es, Hc, Ps. rewrite <- !app_assoc. reflexivity.
Qed.

Lemma releases_none (w : World) :
  silenceTimerRef (segmenter w) = None ->
  handles w = noHandles ->
  audioSources (playback w) = [] ->
  releases w = [].
Proof. intros R H P. unfold releases. rewrite R, H, P. reflexivity. Qed.

Lemma clearTimeout_gone (id : positive) (w : World) :
  ~ In id (map fst (timers (browser (clearTimeout id w)))).
Proof.
  cbn. intros H. apply in_map_iff in H. destruct H as (t & E & I).
  apply filter_In in I. destruct I as [_ I]. rewrite E, Pos.eqb_refl in I. discriminate I.
Qed.

(** The timeout of the id [silenceTimerRef] held waits no more. *)
Lemma cleanupAudio_timer (w : World) (id : positive) :
  silenceTimerRef (segmenter w) = Some id ->
  ~ In id (map fst (timers (browser (cleanupAudio w)))).
Proof.
  intros R. unfold cleanupAudio. cbn [browser withHandles].
  match goal with
  | |- ~ In _ (map fst (timers (browser (clearSources ?x)))) =>
      destruct (clearSources_frame x) as (_ & _ & _ & _ & _ & -> & _)
  end.
  repeat match goal with
         | |- ~ In _ (map fst (timers (browser (callOn ?r ?e ?x)))) =>
             destruct (callOn_frame r e x) as (_ & _ & _ & _ & _ & _ & -> & _)
         end.
  assert (T : ~ In id (map fst (timers (browser (cancelSilenceTimer w))))).
  { unfold cancelSilenceTimer. rewrite R. apply (clearTimeout_gone id w). }
  destruct (sessionPromise (handles (cancelSilenceTimer w))); exact T.
Qed.

(** What a teardown comes to: every call owed is made, nothing is owed
    after it, and the timeout of a held id waits no more. *)
Lemma cleanupAudio_complete (w : World) :
  effects (browser (cleanupAudio w)) = effects (browser w) ++ releases w
  /\ releases (cleanupAudio w) = []
  /\ (forall id, silenceTimerRef (segmenter w) = Some id ->
        ~ In id (map fst (timers (browser (cleanupAudio w))))).
Proof.
  split; [apply cleanupAudio_releases|]. split.
  - destruct (cleanupAudio_result w) as (H & P & R).
    apply releases_none; [exact R|exact H|rewrite P; reflexivity].
  - intros id R. apply cleanupAudio_timer, R.
Qed.

Lemma releases_stops (w : World) (source : Handle) :
  In (SourceStop source) (releases w) <-> In source (audioSources (playback w)).
Proof.
  unfold releases. rewrite !in_app_iff. split.
  - intros H.
    repeat match type of H with
           | _ \/ _ => destruct H as [H|H]
           end;
      try match type of H with
          | In _ (owed ?r _) =>
              destruct r; cbn in H; [destruct H as [H|[]]; discriminate H|contradiction]
          end.
    apply in_map_iff in H. destruct H as (s & [= ->] & H). exact H.
  - intros H. do 9 right. apply in_map, H.
Qed.

Example cleanupAudio_never_started : cleanupAudio initialWorld = initialWorld.
Proof. reflexivity. Qed.

(** *** The message handler, piece by piece *)

Lemma append_empty (s : string) : (s ++ "")%string = s.
Proof. induction s as [|c s IH]; cbn; [reflexivity|]. rewrite IH. reflexivity. Qed.

Lemma playChunk_frame (currentTime : Q) (message : LiveServerMessage) (w : World) :
  app (playChunk currentTime message w) = app w
  /\ handles (playChunk currentTime message w) = handles w
  /\ segmenter (playChunk currentTime message w) = segmenter w
  /\ currentInterviewerTextRef (playChunk currentTime message w) = currentInterviewerTextRef w
  /\ currentUserTextRef (playChunk currentTime message w) = currentUserTextRef w
  /\ timers (browser (playChunk currentTime message w)) = timers (browser w)
  /\ nextTimerId (browser (playChunk currentTime message w)) = nextTimerId (browser w)
  /\ incl (audioSources (playback w)) (audioSources (playback (playChunk currentTime message w))).
Proof.
  unfold App.playChunk.
  destruct (base64AudioOf message) as [b|]; [|repeat split; apply incl_refl].
  destruct (outputAudioContext (handles w)); [|repeat split; apply incl_refl].
  destruct (outputGainNode (handles w)); [|repeat split; apply incl_refl].
  destruct (nonEmpty b); [|repeat split; apply incl_refl].
  cbn. unfold addSource. cbn.
  destruct (existsb _ _); cbn; repeat split; try apply incl_refl.
  apply incl_appl, incl_refl.
Qed.

Lemma onInterrupted_frame (message : LiveServerMessage) (w : World) :
  app (onInterrupted message w) = app w
  /\ handles (onInterrupted message w) = handles w
  /\ segmenter (onInterrupted message w) = segmenter w
  /\ currentInterviewerTextRef (onInterrupted message w) = currentInterviewerTextRef w
  /\ currentUserTextRef (onInterrupted message w) = currentUserTextRef w
  /\ timers (browser (onInterrupted message w)) = timers (browser w)
  /\ nextTimerId (browser (onInterrupted message w)) = nextTimerId (browser w).
Proof.
  unfold onInterrupted. destruct (flag interrupted message); [|repeat split].
  destruct (clearSources_frame w) as (A & H & S & I & U & T & N & _). repeat split; assumption.
Qed.

Lemma onTranscriptions_frame (message : LiveServerMessage) (w : World) :
  let w' := onTranscriptions message w in
  handles w' = handles w
  /\ playback w' = playback w
  /\ browser w' = browser w
  /\ silenceTimerRef (segmenter w') = silenceTimerRef (segmenter w)
  /\ isSilentRef (segmenter w') = isSilentRef (segmenter w)
  /\ (hasSpokenInTurnRef (segmenter w) = true -> hasSpokenInTurnRef (segmenter w') = true)
  /\ transcript (app w') = transcript (app w)
  /\ currentInterviewerTextRef w'
     = (currentInterviewerTextRef w ++ delta outputTranscription message)%string
  /\ currentUserTextRef w' = (currentUserTextRef w ++ delta inputTranscription message)%string.
Proof.
  unfold onTranscriptions, delta.
  destruct (transcriptionOf outputTranscription message) as [o|];
    destruct (transcriptionOf inputTranscription message) as [i|]; cbn;
    try destruct (nonEmpty (trim i)); cbn; rewrite ?append_empty; repeat split; auto.
Qed.

Lemma onTurnComplete_result (message : LiveServerMessage) (w : World) :
  flag turnComplete message = true ->
  let w' := onTurnComplete message w in
  handles w' = handles w
  /\ playback w' = playback w
  /\ hasSpokenInTurnRef (segmenter w') = false
  /\ isSilentRef (segmenter w') = false
  /\ silenceTimerRef (segmenter w') = None
  /\ (consistent w -> timers (browser w') = [])
  /\ transcript (app w')
     = transcript (app w) ++ finalized (currentUserTextRef w) (currentInterviewerTextRef w)
  /\ currentUserText (app w') = ""%string
  /\ currentInterviewerText (app w') = ""%string
  /\ currentUserTextRef w' = ""%string
  /\ currentInterviewerTextRef w' = ""%string.
Proof.
  intros F. unfold onTurnComplete. rewrite F. cbv zeta.
  match goal with
  | |- context [cancelSilenceTimer ?x] =>
      destruct (cancelSilenceTimer_frame x) as (A & H & P & I & U & Sp & Si & R & _);
      pose proof (cancelSilenceTimer_timers x) as T
  end.
  rewrite A, H, P, I, U, Sp, Si, R. cbn.
  repeat split.
  - intros [Own _]. apply T. exact Own.
  - unfold pushIf, finalized.
    destruct (nonEmpty (trim (currentUserTextRef w)));
      destruct (nonEmpty (trim (currentInterviewerTextRef w))); cbn;
      rewrite <- ?app_assoc, ?app_nil_r; reflexivity.
Qed.

Lemma cancelSilenceTimer_effects (w : World) :
  exists tail,
    effects (browser (cancelSilenceTimer w)) = effects (browser w) ++ tail.
Proof.
  unfold cancelSilenceTimer. destruct (silenceTimerRef (segmenter w)) as [id|]; cbn.
  - exists [ClearTimeout id]. reflexivity.
  - exists []. rewrite app_nil_r. reflexivity.
Qed.

Lemma onTurnComplete_playback (message : LiveServerMessage) (w : World) :
  playback (onTurnComplete message w) = playback w
  /\ handles (onTurnComplete message w) = handles w
  /\ exists tail,
       effects (browser (onTurnComplete message w)) = effects (browser w) ++ tail.
Proof.
  unfold onTurnComplete. destruct (flag turnComplete message).
  - cbv zeta.
    match goal with
    | |- context [cancelSilenceTimer ?x] =>
        destruct (cancelSilenceTimer_frame x) as (_ & H & P & _);
        destruct (cancelSilenceTimer_effects x) as [tail E]
    end.
    rewrite H, P, E. cbn. split; [reflexivity|]. split; [reflexivity|].
    exists tail. reflexivity.
  - split; [reflexivity|]. split; [reflexivity|]. exists []. rewrite app_nil_r. reflexivity.
Qed.

(** *** Interruption *)

(** C2.  In every state, handling an inbound event that carries the
    interrupted flag stops every source of the active set (those playing
    before the event and the one the event itself may have scheduled),
    leaves the set empty and sets the timeline cursor to 0 itself, whatever
    the clock of the output device reads. *)
Theorem interrupted_stops_and_resets (currentTime : Q) (message : LiveServerMessage)
  (w : World) :
  flag interrupted message = true ->
  let w' := onmessage currentTime message w in
  (forall source, In source (audioSources (playback w)) ->
                  In (SourceStop source) (effects (browser w')))
  /\ (forall source, In source (audioSources (playback (playChunk currentTime message w))) ->
                     In (SourceStop source) (effects (browser w')))
  /\ audioSources (playback w') = []
  /\ nextStartTime (playback w') = 0.
Proof.
  intros F w'. subst w'. unfold App.onmessage.
  set (w1 := playChunk currentTime message w).
  assert (I : incl (audioSources (playback w)) (audioSources (playback w1)))
    by apply playChunk_frame.
  set (w2 := onInterrupted message w1).
  assert (P2 : playback w2 = {| audioSources := []; nextStartTime := 0 |})
    by (unfold w2, onInterrupted; rewrite F; reflexivity).
  assert (E2 : effects (browser w2)
               = effects (browser w1) ++ map SourceStop (audioSources (playback w1)))
    by (unfold w2, onInterrupted; rewrite F; apply clearSources_frame).
  destruct (onTranscriptions_frame message w2) as (_ & P3 & B3 & _).
  destruct (onTurnComplete_playback message (onTranscriptions message w2)) as (P4 & _ & tail & E4).
  rewrite P4, P3, P2, E4, B3, E2. cbn.
  assert (S : forall source, In source (audioSources (playback w1)) ->
                In (SourceStop source)
                  ((effects (browser w1) ++ map SourceStop (audioSources (playback w1))) ++ tail)).
  { intros source Hs. apply in_or_app. left. apply in_or_app. right.
    apply in_map. exact Hs. }
  repeat split; auto.
Qed.

(** *** Turn completion *)

Example finalized_both :
  finalized "hello" "hi there"
  = [{| speaker := "You"; text := "hello" |};
     {| speaker := "Interviewer"; text := "hi there" |}].
Proof. reflexivity. Qed.

Example finalized_interviewer_only :
  finalized "" "hi there" = [{| speaker := "Interviewer"; text := "hi there" |}].
Proof. reflexivity. Qed.

Example finalized_blank : finalized "  " "" = [].
Proof. reflexivity. Qed.

Lemma finalized_length (user interviewer : string) :
  (length (finalized user interviewer) <= 2)%nat.
Proof.
  unfold finalized.
  destruct (nonEmpty (trim user)); destruct (nonEmpty (trim interviewer)); cbn; lia.
Qed.

(** C3.  Whatever the two turn buffers hold (with what the event itself
    adds to them), handling a turn-complete event appends to the transcript
    the entries of the turn and nothing else: the user's entry, speaker
    "You", then the interviewer's, speaker "Interviewer", each if and only
    if its buffer is not empty once trimmed, so two entries at most; both
    buffers, and their copies in the reducer state, are empty afterwards. *)
Theorem turn_complete_finalizes (currentTime : Q) (message : LiveServerMessage) (w : World) :
  flag turnComplete message = true ->
  let user := (currentUserTextRef w ++ delta inputTranscription message)%string in
  let interviewer :=
    (currentInterviewerTextRef w ++ delta outputTranscription message)%string in
  let w' := onmessage currentTime message w in
  transcript (app w') = transcript (app w) ++ finalized user interviewer
  /\ finalized user interviewer
     = (if nonEmpty (trim user) then [{| speaker := "You"; text := trim user |}] else [])
       ++ (if nonEmpty (trim interviewer)
           then [{| speaker := "Interviewer"; text := trim interviewer |}] else [])
  /\ (length (finalized user interviewer) <= 2)%nat
  /\ currentUserTextRef w' = ""%string
  /\ currentInterviewerTextRef w' = ""%string
  /\ currentUserText (app w') = ""%string
  /\ currentInterviewerText (app w') = ""%string.
Proof.
  intros F user interviewer w'. subst w'. unfold App.onmessage.
  set (w1 := playChunk currentTime message w).
  destruct (playChunk_frame currentTime message w) as (A1 & _ & _ & I1 & U1 & _).
  fold w1 in A1, I1, U1.
  set (w2 := onInterrupted message w1).
  destruct (onInterrupted_frame message w1) as (A2 & _ & _ & I2 & U2 & _).
  fold w2 in A2, I2, U2.
  destruct (onTranscriptions_frame message w2) as (_ & _ & _ & _ & _ & _ & T3 & I3 & U3).
  destruct (onTurnComplete_result message (onTranscriptions message w2) F)
    as (_ & _ & _ & _ & _ & _ & T4 & CU & CI & RU & RI).
  rewrite T4, T3, I3, U3, A2, A1, I2, I1, U2, U1, CU, CI, RU, RI.
  repeat split. apply finalized_length.
Qed.

(** C4.  In every state of the turn segmenter, Idle, Active,
    PendingSilence or Suspended, handling an inbound turn-complete event
    leaves turn-has-speech false, no silence timer held or waiting, and
    sending switched on again: the segmenter is Idle. *)
Theorem turn_complete_resets_segmenter (currentTime : Q) (message : LiveServerMessage)
  (w : World) :
  consistent w ->
  flag turnComplete message = true ->
  let w' := onmessage currentTime message w in
  hasSpokenInTurnRef (segmenter w') = false
  /\ silenceTimerRef (segmenter w') = None
  /\ timers (browser w') = []
  /\ isSilentRef (segmenter w') = false
  /\ segmentState w' = Idle.
Proof.
  intros [Own _] F w'. subst w'. unfold App.onmessage.
  set (w1 := playChunk currentTime message w).
  destruct (playChunk_frame currentTime message w) as (_ & _ & S1 & _ & _ & T1 & _).
  fold w1 in S1, T1.
  set (w2 := onInterrupted message w1).
  destruct (onInterrupted_frame message w1) as (_ & _ & S2 & _ & _ & T2 & _).
  fold w2 in S2, T2.
  destruct (onTranscriptions_frame message w2) as (_ & _ & B3 & R3 & _).
  set (w3 := onTranscriptions message w2) in *. clearbody w3.
  unfold onTurnComplete. rewrite F. cbv zeta.
  match goal with
  | |- context [cancelSilenceTimer ?x] =>
      destruct (cancelSilenceTimer_frame x) as (_ & _ & _ & _ & _ & Sp & Si & R & _);
      pose proof (cancelSilenceTimer_timers x) as T
  end.
  cbn in Sp, Si, T.
  rewrite B3, R3, S2, S1, T2, T1 in T. specialize (T Own).
  unfold segmentState, timerPending. rewrite Sp, Si, R, T. repeat split.
Qed.

(** *** Gapless scheduling *)

Lemma duration_nonneg (b : AudioBuffer) : 0 <= duration b.
Proof.
  unfold duration, Double.div. apply round_nonneg.
  apply Qle_shift_div_l; [reflexivity|]. rewrite Qmult_0_l.
  unfold Qle. cbn. lia.
Qed.

Lemma duration_representable (b : AudioBuffer) : Double.representable (duration b).
Proof. apply round_representable. Qed.

Lemma chunkDuration_nonneg (message : LiveServerMessage) : 0 <= chunkDuration message.
Proof.
  unfold App.chunkDuration. destruct (base64AudioOf message).
  - apply duration_nonneg.
  - apply Qle_refl.
Qed.

Lemma onmessage_chunk (currentTime : Q) (message : LiveServerMessage) (w : World) :
  playbackReady w ->
  uninterruptedChunk message ->
  let start := Qmax (nextStartTime (playback w)) currentTime in
  let w' := onmessage currentTime message w in
  handles w' = handles w
  /\ nextStartTime (playback w') = Double.add start (chunkDuration message)
  /\ exists tail,
       effects (browser w')
       = effects (browser w) ++ SourceStart (nextSourceId (browser w)) start :: tail.
Proof.
  intros [Hc Hg] [(b & Hb & Hn) Hi] start w'. subst w'. unfold App.onmessage.
  destruct (onTurnComplete_playback message
              (onTranscriptions message (onInterrupted message (playChunk currentTime message w))))
    as (P4 & H4 & tail & E4).
  destruct (onTranscriptions_frame message (onInterrupted message (playChunk currentTime message w)))
    as (H3 & P3 & B3 & _).
  rewrite P4, H4, E4, P3, H3, B3.
  unfold onInterrupted. rewrite Hi.
  unfold App.playChunk, App.chunkDuration. rewrite Hb.
  destruct (outputAudioContext (handles w)); [|contradiction].
  destruct (outputGainNode (handles w)); [|contradiction].
  rewrite Hn. cbn. unfold addSource. cbn.
  destruct (existsb _ _); cbn; (split; [reflexivity|]; split; [reflexivity|]);
    exists tail; rewrite <- app_assoc; reflexivity.
Qed.

Lemma run_app (w : World) (events more : list (Event Samples)) :
  run w (events ++ more) = run (run w events) more.
Proof. apply fold_left_app. Qed.

Lemma Qmax_representable (x y : Q) :
  Double.representable x -> Double.representable y -> Double.representable (Qmax x y).
Proof.
  intros Hx Hy. destruct (Q.max_spec x y) as [[_ E]|[_ E]]; unfold Double.representable;
    rewrite (round_eq _ _ E), E; assumption.
Qed.

(** One chunk: the cursor ends on a double, not below the start. *)
Lemma onmessage_chunk_cursor (currentTime : Q) (message : LiveServerMessage) (w : World) :
  playbackReady w ->
  uninterruptedChunk message ->
  Double.representable (nextStartTime (playback w)) ->
  Double.representable currentTime ->
  let w' := onmessage currentTime message w in
  Double.representable (nextStartTime (playback w'))
  /\ Qmax (nextStartTime (playback w)) currentTime <= nextStartTime (playback w').
Proof.
  intros R M Dw Dt w'.
  destruct (onmessage_chunk currentTime message w R M) as (_ & N & _). fold w' in N.
  rewrite N. split; [apply round_representable|].
  apply add_ge; [apply Qmax_representable; assumption | apply chunkDuration_nonneg].
Qed.

Lemma accumulated_le (chunks : list (Q * LiveServerMessage)) (x y : Q) :
  x <= y -> accumulated x chunks <= accumulated y chunks.
Proof.
  revert x y. induction chunks as [|c chunks IH]; intros x y H; [exact H|].
  apply IH, add_le, H.
Qed.

Lemma run_chunks (chunks : list (Q * LiveServerMessage)) (w : World) :
  playbackReady w ->
  Forall (fun c => uninterruptedChunk (snd c)) chunks ->
  playbackReady (run w (messages chunks))
  /\ accumulated (nextStartTime (playback w)) chunks
     <= nextStartTime (playback (run w (messages chunks)))
  /\ (Double.representable (nextStartTime (playback w)) ->
      clockReadings chunks ->
      Double.representable (nextStartTime (playback (run w (messages chunks))))
      /\ nextStartTime (playback w) <= nextStartTime (playback (run w (messages chunks)))).
Proof.
  revert w. induction chunks as [|[t m] chunks IH]; intros w R F.
  - cbn. split; [exact R|]. split; [apply Qle_refl|]. intros D _. split; [exact D|apply Qle_refl].
  - inversion F as [|c l Hm Hrest]; subst. cbn in Hm.
    destruct (onmessage_chunk t m w R Hm) as (H & N & _).
    assert (R' : playbackReady (onmessage t m w)) by (unfold playbackReady; rewrite H; exact R).
    destruct (IH _ R' Hrest) as (R'' & L & K). split; [exact R''|]. split.
    + change (accumulated (Double.add (nextStartTime (playback w)) (chunkDuration m)) chunks
              <= nextStartTime (playback (run (onmessage t m w) (messages chunks)))).
      eapply Qle_trans; [|exact L]. rewrite N.
      apply accumulated_le, add_le, Q.le_max_l.
    + intros D C. inversion C as [|c l Dt Crest]; subst. cbn in Dt.
      destruct (onmessage_chunk_cursor t m w R Hm D Dt) as [D' G].
      destruct (K D' Crest) as [D'' G']. split; [exact D''|].
      eapply Qle_trans; [|exact G']. eapply Qle_trans; [|exact G]. apply Q.le_max_l.
Qed.

(** C1.  Take any run of inbound audio chunks with no interrupted flag
    among them, handled one after the other while the output graph is
    there, from a cursor that is not negative; cursor and clock readings
    are doubles.  When chunk i is handled, its source is started at the
    maximum of the cursor and the current output time, and the cursor
    moves to the double nearest to that start plus the duration of the
    chunk.  So the start is at least the sum of the durations of the
    chunks before it as doubles add up to it, one after the other from 0,
    and the cursor never decreases: not over the chunks before, not over
    this one. *)
Theorem chunks_scheduled_gapless (w : World) (earlier : list (Q * LiveServerMessage))
  (currentTime : Q) (message : LiveServerMessage) :
  playbackReady w ->
  0 <= nextStartTime (playback w) ->
  Double.representable (nextStartTime (playback w)) ->
  clockReadings earlier ->
  Double.representable currentTime ->
  Forall (fun c => uninterruptedChunk (snd c)) earlier ->
  uninterruptedChunk message ->
  let wi := run w (messages earlier) in
  let start := Qmax (nextStartTime (playback wi)) currentTime in
  let w' := onmessage currentTime message wi in
  (exists tail,
     effects (browser w')
     = effects (browser wi) ++ SourceStart (nextSourceId (browser wi)) start :: tail)
  /\ nextStartTime (playback w') = Double.add start (chunkDuration message)
  /\ accumulated 0 earlier <= start
  /\ nextStartTime (playback w) <= nextStartTime (playback wi)
  /\ nextStartTime (playback wi) <= nextStartTime (playback w').
Proof.
  intros R Z D C Dt F M wi start w'.
  destruct (run_chunks earlier w R F) as (Ri & L & K). fold wi in Ri, L, K.
  destruct (K D C) as [Di G].
  destruct (onmessage_chunk currentTime message wi Ri M) as (_ & N & E).
  fold start in N, E. fold w' in N, E.
  destruct (onmessage_chunk_cursor currentTime message wi Ri M Di Dt) as [_ G'].
  fold start in G'. fold w' in G'.
  pose proof (Q.le_max_l (nextStartTime (playback wi)) currentTime) as Mx. fold start in Mx.
  pose proof (accumulated_le earlier 0 _ Z) as A.
  split; [exact E|]. split; [exact N|]. split; [|split].
  - eapply Qle_trans; [exact A|]. eapply Qle_trans; [exact L|exact Mx].
  - exact G.
  - eapply Qle_trans; [exact Mx|exact G'].
Qed.

(** *** The turn segmenter *)

Lemma gt_true (a b : Q) : b < a -> gt a b = true.
Proof.
  intros H. unfold gt. destruct (Qle_bool a b) eqn:E; [|reflexivity].
  apply Qle_bool_iff in E. lra.
Qed.

Lemma gt_false (a b : Q) : a <= b -> gt a b = false.
Proof.
  intros H. unfold gt. apply Qle_bool_iff in H. rewrite H. reflexivity.
Qed.

Lemma no_timers_consistent (w : World) :
  timers (browser w) = [] ->
  (silenceTimerRef (segmenter w) <> None -> isSilentRef (segmenter w) = true) ->
  consistent w.
Proof.
  intros T S. unfold consistent. rewrite T. split; [intros t []|].
  split; [intros H; contradiction H; reflexivity|]. intros R _. apply S, R.
Qed.

Lemma initialWorld_consistent : consistent initialWorld.
Proof. apply no_timers_consistent; [reflexivity|]. intros H. contradiction H. reflexivity. Qed.

Lemma calm_iff (w : World) :
  calm w <-> isSilentRef (segmenter w) = false /\ timers (browser w) = [].
Proof.
  unfold calm, segmentState. split; intros [S T]; split; try exact T.
  - destruct (isSilentRef (segmenter w)); [contradiction S|]; reflexivity.
  - rewrite S. destruct (timerPending w); [discriminate|].
    destruct (hasSpokenInTurnRef (segmenter w)); discriminate.
Qed.

(** A block of samples above the threshold: the timer is cancelled and
    sending is on, whatever the state was. *)
Lemma onaudioprocess_above (x : Samples) (w : World) :
  SILENCE_THRESHOLD < calculateRMS x ->
  let w' := onaudioprocess x w in
  isSilentRef (segmenter w') = false
  /\ silenceTimerRef (segmenter w') = None
  /\ hasSpokenInTurnRef (segmenter w') = hasSpokenInTurnRef (segmenter w)
  /\ (consistent w -> timers (browser w') = []).
Proof.
  intros H. unfold App.onaudioprocess. rewrite (gt_true _ _ H). cbv zeta.
  destruct (cancelSilenceTimer_frame w) as (_ & Hh & _ & _ & _ & Sp & _ & R & _).
  pose proof (cancelSilenceTimer_timers w) as T.
  set (w1 := cancelSilenceTimer w) in *. clearbody w1.
  cbn [isSilentRef segmenter setIsSilentRef withSegmenter negb].
  destruct (callOn_frame (sessionPromise (handles (setIsSilentRef false w1))) SendRealtimeInput
              (setIsSilentRef false w1)) as (_ & _ & S & _ & _ & _ & Tm & _).
  rewrite S, Tm. cbn. rewrite R, Sp. repeat split. intros [Own _]. apply T, Own.
Qed.

(** A block of samples not above the threshold: a timer is started if the
    user has spoken in this turn and no timer id is held; nothing else of
    the segmenter changes. *)
Lemma onaudioprocess_not_above (x : Samples) (w : World) :
  calculateRMS x <= SILENCE_THRESHOLD ->
  let w' := onaudioprocess x w in
  isSilentRef (segmenter w') = isSilentRef (segmenter w)
  /\ hasSpokenInTurnRef (segmenter w') = hasSpokenInTurnRef (segmenter w)
  /\ playback w' = playback w
  /\ handles w' = handles w
  /\ match hasSpokenInTurnRef (segmenter w), silenceTimerRef (segmenter w) with
     | true, None =>
         silenceTimerRef (segmenter w') = Some (nextTimerId (browser w))
         /\ timers (browser w')
            = timers (browser w) ++ [(nextTimerId (browser w), SILENCE_DURATION_MS)]
     | _, _ =>
         silenceTimerRef (segmenter w') = silenceTimerRef (segmenter w)
         /\ timers (browser w') = timers (browser w)
     end.
Proof.
  intros H. unfold App.onaudioprocess. rewrite (gt_false _ _ H).
  destruct w as [a [sp ic oc spn ms ig og us] [r hs si] p it ut [tm nt ns ef]].
  cbn. destruct hs, r, si, sp; cbn; repeat split.
Qed.

Lemma elapse_frame (dt : N) (w : World) :
  let w' := elapse dt w in
  silenceTimerRef (segmenter w') = silenceTimerRef (segmenter w)
  /\ hasSpokenInTurnRef (segmenter w') = hasSpokenInTurnRef (segmenter w)
  /\ playback w' = playback w
  /\ handles w' = handles w
  /\ timers (browser w')
     = map (fun t => (fst t, (snd t - dt)%N))
         (filter (fun t => negb (snd t <=? dt)%N) (timers (browser w)))
  /\ isSilentRef (segmenter w')
     = match filter (fun t => (snd t <=? dt)%N) (timers (browser w)) with
       | [] => isSilentRef (segmenter w)
       | _ :: _ => true
       end.
Proof.
  unfold elapse. cbv zeta.
  destruct (filter (fun t => (snd t <=? dt)%N) (timers (browser w))); cbn; repeat split.
Qed.

Lemma onmessage_segmenter (currentTime : Q) (message : LiveServerMessage) (w : World) :
  let w' := onmessage currentTime message w in
  if flag turnComplete message then
    hasSpokenInTurnRef (segmenter w') = false
    /\ silenceTimerRef (segmenter w') = None
    /\ isSilentRef (segmenter w') = false
    /\ (consistent w -> timers (browser w') = [])
  else
    silenceTimerRef (segmenter w') = silenceTimerRef (segmenter w)
    /\ isSilentRef (segmenter w') = isSilentRef (segmenter w)
    /\ timers (browser w') = timers (browser w)
    /\ (hasSpokenInTurnRef (segmenter w) = true -> hasSpokenInTurnRef (segmenter w') = true).
Proof.
  cbv zeta. unfold App.onmessage.
  set (w1 := playChunk currentTime message w).
  destruct (playChunk_frame currentTime message w) as (_ & _ & S1 & _ & _ & T1 & _).
  fold w1 in S1, T1.
  set (w2 := onInterrupted message w1).
  destruct (onInterrupted_frame message w1) as (_ & _ & S2 & _ & _ & T2 & _).
  fold w2 in S2, T2.
  destruct (onTranscriptions_frame message w2) as (_ & _ & B3 & R3 & Si3 & Sp3 & _).
  set (w3 := onTranscriptions message w2) in *. clearbody w3.
  unfold onTurnComplete. destruct (flag turnComplete message).
  - cbv zeta.
    match goal with
    | |- context [cancelSilenceTimer ?x] =>
        destruct (cancelSilenceTimer_frame x) as (_ & _ & _ & _ & _ & Sp & Si & R & _);
        pose proof (cancelSilenceTimer_timers x) as T
    end.
    cbn in Sp, Si, T. rewrite B3, R3, S2, S1, T2, T1 in T.
    rewrite Sp, Si, R. repeat split. intros [Own _]. apply T, Own.
  - rewrite R3, Si3, B3, S2, S1, T2, T1. repeat split.
    intros H. apply Sp3. rewrite S2, S1. exact H.
Qed.

Lemma cleanupAudio_segmenter (w : World) :
  segmenter (cleanupAudio w) = segmenter (cancelSilenceTimer w)
  /\ timers (browser (cleanupAudio w)) = timers (browser (cancelSilenceTimer w)).
Proof.
  unfold cleanupAudio. cbn [segmenter browser withHandles].
  match goal with
  | |- context [clearSources ?x] =>
      destruct (clearSources_frame x) as (_ & _ & -> & _ & _ & -> & _)
  end.
  repeat match goal with
         | |- context [callOn ?r ?e ?x] =>
             destruct (callOn_frame r e x) as (_ & _ & -> & _ & _ & _ & -> & _)
         end.
  destruct (sessionPromise (handles (cancelSilenceTimer w))); split; reflexivity.
Qed.

Lemma filter_none_some {A : Type} (p : A -> bool) (l : list A) :
  l <> [] -> filter (fun a => negb (p a)) l = [] -> filter p l <> [].
Proof.
  destruct l as [|a l]; [intros H; contradiction H; reflexivity|].
  intros _. cbn. destruct (p a); cbn; discriminate.
Qed.

(** Every handler keeps the state consistent. *)
Lemma step_consistent (w : World) (e : Event Samples) :
  consistent w -> consistent (step w e).
Proof.
  intros C. pose proof C as (Own & Sp & St). destruct e as [x|t m|dt|src|]; cbn [App.step].
  - destruct (Qlt_le_dec SILENCE_THRESHOLD (calculateRMS x)) as [A|B].
    + destruct (onaudioprocess_above x w A) as (Si & R & _ & T).
      apply no_timers_consistent; [apply T, C|]. rewrite R. intros H. contradiction H. reflexivity.
    + destruct (onaudioprocess_not_above x w B) as (Si & Hs & _ & _ & M).
      destruct (hasSpokenInTurnRef (segmenter w)) eqn:E1;
        destruct (silenceTimerRef (segmenter w)) as [id|] eqn:E2;
        destruct M as [R T]; unfold consistent; rewrite R, T, Hs, Si;
        try (split; [exact Own|split; [exact Sp|exact St]]).
      assert (T0 : timers (browser w) = []).
      { destruct (timers (browser w)) as [|t0 l]; [reflexivity|].
        specialize (Own t0 (or_introl eq_refl)). discriminate Own. }
      rewrite T0. cbn. split; [|split].
      * intros t [<-|[]]. reflexivity.
      * reflexivity.
      * intros _ H. discriminate H.
  - pose proof (onmessage_segmenter t m w) as M. cbv zeta in M.
    destruct (flag turnComplete m).
    + destruct M as (_ & R & _ & T). apply no_timers_consistent; [apply T, C|].
      rewrite R. intros H. contradiction H. reflexivity.
    + destruct M as (R & Si & T & Hs). unfold consistent. rewrite R, Si, T.
      split; [exact Own|]. split; [|exact St]. intros H. apply Hs, Sp, H.
  - destruct (elapse_frame dt w) as (R & Hs & _ & _ & T & Si).
    unfold consistent. rewrite R, Hs, T, Si. split; [|split].
    + intros t' Ht'. apply in_map_iff in Ht'. destruct Ht' as (t0 & <- & H0).
      apply filter_In in H0. cbn. apply Own, H0.
    + intros H. apply Sp. intros E. rewrite E in H. contradiction H. reflexivity.
    + intros Hr Hm. apply map_eq_nil in Hm.
      destruct (timers (browser w)) as [|t0 l] eqn:E.
      * cbn. apply St; [exact Hr|reflexivity].
      * assert (F : filter (fun t => (snd t <=? dt)%N) (t0 :: l) <> [])
          by (apply filter_none_some; [discriminate|exact Hm]).
        destruct (filter (fun t => (snd t <=? dt)%N) (t0 :: l)); [|reflexivity].
        contradiction F. reflexivity.
  - exact C.
  - destruct (cleanupAudio_segmenter w) as [S T].
    destruct (cancelSilenceTimer_frame w) as (_ & _ & _ & _ & _ & _ & _ & R & _).
    apply no_timers_consistent.
    + rewrite T. apply cancelSilenceTimer_timers, Own.
    + rewrite S, R. intros H. contradiction H. reflexivity.
Qed.

Lemma run_consistent (events : list (Event Samples)) (w : World) :
  consistent w -> consistent (run w events).
Proof.
  revert w. induction events as [|e events IH]; intros w C; [exact C|].
  apply IH, step_consistent, C.
Qed.

(** Nothing but a block of samples at or below the threshold ends the calm. *)
Lemma step_calm (w : World) (e : Event Samples) :
  consistent w ->
  calm w ->
  match e with
  | AudioProcess x => SILENCE_THRESHOLD < calculateRMS x
  | _ => True
  end ->
  calm (step w e).
Proof.
  intros C K A. apply calm_iff in K. destruct K as [Si T]. apply calm_iff.
  destruct e as [x|t m|dt|src|]; cbn [App.step].
  - destruct (onaudioprocess_above x w A) as (Si' & _ & _ & T'). split; [exact Si'|apply T', C].
  - pose proof (onmessage_segmenter t m w) as M. cbv zeta in M.
    destruct (flag turnComplete m).
    + destruct M as (_ & _ & Si' & T'). split; [exact Si'|apply T', C].
    + destruct M as (_ & Si' & T' & _). rewrite Si', T'. split; assumption.
  - destruct (elapse_frame dt w) as (_ & _ & _ & _ & T' & Si').
    rewrite Si', T', T. cbn. split; [exact Si|reflexivity].
  - split; assumption.
  - destruct (cleanupAudio_segmenter w) as [S' T'].
    destruct (cancelSilenceTimer_frame w) as (_ & _ & _ & _ & _ & _ & Si' & _).
    rewrite S', T', Si'. split; [exact Si|].
    apply cancelSilenceTimer_timers. rewrite T. intros t0 [].
Qed.

Lemma run_calm (events : list (Event Samples)) (w : World) :
  consistent w -> calm w -> allAbove events -> calm (run w events).
Proof.
  revert w. induction events as [|e events IH]; intros w C K A; [exact K|].
  inversion A as [|e' l He Hl]; subst.
  apply IH; [apply step_consistent, C|apply step_calm; assumption|exact Hl].
Qed.

(** C5, as the code has it.  Take any run in which every block of samples
    handled has its energy strictly above the threshold 0.01, whatever
    else arrives in between (time passing, inbound events, sources ending),
    from a state with sending on and no timer waiting, or from any state
    as soon as the run holds one such block.  At the end of the run, and so
    at the end of each of its prefixes, the segmenter is not Suspended and
    no silence timer is waiting. *)
Theorem above_threshold_never_suspended (w : World) (events : list (Event Samples)) :
  consistent w ->
  allAbove events ->
  calm w \/ (exists x, In (AudioProcess x) events) ->
  segmentState (run w events) <> Suspended /\ timers (browser (run w events)) = [].
Proof.
  intros C A [K|[x Hx]].
  - apply (run_calm events w C K A).
  - apply in_split in Hx. destruct Hx as (pre & post & ->).
    unfold allAbove, App.allAbove in A. apply Forall_app in A. destruct A as [_ A].
    inversion A as [|e l Hx Hpost]; subst.
    rewrite run_app. cbn [fold_left App.run].
    change (calm (run (onaudioprocess x (run w pre)) post)).
    pose proof (run_consistent pre w C) as Cp.
    apply run_calm; [apply (step_consistent _ (AudioProcess x) Cp)| |exact Hpost].
    apply calm_iff. destruct (onaudioprocess_above x (run w pre) Hx) as (Si & _ & _ & T).
    split; [exact Si|apply T, Cp].
Qed.

(** *** Silence *)

Lemma suspended_stays (events : list (Event Samples)) (w : World) :
  silence events ->
  isSilentRef (segmenter w) = true ->
  silenceTimerRef (segmenter w) <> None ->
  timers (browser w) = [] ->
  isSilentRef (segmenter (run w events)) = true
  /\ timers (browser (run w events)) = []
  /\ suspensions w events = 0%nat.
Proof.
  revert w. induction events as [|e events IH]; intros w Q Si R T.
  - repeat split; assumption.
  - inversion Q as [|e' l He Hl]; subst.
    assert (N : isSilentRef (segmenter (step w e)) = true
                /\ silenceTimerRef (segmenter (step w e)) <> None
                /\ timers (browser (step w e)) = []).
    { destruct e as [x|t m|dt|src|]; try contradiction; cbn [App.step].
      - destruct (onaudioprocess_not_above x w (Qlt_le_weak _ _ He)) as (Si' & _ & _ & _ & M).
        destruct (hasSpokenInTurnRef (segmenter w));
          destruct (silenceTimerRef (segmenter w)) eqn:E; try (contradiction R; reflexivity);
          destruct M as [R' T']; rewrite Si', R', T'; repeat split; assumption.
      - destruct (elapse_frame dt w) as (R' & _ & _ & _ & T' & Si').
        rewrite Si', R', T', T. cbn. repeat split; assumption. }
    destruct N as (Si' & R' & T').
    destruct (IH _ Hl Si' R' T') as (A & B & D).
    cbn [App.suspensions fold_left App.run]. cbv zeta. rewrite Si. cbn [negb andb].
    repeat split; assumption.
Qed.

Lemma pending_fires_once (events : list (Event Samples)) (w : World) (id : positive) (r : N) :
  silence events ->
  (0 < r)%N ->
  isSilentRef (segmenter w) = false ->
  silenceTimerRef (segmenter w) = Some id ->
  timers (browser w) = [(id, r)] ->
  if (r <=? elapsed events)%N then
    isSilentRef (segmenter (run w events)) = true
    /\ timers (browser (run w events)) = []
    /\ suspensions w events = 1%nat
  else
    isSilentRef (segmenter (run w events)) = false
    /\ timers (browser (run w events)) = [(id, (r - elapsed events)%N)]
    /\ suspensions w events = 0%nat.
Proof.
  revert w r. induction events as [|e events IH]; intros w r Q Pos Si R T.
  - cbn. destruct (N.leb_spec r 0); [lia|]. rewrite N.sub_0_r. repeat split; assumption.
  - inversion Q as [|e' l He Hl]; subst.
    destruct e as [x|t m|dt|src|]; try contradiction.
    + destruct (onaudioprocess_not_above x w (Qlt_le_weak _ _ He)) as (Si' & _ & _ & _ & M).
      rewrite R in M.
      assert (M' : silenceTimerRef (segmenter (onaudioprocess x w)) = Some id
                   /\ timers (browser (onaudioprocess x w)) = [(id, r)]).
      { destruct (hasSpokenInTurnRef (segmenter w)); destruct M as [R' T'];
          rewrite R', T'; (split; [reflexivity|assumption]). }
      destruct M' as [R' T']. rewrite Si in Si'.
      specialize (IH _ r Hl Pos Si' R' T').
      cbn [App.suspensions App.elapsed fold_left App.run App.step]. cbv zeta.
      rewrite Si, Si'. cbn [negb andb Nat.add]. exact IH.
    + destruct (elapse_frame dt w) as (R' & _ & _ & _ & T' & Si').
      rewrite T in T', Si'. cbn [filter snd fst map] in T', Si'.
      cbn [App.suspensions App.elapsed fold_left App.run App.step]. cbv zeta.
      destruct (N.leb_spec r dt) as [Le|Gt].
      * cbn in T', Si'.
        assert (Rn : silenceTimerRef (segmenter (elapse dt w)) <> None)
          by (rewrite R', R; discriminate).
        destruct (suspended_stays events _ Hl Si' Rn T') as (A & B & D).
        destruct (N.leb_spec r (dt + elapsed events)); [|lia].
        rewrite Si, Si', D. cbn. repeat split; assumption.
      * cbn in T', Si'. rewrite Si in Si'. rewrite R in R'.
        assert (Pos' : (0 < r - dt)%N) by lia.
        specialize (IH _ (r - dt)%N Hl Pos' Si' R' T').
        rewrite Si, Si'. cbn [negb andb Nat.add].
        destruct (N.leb_spec (r - dt) (elapsed events));
          destruct (N.leb_spec r (dt + elapsed events)); try lia.
        -- exact IH.
        -- replace (r - (dt + elapsed events))%N with (r - dt - elapsed events)%N by lia.
           exact IH.
Qed.

Lemma active_no_timer (w : World) :
  consistent w ->
  segmentState w = Active ->
  isSilentRef (segmenter w) = false
  /\ hasSpokenInTurnRef (segmenter w) = true
  /\ silenceTimerRef (segmenter w) = None
  /\ timers (browser w) = [].
Proof.
  intros (Own & _ & St). unfold segmentState, timerPending.
  destruct (isSilentRef (segmenter w)); [discriminate|].
  destruct (silenceTimerRef (segmenter w)) as [id|].
  - destruct (timers (browser w)) as [|t0 l].
    + intros _. assert (F : false = true) by (apply St; [discriminate|reflexivity]).
      discriminate F.
    + specialize (Own t0 (or_introl eq_refl)). injection Own as ->.
      cbn. rewrite Pos.eqb_refl. cbn. discriminate.
  - destruct (hasSpokenInTurnRef (segmenter w)); [|discriminate]. intros _.
    repeat split. destruct (timers (browser w)) as [|t0 l]; [reflexivity|].
    specialize (Own t0 (or_introl eq_refl)). discriminate Own.
Qed.

Lemma pending_has_spoken (w : World) :
  consistent w ->
  segmentState w = PendingSilence ->
  hasSpokenInTurnRef (segmenter w) = true.
Proof.
  intros (_ & Sp & _). unfold segmentState, timerPending.
  destruct (isSilentRef (segmenter w)); [discriminate|].
  destruct (silenceTimerRef (segmenter w)) as [id|].
  - destruct (timers (browser w)) as [|t0 l]; cbn.
    + destruct (hasSpokenInTurnRef (segmenter w)); discriminate.
    + intros _. apply Sp. discriminate.
  - destruct (hasSpokenInTurnRef (segmenter w)); discriminate.
Qed.


End LiveSession.

(** ** Runs of the scenario *)

Section Runs.
Import JsString App Scenario.
Local Open Scope list_scope.

Abbreviation handle := (onmessage halfSecond).
Abbreviation process := (onaudioprocess Q energy).
Abbreviation play := (run Q energy halfSecond).

Lemma conversing_ready : playbackReady conversing.
Proof. split; discriminate. Qed.

Lemma conversing_consistent : consistent conversing.
Proof.
  apply no_timers_consistent; [reflexivity|]. intros H. contradiction H. reflexivity.
Qed.

Lemma afterSpeech_consistent : consistent afterSpeech.
Proof.
  apply no_timers_consistent; [reflexivity|]. intros H. contradiction H. reflexivity.
Qed.

Lemma pendingSilence_consistent : consistent pendingSilence.
Proof.
  apply (step_consistent Q energy halfSecond afterSpeech (AudioProcess (1 # 200))).
  exact afterSpeech_consistent.
Qed.

(** Three chunks of half a second, then an interruption: one source is
    active after the first chunk, three after the third, with the cursor
    at a second and a half; the interruption leaves none and the cursor
    at 0. *)
Example three_chunks_then_interrupted :
  let w1 := handle 0 (audio "AAAA") conversing in
  let w3 := handle (1 # 5) (audio "CCCC") (handle (1 # 10) (audio "BBBB") w1) in
  let w4 := handle (1 # 2) wasInterrupted w3 in
  audioSources (playback w1) = [0%nat]
  /\ audioSources (playback w3) = [0%nat; 1%nat; 2%nat]
  /\ nextStartTime (playback w3) == 3 # 2
  /\ audioSources (playback w4) = []
  /\ nextStartTime (playback w4) = 0.
Proof. repeat split. Qed.

(** A turn as the specification gives it: "hello", "hi there", turn complete. *)
Example hello_hi_there :
  transcript (app (play conversing
    [Message 0 (userSaid "hello"); Message 0 (interviewerSaid "hi there");
     Message 0 turnCompleted]))
  = [{| speaker := "You"; text := "hello" |};
     {| speaker := "Interviewer"; text := "hi there" |}].
Proof. reflexivity. Qed.

Example only_interviewer :
  transcript (app (play conversing
    [Message 0 (interviewerSaid " hi there "); Message 0 turnCompleted]))
  = [{| speaker := "Interviewer"; text := "hi there" |}].
Proof. reflexivity. Qed.

Lemma audio_uninterrupted (b : string) : nonEmpty b = true -> uninterruptedChunk (audio b).
Proof. intros Hb. split; [|reflexivity]. exists b. split; [reflexivity|exact Hb]. Qed.

Lemma chunks_scheduled_gapless_witness :
  let wi := play conversing (messages Q [(0, audio "AAAA"); (1 # 4, audio "BBBB")]) in
  let w' := handle (1 # 2) (audio "CCCC") wi in
  nextStartTime (playback w')
  = Double.add (Qmax (nextStartTime (playback wi)) (1 # 2))
      (chunkDuration halfSecond (audio "CCCC"))
  /\ accumulated halfSecond 0 [(0, audio "AAAA"); (1 # 4, audio "BBBB")]
     <= Qmax (nextStartTime (playback wi)) (1 # 2)
  /\ nextStartTime (playback conversing) <= nextStartTime (playback wi)
  /\ nextStartTime (playback wi) <= nextStartTime (playback w').
Proof.
  destruct (chunks_scheduled_gapless Q energy halfSecond conversing
              [(0, audio "AAAA"); (1 # 4, audio "BBBB")] (1 # 2) (audio "CCCC"))
    as (_ & A & B & D & E).
  - split; discriminate.
  - apply Qle_refl.
  - reflexivity.
  - constructor; [reflexivity|]. constructor; [vm_compute; reflexivity|]. constructor.
  - vm_compute. reflexivity.
  - constructor; [apply audio_uninterrupted; reflexivity|].
    constructor; [apply audio_uninterrupted; reflexivity|]. constructor.
  - apply audio_uninterrupted. reflexivity.
  - split; [exact A|]. split; [exact B|]. split; [exact D|exact E].
Defined.

(** C1, as the specification words it, fails where the additions round:
    after a chunk of a tenth of a second and one of seven tenths, the
    cursor is the double 0.7999999999999999, and that is where the third
    source is started: below the sum of the two durations. *)
Lemma chunk_start_below_sum_of_durations :
  let earlier := [(0, audio "A"); (0, audio "AAAAAAA")] in
  let wi := run Q energy tenthPerCharacter conversing (messages Q earlier) in
  let start := Qmax (nextStartTime (playback wi)) 0 in
  playbackReady conversing
  /\ 0 <= nextStartTime (playback conversing)
  /\ Forall (fun c => uninterruptedChunk (snd c)) earlier
  /\ uninterruptedChunk (audio "A")
  /\ effects (browser (onmessage tenthPerCharacter 0 (audio "A") wi))
     = effects (browser wi) ++ [SourceStart 2%nat start]
  /\ start == 7205759403792793 # 9007199254740992
  /\ start < totalDuration tenthPerCharacter earlier.
Proof.
  intros earlier wi start.
  split; [split; discriminate|]. split; [apply Qle_refl|].
  split.
  { constructor; [apply audio_uninterrupted; reflexivity|].
    constructor; [apply audio_uninterrupted; reflexivity|]. constructor. }
  split; [apply audio_uninterrupted; reflexivity|].
  split; [reflexivity|]. split; vm_compute; reflexivity.
Qed.

Lemma interrupted_stops_and_resets_witness :
  let w3 := play conversing
              (messages Q [(0, audio "AAAA"); (1 # 10, audio "BBBB"); (1 # 5, audio "CCCC")]) in
  let w' := handle (1 # 2) wasInterrupted w3 in
  In (SourceStop 1%nat) (effects (browser w'))
  /\ audioSources (playback w') = []
  /\ nextStartTime (playback w') = 0.
Proof.
  intros w3 w'.
  destruct (interrupted_stops_and_resets halfSecond (1 # 2) wasInterrupted w3)
    as (S & _ & A & N).
  - reflexivity.
  - split; [|split; [exact A|exact N]]. apply S. right. left. reflexivity.
Defined.

Lemma turn_complete_finalizes_witness :
  let w := play conversing [Message 0 (userSaid "hello "); Message 0 (interviewerSaid "hi")] in
  let w' := handle 0 turnCompleted w in
  transcript (app w')
  = transcript (app w) ++ [{| speaker := "You"; text := "hello" |};
                            {| speaker := "Interviewer"; text := "hi" |}]
  /\ currentUserTextRef w' = ""%string
  /\ currentInterviewerTextRef w' = ""%string.
Proof.
  intros w w'.
  destruct (turn_complete_finalizes halfSecond 0 turnCompleted w)
    as (T & _ & _ & U & I & _).
  - reflexivity.
  - split; [exact T|]. split; [exact U|exact I].
Defined.

Lemma turn_complete_resets_segmenter_witness :
  let w' := handle 0 turnCompleted pendingSilence in
  segmentState pendingSilence = PendingSilence
  /\ hasSpokenInTurnRef (segmenter w') = false
  /\ timers (browser w') = []
  /\ segmentState w' = Idle.
Proof.
  intros w'. split; [reflexivity|].
  destruct (turn_complete_resets_segmenter halfSecond 0 turnCompleted pendingSilence)
    as (Sp & _ & T & _ & St).
  - split; [|split].
    + intros t [<-|[]]. reflexivity.
    + reflexivity.
    + intros _ H. discriminate H.
  - reflexivity.
  - split; [exact Sp|]. split; [exact T|exact St].
Defined.

Lemma above_threshold_never_suspended_witness :
  let events := [AudioProcess (1 # 50); Elapse 2000; AudioProcess (3 # 100)] in
  segmentState pendingSilence = PendingSilence
  /\ segmentState (play pendingSilence events) <> Suspended
  /\ timers (browser (play pendingSilence events)) = [].
Proof.
  intros events. split; [reflexivity|].
  apply (above_threshold_never_suspended Q energy halfSecond pendingSilence events).
  - split; [|split].
    + intros t [<-|[]]. reflexivity.
    + reflexivity.
    + intros _ H. discriminate H.
  - constructor; [reflexivity|]. constructor; [exact I|].
    constructor; [reflexivity|]. constructor.
  - right. exists (1 # 50). left. reflexivity.
Defined.

(** C5, as the specification words it, fails at the threshold itself.  The
    user has spoken, sending is on and no timer waits; blocks of samples
    with energy 0.01 arrive, which is not below the threshold.  The first
    starts the silence timer, and after 1500 ms the segmenter is
    Suspended. *)
Lemma at_threshold_suspended :
  let frame : Event Q := AudioProcess SILENCE_THRESHOLD in
  consistent afterSpeech
  /\ calm afterSpeech
  /\ allAtOrAbove Q energy [frame; Elapse 1500; frame]
  /\ timers (browser (play afterSpeech [frame])) <> []
  /\ segmentState (play afterSpeech [frame; Elapse 1500; frame]) = Suspended.
Proof.
  intros frame. split; [exact afterSpeech_consistent|].
  split; [split; [discriminate|reflexivity]|].
  split; [|split; [discriminate|reflexivity]].
  constructor; [apply Qle_refl|]. constructor; [exact I|].
  constructor; [apply Qle_refl|]. constructor.
Qed.



End Runs.

(** * Further properties *)

(** ** The error classifier, continued *)

Section ErrorClassifierMore.
Import JsString ErrorUtil.

Lemma prefix_spec (p s : string) :
  prefix p s = true <-> exists post, s = p ++ post.
Proof.
  revert s. induction p as [|a p IH]; intros s.
  - split; [intros _; exists s; reflexivity|]. intros _. destruct s; reflexivity.
  - destruct s as [|b s]; cbn.
    + split; [discriminate|]. intros [post H]. discriminate H.
    + destruct (ascii_dec a b) as [->|N].
      * rewrite IH. split; intros [post H]; exists post.
        -- rewrite H. reflexivity.
        -- injection H as H. exact H.
      * split; [discriminate|]. intros [post H]. injection H as H1 H2.
        contradiction N. symmetry. exact H1.
Qed.

Lemma includes_unfold (s p : string) :
  includes s p =
    if prefix p s then true
    else match s with
         | EmptyString => false
         | String _ s' => includes s' p
         end.
Proof. destruct s; reflexivity. Qed.

(** [includes] is the substring test. *)
Lemma includes_spec (s p : string) :
  includes s p = true <-> exists pre post, s = pre ++ p ++ post.
Proof.
  split.
  - induction s as [|c s IH]; rewrite includes_unfold.
    + destruct (prefix p "") eqn:E; [|discriminate]. intros _.
      apply prefix_spec in E. destruct E as [post E]. exists "", post. exact E.
    + destruct (prefix p (String c s)) eqn:E.
      * intros _. apply prefix_spec in E. destruct E as [post E]. exists "", post. exact E.
      * intros H. destruct (IH H) as (pre & post & ->). exists (String c pre), post. reflexivity.
  - intros (pre & post & ->). induction pre as [|c pre IH]; rewrite includes_unfold.
    + assert (E : prefix p ("" ++ p ++ post) = true) by (apply prefix_spec; exists post; reflexivity).
      rewrite E. reflexivity.
    + destruct (prefix p _); [reflexivity|]. exact IH.
Qed.

Lemma sentence_injective (c c' : Category) : sentence c = sentence c' -> c = c'.
Proof. destruct c, c'; intros H; try reflexivity; vm_compute in H; discriminate H. Qed.

Lemma fallback_not_credential (context message : string) :
  (if String.eqb message unknownError then unknownError else contextualized context message)
  <> sentence InvalidCredential.
Proof.
  destruct (String.eqb message unknownError); [vm_compute; discriminate|].
  unfold contextualized. repeat destruct (String.eqb context _); cbn; discriminate.
Qed.

(** X1.  Once a category matches, the answer depends on nothing but the
    lower-cased message: two errors whose messages differ only in the case
    of their letters get the same sentence, whatever the two context tags. *)
Theorem classified_answer_ignores_case_and_context (error1 error2 : JsValue)
  (context1 context2 : string) :
  toLowerCase (extractMessage error1) = toLowerCase (extractMessage error2) ->
  classify (toLowerCase (extractMessage error1)) <> None ->
  getApiErrorMessage error1 context1 = getApiErrorMessage error2 context2.
Proof.
  intros E N. rewrite !getApiErrorMessage_classify, <- E.
  destruct (classify (toLowerCase (extractMessage error1))); [reflexivity|].
  contradiction N. reflexivity.
Qed.

Lemma classified_answer_ignores_case_and_context_witness :
  getApiErrorMessage (VString "RATE LIMIT reached") "start"
  = getApiErrorMessage (VError "Rate limit reached" []) "summary".
Proof.
  apply (classified_answer_ignores_case_and_context
           (VString "RATE LIMIT reached") (VError "Rate limit reached" []) "start" "summary").
  - reflexivity.
  - vm_compute. discriminate.
Defined.

(** X2.  The classifier answers with the sentence about an invalid API key
    exactly when the lower-cased message holds "api key not valid"
    somewhere, whatever else it holds and whatever the context. *)
Theorem invalid_key_sentence_iff (error : JsValue) (context : string) :
  getApiErrorMessage error context = sentence InvalidCredential
  <-> exists pre post,
        toLowerCase (extractMessage error) = pre ++ "api key not valid" ++ post.
Proof.
  rewrite <- includes_spec. split.
  - rewrite getApiErrorMessage_classify.
    destruct (classify (toLowerCase (extractMessage error))) as [c|] eqn:C.
    + intros H. apply sentence_injective in H. subst c.
      apply find_some in C. destruct C as [_ M]. cbn in M.
      rewrite orb_false_r in M. exact M.
    + intros H. contradiction (fallback_not_credential _ _ H).
  - intros H. unfold getApiErrorMessage, describe. rewrite H. reflexivity.
Qed.

(** X3.  When no category matches, the message extracted from the error
    is part of the answer, letter for letter. *)
Theorem unclassified_answer_keeps_message (error : JsValue) (context : string) :
  classify (toLowerCase (extractMessage error)) = None ->
  includes (getApiErrorMessage error context) (extractMessage error) = true.
Proof.
  intros C. rewrite getApiErrorMessage_classify, C. apply includes_spec.
  destruct (String.eqb (extractMessage error) unknownError) eqn:E.
  - apply String.eqb_eq in E. rewrite E. exists "", "". reflexivity.
  - unfold contextualized. destruct (String.eqb context "start").
    + exists "Could not start the interview: ", ".". reflexivity.
    + destruct (String.eqb context "summary").
      * exists "An API error occurred while generating the summary: ", "".
        rewrite append_empty. reflexivity.
      * exists "An API error occurred: ", "". rewrite append_empty. reflexivity.
Qed.

Lemma unclassified_answer_keeps_message_witness :
  includes (getApiErrorMessage (VString "socket hang up") "summary") "socket hang up" = true.
Proof.
  apply (unclassified_answer_keeps_message (VString "socket hang up") "summary").
  reflexivity.
Defined.

End ErrorClassifierMore.

(** ** The summary and the reducer *)

Section SummaryAndReducer.
Import JsString ErrorUtil GeminiService SummaryService App Lifecycle.
Local Open Scope list_scope.

Lemma getApiErrorMessage_nonEmpty (error : JsValue) (context : string) :
  nonEmpty (getApiErrorMessage error context) = true.
Proof.
  rewrite getApiErrorMessage_classify.
  destruct (classify _); [apply sentence_nonEmpty|].
  destruct (String.eqb _ unknownError); [reflexivity|].
  unfold contextualized. repeat destruct (String.eqb context _); reflexivity.
Qed.

(** X4.  The summary settles as the model call does.  If the call fulfils,
    the summary is the text of the response.  If it rejects, the summary
    rejects with an Error whose message is the classifier's sentence for
    the reason under the tag "summary", never the raw reason and never an
    empty text. *)
Theorem summary_rejects_with_classified_error
  (generateContent : string -> Settled SummaryResponse)
  (transcript : list TranscriptEntry) (language : string) :
  (forall response,
     generateContent (summaryPrompt transcript language) = Fulfilled response ->
     generateInterviewSummary generateContent transcript language
     = Fulfilled (responseText response))
  /\ (forall reason,
        generateContent (summaryPrompt transcript language) = Rejected reason ->
        generateInterviewSummary generateContent transcript language
        = Rejected (VError (getApiErrorMessage reason "summary") [])
        /\ nonEmpty (getApiErrorMessage reason "summary") = true).
Proof.
  unfold generateInterviewSummary, tryCatch. split.
  - intros response ->. reflexivity.
  - intros reason ->. split; [reflexivity|apply getApiErrorMessage_nonEmpty].
Qed.

Lemma summary_rejects_with_classified_error_witness :
  generateInterviewSummary overQuota [] "English"
  = Rejected (VError (sentence QuotaRateLimit) []).
Proof.
  exact (proj1 (proj2 (summary_rejects_with_classified_error overQuota [] "English")
                  (VError "429 Resource has been exhausted (e.g. check quota)." []) eq_refl)).
Defined.

Lemma pushIf_appends (who said : string) (entries : list TranscriptEntry) :
  exists added,
    pushIf who said entries = entries ++ added
    /\ Forall (fun e => speaker e = who /\ nonEmpty (text e) = true) added.
Proof.
  unfold pushIf. destruct (nonEmpty said) eqn:E.
  - eexists. split; [reflexivity|]. constructor; [|constructor]. split; [reflexivity|exact E].
  - exists []. rewrite app_nil_r. split; [reflexivity|constructor].
Qed.

(** X5.  But for the three actions that replace it (SET_STATE,
    START_CONNECTING, RESET), no action of the reducer drops or alters an
    entry of the transcript: the old transcript is the beginning of the new
    one, what is added comes from FINALIZE_TURN alone, and every added
    entry is from "You" or "Interviewer" with a text that is not empty. *)
Theorem reducer_only_appends (state : AppState) (action : AppAction) :
  replacesTranscript action = false ->
  exists added,
    transcript (appReducer state action) = transcript state ++ added
    /\ Forall wellFormedEntry added
    /\ (added <> [] -> exists user interviewer, action = FINALIZE_TURN user interviewer).
Proof.
  intros R. destruct action as [p|s l| |u i|u i| |r|m|]; try discriminate R; cbn;
    try (exists []; rewrite app_nil_r; split; [reflexivity|];
         split; [constructor|]; intros H; contradiction H; reflexivity).
  destruct (pushIf_appends "You" u (transcript state)) as (a1 & -> & F1).
  destruct (pushIf_appends "Interviewer" i (transcript state ++ a1)) as (a2 & -> & F2).
  exists (a1 ++ a2). rewrite app_assoc. split; [reflexivity|]. split.
  - apply Forall_app. split.
    + eapply Forall_impl; [|exact F1]. intros e [S N]. split; [left; exact S|exact N].
    + eapply Forall_impl; [|exact F2]. intros e [S N]. split; [right; exact S|exact N].
  - intros _. exists u, i. reflexivity.
Qed.

Lemma reducer_only_appends_witness :
  exists added,
    transcript (appReducer initialState (FINALIZE_TURN "hello" ""))
    = transcript initialState ++ added
    /\ Forall wellFormedEntry added
    /\ (added <> [] -> exists user interviewer,
          FINALIZE_TURN "hello" "" = FINALIZE_TURN user interviewer).
Proof.
  apply (reducer_only_appends initialState (FINALIZE_TURN "hello" "")). reflexivity.
Defined.

End SummaryAndReducer.

(** ** Starting, stopping, resetting *)

Section LifecycleProperties.
Import JsString ErrorUtil GeminiService SummaryService App Lifecycle.
Local Open Scope list_scope.

Lemma cleanupAudio_keeps (w : World) :
  app (cleanupAudio w) = app w
  /\ currentInterviewerTextRef (cleanupAudio w) = currentInterviewerTextRef w
  /\ currentUserTextRef (cleanupAudio w) = currentUserTextRef w
  /\ hasSpokenInTurnRef (segmenter (cleanupAudio w)) = hasSpokenInTurnRef (segmenter w)
  /\ isSilentRef (segmenter (cleanupAudio w)) = isSilentRef (segmenter w).
Proof.
  destruct (cleanupAudio_segmenter w) as [-> _].
  destruct (cancelSilenceTimer_frame w) as (A & _ & _ & I & U & Sp & Si & _).
  rewrite Sp, Si. rewrite <- A, <- I, <- U.
  unfold cleanupAudio.
  cbn [app currentInterviewerTextRef currentUserTextRef withHandles].
  match goal with
  | |- context [clearSources ?x] =>
      destruct (clearSources_frame x) as (A1 & _ & _ & I1 & U1 & _); rewrite A1, I1, U1
  end.
  repeat match goal with
         | |- context [callOn ?r ?e ?x] =>
             let A2 := fresh in let I2 := fresh in let U2 := fresh in
             destruct (callOn_frame r e x) as (A2 & _ & _ & _ & I2 & U2 & _);
             rewrite A2, I2, U2; clear A2 I2 U2
         end.
  destruct (sessionPromise (handles (cancelSilenceTimer w))); repeat split.
Qed.

Lemma startErrorMessage_nonEmpty (err : JsValue) : nonEmpty (startErrorMessage err) = true.
Proof.
  destruct err; cbn [startErrorMessage]; try apply getApiErrorMessage_nonEmpty.
  repeat match goal with
         | |- context [if ?b then _ else _] => destruct b; [reflexivity|]
         end.
  apply getApiErrorMessage_nonEmpty.
Qed.

(** An error is shown and everything is released. *)
Lemma error_then_teardown (message : string) (w : World) :
  let w' := cleanupAudio (dispatch (SET_ERROR message) w) in
  interviewState (app w') = ERROR
  /\ error (app w') = Some message
  /\ transcript (app w') = transcript (app w)
  /\ handles w' = noHandles
  /\ playback w' = {| audioSources := []; nextStartTime := 0 |}
  /\ silenceTimerRef (segmenter w') = None.
Proof.
  cbv zeta.
  destruct (cleanupAudio_keeps (dispatch (SET_ERROR message) w)) as (A & _).
  destruct (cleanupAudio_result (dispatch (SET_ERROR message) w)) as (H & P & R).
  rewrite A, H, P, R. repeat split.
Qed.

(** X6.  Starting with a script that is not blank ends in one of two ways.
    If the API key is set and the microphone is granted, the reducer is
    CONNECTING with the old transcript and error gone, the session, both
    contexts, both gain nodes and the stream are held, the cursor is 0 and
    both turn buffers are empty.  Otherwise the reducer is in ERROR with a
    message that is not empty, and nothing is held: no session, node,
    stream or context, no source, no timer id, cursor 0. *)
Theorem start_holds_all_or_nothing (env : StartEnv) (w : World) :
  trim (script (app w)) <> ""%string ->
  let w' := handleStartConversation env w in
  match apiKey env, getUserMedia env with
  | true, Fulfilled stream =>
      interviewState (app w') = CONNECTING
      /\ error (app w') = None
      /\ transcript (app w') = []
      /\ handles w'
         = {| sessionPromise := Some (connect env);
              inputAudioContext := Some (newInputContext env);
              outputAudioContext := Some (newOutputContext env);
              scriptProcessorNode := scriptProcessorNode (handles w);
              mediaStreamSource := mediaStreamSource (handles w);
              inputGainNode := Some (newInputGain env);
              outputGainNode := Some (newOutputGain env);
              userMediaStream := Some stream |}
      /\ nextStartTime (playback w') = 0
      /\ currentUserTextRef w' = ""%string
      /\ currentInterviewerTextRef w' = ""%string
  | _, _ =>
      interviewState (app w') = ERROR
      /\ (exists message, error (app w') = Some message /\ nonEmpty message = true)
      /\ handles w' = noHandles
      /\ playback w' = {| audioSources := []; nextStartTime := 0 |}
      /\ silenceTimerRef (segmenter w') = None
  end.
Proof.
  intros NB. apply String.eqb_neq in NB. cbv zeta. unfold handleStartConversation.
  rewrite NB. cbv zeta.
  assert (F : forall err x,
             interviewState (app (startFailed err x)) = ERROR
             /\ (exists message, error (app (startFailed err x)) = Some message
                                 /\ nonEmpty message = true)
             /\ handles (startFailed err x) = noHandles
             /\ playback (startFailed err x) = {| audioSources := []; nextStartTime := 0 |}
             /\ silenceTimerRef (segmenter (startFailed err x)) = None).
  { intros err x. destruct (error_then_teardown (startErrorMessage err) x) as (S & E & _ & H & P & R).
    unfold startFailed. rewrite S, H, P, R. repeat split.
    exists (startErrorMessage err). split; [exact E|apply startErrorMessage_nonEmpty]. }
  destruct (apiKey env); cbn [negb].
  - destruct (getUserMedia env) as [stream|err]; [|apply F].
    cbn. repeat split.
  - destruct (getUserMedia env); apply F.
Qed.

Lemma start_holds_all_or_nothing_witness :
  interviewState (app (handleStartConversation denied initialWorld)) = ERROR
  /\ (exists message,
        error (app (handleStartConversation denied initialWorld)) = Some message
        /\ nonEmpty message = true)
  /\ handles (handleStartConversation denied initialWorld) = noHandles
  /\ playback (handleStartConversation denied initialWorld)
     = {| audioSources := []; nextStartTime := 0 |}
  /\ silenceTimerRef (segmenter (handleStartConversation denied initialWorld)) = None.
Proof.
  apply (start_holds_all_or_nothing denied initialWorld). vm_compute. discriminate.
Defined.

Example denied_microphone_text :
  error (app (handleStartConversation denied initialWorld))
  = Some "Microphone access was denied. Please enable microphone permissions for this site in your browser settings and try again."%string.
Proof. reflexivity. Qed.


Lemma finalTranscript_finalized (transcript : list TranscriptEntry) (w : World) :
  finalTranscript transcript w
  = transcript ++ finalized (currentUserTextRef w) (currentInterviewerTextRef w).
Proof. reflexivity. Qed.



(** X10.  When the session opens, the reducer goes to IN_CONVERSATION
    first.  The callback then returns, holding the two new nodes, exactly
    when the input context, the stream and the input gain node are held;
    after a teardown none is, and the callback throws with the reducer in
    IN_CONVERSATION all the same. *)
Theorem onopen_returns_iff_input_held (source processor : Handle) (w : World) :
  interviewState (app (stateOf (onopen source processor w))) = IN_CONVERSATION
  /\ ((exists w', onopen source processor w = Returned w'
                  /\ mediaStreamSource (handles w') = Some source
                  /\ scriptProcessorNode (handles w') = Some processor)
      <-> inputAudioContext (handles w) <> None
          /\ userMediaStream (handles w) <> None
          /\ inputGainNode (handles w) <> None)
  /\ (exists w', onopen source processor (cleanupAudio w) = Threw w').
Proof.
  split; [|split].
  - unfold onopen. cbn.
    destruct (inputAudioContext (handles w)); destruct (userMediaStream (handles w));
      cbn; try reflexivity.
    destruct (inputGainNode (handles w)); reflexivity.
  - unfold onopen. cbn.
    destruct (inputAudioContext (handles w)); destruct (userMediaStream (handles w)); cbn;
      try destruct (inputGainNode (handles w)); split;
      try (intros (w' & E & _); discriminate E);
      try (intros (A & B & C); first [contradiction A; reflexivity
                                     |contradiction B; reflexivity
                                     |contradiction C; reflexivity]).
    + intros _. repeat split; discriminate.
    + intros _. eexists. split; [reflexivity|]. split; reflexivity.
  - unfold onopen. cbn [dispatch withApp handles].
    destruct (cleanupAudio_result w) as (H & _). rewrite H. cbn. eexists. reflexivity.
Qed.

End LifecycleProperties.

(** ** The live session, continued *)

Section LiveSessionMore.
Import JsString ErrorUtil GeminiService SummaryService App Lifecycle.
Local Open Scope list_scope.

Variable Samples : Type.
Variable calculateRMS : Samples -> Q.
Variable decodeAudioData : string -> AudioBuffer.

Abbreviation onaudioprocess := (onaudioprocess Samples calculateRMS).
Abbreviation onmessage := (onmessage decodeAudioData).
Abbreviation playChunk := (playChunk decodeAudioData).
Abbreviation step := (step Samples calculateRMS decodeAudioData).
Abbreviation run := (run Samples calculateRMS decodeAudioData).
Abbreviation chunkDuration := (chunkDuration decodeAudioData).
Abbreviation quietRun := (quietRun Samples calculateRMS).
Abbreviation allAbove := (allAbove Samples calculateRMS).
Abbreviation exec := (exec Samples calculateRMS decodeAudioData).
Abbreviation execAll := (execAll Samples calculateRMS decodeAudioData).
Abbreviation reachable := (reachable Samples calculateRMS decodeAudioData).

(** *** The log of a message *)

(** Either nothing is scheduled, or one new source is, at the end of the set. *)
Lemma playChunk_cases (currentTime : Q) (message : LiveServerMessage) (w : World) :
  let w1 := playChunk currentTime message w in
  let id := nextSourceId (browser w) in
  let start := Qmax (nextStartTime (playback w)) currentTime in
  (playback w1 = playback w /\ browser w1 = browser w)
  \/ (audioChunk message /\ playbackReady w
      /\ nextStartTime (playback w1) = Double.add start (chunkDuration message)
      /\ audioSources (playback w1)
         = (if existsb (Nat.eqb id) (audioSources (playback w))
            then audioSources (playback w) else audioSources (playback w) ++ [id])
      /\ effects (browser w1) = effects (browser w) ++ [SourceStart id start]
      /\ nextSourceId (browser w1) = S id
      /\ timers (browser w1) = timers (browser w)
      /\ nextTimerId (browser w1) = nextTimerId (browser w)).
Proof.
  cbv zeta. unfold App.playChunk, App.chunkDuration, audioChunk, playbackReady.
  destruct (base64AudioOf message) as [b|]; [|left; split; reflexivity].
  destruct (outputAudioContext (handles w)); [|left; split; reflexivity].
  destruct (outputGainNode (handles w)); [|left; split; reflexivity].
  destruct (nonEmpty b) eqn:N; [|left; split; reflexivity].
  right. split; [exists b; split; [reflexivity|exact N]|].
  split; [split; discriminate|].
  cbn. unfold addSource. cbn.
  destruct (existsb _ _); cbn; repeat split.
Qed.

Lemma onTurnComplete_log (message : LiveServerMessage) (w : World) :
  let w' := onTurnComplete message w in
  effects (browser w')
  = effects (browser w)
    ++ (if flag turnComplete message
        then match silenceTimerRef (segmenter w) with
             | Some id => [ClearTimeout id]
             | None => []
             end
        else [])
  /\ nextSourceId (browser w') = nextSourceId (browser w)
  /\ playback w' = playback w
  /\ handles w' = handles w.
Proof.
  cbv zeta. unfold onTurnComplete.
  destruct (flag turnComplete message); [|rewrite app_nil_r; repeat split].
  destruct w as [a h [r hs si] p it ut [tm nt ns ef]].
  destruct r; cbn; rewrite ?app_nil_r; repeat split.
Qed.

Lemma onInterrupted_log (message : LiveServerMessage) (w : World) :
  let w' := onInterrupted message w in
  effects (browser w')
  = effects (browser w)
    ++ (if flag interrupted message then map SourceStop (audioSources (playback w)) else [])
  /\ nextSourceId (browser w') = nextSourceId (browser w)
  /\ playback w'
     = (if flag interrupted message then {| audioSources := []; nextStartTime := 0 |}
        else playback w).
Proof.
  cbv zeta. unfold onInterrupted.
  destruct (flag interrupted message); [|rewrite app_nil_r; repeat split].
  destruct (stopAll_frame (audioSources (playback w)) w) as (_ & _ & _ & _ & _ & _ & _ & _ & N & E).
  unfold clearSources. cbn. rewrite N, E. repeat split.
Qed.

Lemma onmessage_log (currentTime : Q) (message : LiveServerMessage) (w : World) :
  let w1 := playChunk currentTime message w in
  let w' := onmessage currentTime message w in
  effects (browser w')
  = effects (browser w1)
    ++ (if flag interrupted message then map SourceStop (audioSources (playback w1)) else [])
    ++ (if flag turnComplete message
        then match silenceTimerRef (segmenter w) with
             | Some id => [ClearTimeout id]
             | None => []
             end
        else [])
  /\ nextSourceId (browser w') = nextSourceId (browser w1)
  /\ playback w'
     = (if flag interrupted message then {| audioSources := []; nextStartTime := 0 |}
        else playback w1)
  /\ handles w' = handles w.
Proof.
  cbv zeta. unfold App.onmessage.
  destruct (playChunk_frame decodeAudioData currentTime message w)
    as (_ & H1 & S1 & _).
  set (w1 := playChunk currentTime message w) in *. clearbody w1.
  destruct (onInterrupted_log message w1) as (E2 & N2 & P2).
  destruct (onInterrupted_frame message w1) as (_ & H2 & S2 & _).
  set (w2 := onInterrupted message w1) in *. clearbody w2.
  destruct (onTranscriptions_frame message w2) as (H3 & P3 & B3 & R3 & _).
  set (w3 := onTranscriptions message w2) in *. clearbody w3.
  destruct (onTurnComplete_log message w3) as (E4 & N4 & P4 & H4).
  rewrite E4, N4, P4, H4, B3, P3, H3, R3, E2, N2, P2, H2, S2, S1, H1.
  rewrite <- app_assoc. repeat split.
Qed.

Lemma onmessage_handles (currentTime : Q) (message : LiveServerMessage) (w : World) :
  handles (onmessage currentTime message w) = handles w.
Proof. apply onmessage_log. Qed.

Lemma Qmax_left (x y : Q) : y <= x -> Qmax x y = x.
Proof.
  intros H. unfold Qmax, GenericMinMax.gmax. destruct (Qcompare x y) eqn:C; try reflexivity.
  apply Qlt_alt in C. lra.
Qed.

Lemma Qmax_right (x y : Q) : x < y -> Qmax x y = y.
Proof.
  intros H. unfold Qmax, GenericMinMax.gmax. destruct (Qcompare x y) eqn:C; try reflexivity.
  - apply Qeq_alt in C. lra.
  - apply Qgt_alt in C. lra.
Qed.

(** *** Gapless playback *)

(** X11.  Two audio chunks handled one after the other, without an
    interruption, are played back to back.  The first leaves the cursor at
    the double nearest to its start plus its duration; the second source
    is started there if the output clock has not passed that point, and at
    the current output time if it has (the playback had run dry).  It is
    never started before the first one was, and what separates its start
    from the first start plus the first duration is at most the rounding
    of one addition: it is not below that sum by more than [2^-53] of it,
    and if the clock has not passed the cursor, not above it by more. *)
Theorem consecutive_chunks_back_to_back (w : World) (time1 time2 : Q)
  (chunk1 chunk2 : LiveServerMessage) :
  playbackReady w ->
  uninterruptedChunk chunk1 ->
  uninterruptedChunk chunk2 ->
  Double.representable (nextStartTime (playback w)) ->
  Double.representable time1 ->
  let start1 := Qmax (nextStartTime (playback w)) time1 in
  let w1 := onmessage time1 chunk1 w in
  let cursor := nextStartTime (playback w1) in
  let start2 := Qmax cursor time2 in
  let w2 := onmessage time2 chunk2 w1 in
  (exists tail, effects (browser w1)
                = effects (browser w) ++ SourceStart (nextSourceId (browser w)) start1 :: tail)
  /\ (exists tail, effects (browser w2)
                   = effects (browser w1)
                     ++ SourceStart (nextSourceId (browser w1)) start2 :: tail)
  /\ cursor = Double.add start1 (chunkDuration chunk1)
  /\ (time2 <= cursor -> start2 = cursor)
  /\ (cursor < time2 -> start2 = time2)
  /\ start1 <= start2
  /\ (Double.pow2 (-1022) <= start1 + chunkDuration chunk1 ->
      (start1 + chunkDuration chunk1) * (1 - Double.pow2 (-53)) <= start2
      /\ (time2 <= cursor ->
          start2 <= (start1 + chunkDuration chunk1) * (1 + Double.pow2 (-53)))).
Proof.
  intros R C1 C2 Dw Dt start1 w1 cursor start2 w2.
  destruct (onmessage_chunk decodeAudioData time1 chunk1 w R C1)
    as (H1 & N1 & E1).
  fold start1 in N1, E1. fold w1 in H1, N1, E1. fold cursor in N1.
  assert (R1 : playbackReady w1) by (unfold playbackReady; rewrite H1; exact R).
  destruct (onmessage_chunk decodeAudioData time2 chunk2 w1 R1 C2)
    as (_ & _ & E2).
  fold cursor in E2. fold start2 in E2. fold w2 in E2.
  destruct (onmessage_chunk_cursor decodeAudioData time1 chunk1 w R C1 Dw Dt) as [_ G].
  fold start1 in G. fold w1 in G. fold cursor in G.
  pose proof (Q.le_max_l cursor time2) as Mx. fold start2 in Mx.
  split; [exact E1|]. split; [exact E2|]. split; [exact N1|].
  split; [apply Qmax_left|]. split; [apply Qmax_right|].
  split; [eapply Qle_trans; [exact G|exact Mx]|].
  intros Hn. destruct (round_error _ Hn) as [Lo Hi].
  change (Double.round (start1 + chunkDuration chunk1))
    with (Double.add start1 (chunkDuration chunk1)) in Lo, Hi.
  rewrite <- N1 in Lo, Hi. split.
  - eapply Qle_trans; [exact Lo|exact Mx].
  - intros T. unfold start2. rewrite (Qmax_left _ _ T). exact Hi.
Qed.

(** X12.  The chunk that follows an interruption is started at the current
    output time, not in the past: the cursor was put back to 0, and the
    start is the maximum of 0 and the clock.  Its source is then the only
    one in the active set. *)
Theorem chunk_after_interruption_starts_now (w : World) (time0 time : Q)
  (interruption chunk : LiveServerMessage) :
  playbackReady w ->
  flag interrupted interruption = true ->
  uninterruptedChunk chunk ->
  0 <= time ->
  let w0 := onmessage time0 interruption w in
  let w1 := onmessage time chunk w0 in
  exists start tail,
    effects (browser w1)
    = effects (browser w0) ++ SourceStart (nextSourceId (browser w0)) start :: tail
    /\ start == time
    /\ audioSources (playback w1) = [nextSourceId (browser w0)].
Proof.
  intros R I [C NI] T w0 w1.
  destruct (onmessage_log time0 interruption w) as (_ & _ & P0 & H0).
  fold w0 in P0, H0. rewrite I in P0.
  assert (R0 : playbackReady w0) by (unfold playbackReady; rewrite H0; exact R).
  destruct (onmessage_chunk decodeAudioData time chunk w0 R0 (conj C NI))
    as (_ & _ & tail & E).
  fold w1 in E. rewrite P0 in E. cbn [nextStartTime] in E.
  exists (Qmax 0 time), tail. split; [exact E|]. split; [apply Q.max_r, T|].
  destruct (onmessage_log time chunk w0) as (_ & _ & P1 & _). fold w1 in P1.
  rewrite NI in P1. rewrite P1.
  destruct (playChunk_cases time chunk w0) as [[Pp Bp]|(_ & _ & _ & S & _)].
  - exfalso.
    destruct (onmessage_log time chunk w0) as (E' & _). fold w1 in E'.
    rewrite Bp, NI in E'. rewrite E in E'. apply app_inv_head in E'.
    cbn in E'. destruct (flag turnComplete chunk); [destruct (silenceTimerRef _)|];
      discriminate E'.
  - rewrite S, P0. reflexivity.
Qed.

(** *** What is handed to the session *)

Lemma sent_call (e : Effect) (w : World) :
  sent (call e w) = (sent w + if isSend e then 1 else 0)%nat.
Proof.
  unfold sent. cbn. rewrite filter_app, length_app. cbn. destruct (isSend e); reflexivity.
Qed.

Lemma onaudioprocess_sent (x : Samples) (w : World) :
  let w' := onaudioprocess x w in
  handles w' = handles w
  /\ sent w'
     = (sent w
        + if isSilentRef (segmenter w') then 0
          else match sessionPromise (handles w) with
               | Some _ => 1
               | None => 0
               end)%nat.
Proof.
  cbv zeta. unfold App.onaudioprocess.
  destruct w as [a [sp ic oc spn ms ig og us] [r hs si] p it ut [tm nt ns ef]].
  destruct (gt (calculateRMS x) SILENCE_THRESHOLD); cbn;
    destruct r, hs, si, sp; cbn; unfold sent; cbn;
    rewrite ?filter_app, ?length_app; cbn; split; try reflexivity; lia.
Qed.

Lemma sent_same_effects (w w' : World) :
  effects (browser w') = effects (browser w) -> sent w' = sent w.
Proof. unfold sent. intros ->. reflexivity. Qed.

Lemma elapse_sent (dt : N) (w : World) :
  handles (elapse dt w) = handles w /\ sent (elapse dt w) = sent w.
Proof.
  unfold elapse. cbv zeta.
  destruct (filter (fun t => (snd t <=? dt)%N) (timers (browser w))); split; reflexivity.
Qed.

Lemma no_send_in_stops (l : list Handle) : filter isSend (map SourceStop l) = [].
Proof. induction l as [|s l IH]; [reflexivity|exact IH]. Qed.

Lemma onmessage_sent (currentTime : Q) (message : LiveServerMessage) (w : World) :
  sent (onmessage currentTime message w) = sent w.
Proof.
  destruct (onmessage_log currentTime message w) as (E & _). unfold sent. rewrite E.
  rewrite !filter_app, !length_app.
  assert (A : filter isSend
                (if flag interrupted message
                 then map SourceStop (audioSources (playback (playChunk currentTime message w)))
                 else []) = []).
  { destruct (flag interrupted message); [apply no_send_in_stops|reflexivity]. }
  assert (B : filter isSend
                (if flag turnComplete message
                 then match silenceTimerRef (segmenter w) with
                      | Some id => [ClearTimeout id]
                      | None => []
                      end
                 else []) = []).
  { destruct (flag turnComplete message); [|reflexivity].
    destruct (silenceTimerRef (segmenter w)); reflexivity. }
  rewrite A, B. cbn.
  destruct (playChunk_cases currentTime message w) as [[_ Bw]|(_ & _ & _ & _ & Ew & _)].
  - rewrite Bw. lia.
  - rewrite Ew, filter_app, length_app. cbn. lia.
Qed.

(** X13.  While the segmenter is Suspended nothing is handed to the
    session: through any stretch of time in which every block of samples
    is at or below the threshold, the number of blocks sent stays as it
    was and the segmenter stays Suspended. *)
Theorem suspended_sends_nothing (w : World) (events : list (Event Samples)) :
  isSilentRef (segmenter w) = true ->
  quietRun events ->
  sent (run w events) = sent w
  /\ segmentState (run w events) = Suspended.
Proof.
  revert w. induction events as [|e events IH]; intros w Si Q.
  - split; [reflexivity|]. unfold segmentState. cbn. rewrite Si. reflexivity.
  - inversion Q as [|e' l He Hl]; subst.
    assert (N : isSilentRef (segmenter (step w e)) = true /\ sent (step w e) = sent w).
    { destruct e as [x|t m|dt|src|]; try contradiction; cbn [App.step].
      - destruct (onaudioprocess_not_above Samples calculateRMS x w He) as (Si' & _).
        destruct (onaudioprocess_sent x w) as (_ & S). rewrite Si', Si in S.
        split; [rewrite Si'; exact Si|]. rewrite S. lia.
      - destruct (elapse_frame dt w) as (_ & _ & _ & _ & _ & Si').
        destruct (elapse_sent dt w) as (_ & S). split; [|exact S].
        rewrite Si'. destruct (filter _ _); [exact Si|reflexivity]. }
    destruct N as [Si' S']. destruct (IH _ Si' Hl) as [A B].
    change (run w (e :: events)) with (run (step w e) events).
    rewrite A, S'. split; [reflexivity|exact B].
Qed.

Lemma step_handles (w : World) (e : Event Samples) :
  match e with Cleanup => False | _ => True end ->
  handles (step w e) = handles w.
Proof.
  destruct e as [x|t m|dt|src|]; cbn [App.step]; intros H; try contradiction.
  - apply onaudioprocess_sent.
  - apply onmessage_handles.
  - apply elapse_sent.
  - reflexivity.
Qed.

(** X14.  As long as a session is held, every block of samples whose
    energy is above the threshold is handed to it, once: over any run
    without a teardown in which all blocks are above the threshold, the
    number of blocks sent grows by the number of blocks handled, whatever
    the state at the start, Suspended included. *)
Theorem loud_blocks_are_all_sent (w : World) (events : list (Event Samples)) :
  sessionPromise (handles w) <> None ->
  allAbove events ->
  noCleanup Samples events ->
  sent (run w events) = (sent w + blocks Samples events)%nat.
Proof.
  revert w. induction events as [|e events IH]; intros w S A C.
  - cbn. lia.
  - inversion A as [|e1 l1 He Hl]; subst. inversion C as [|e2 l2 Hc Hcl]; subst.
    assert (S' : sessionPromise (handles (step w e)) <> None)
      by (rewrite (step_handles w e Hc); exact S).
    change (run w (e :: events)) with (run (step w e) events).
    rewrite (IH _ S' Hl Hcl).
    destruct e as [x|t m|dt|src|]; cbn [App.step blocks]; try contradiction.
    + destruct (onaudioprocess_above Samples calculateRMS x w He) as (Si & _).
      destruct (onaudioprocess_sent x w) as (_ & E). rewrite Si in E. rewrite E.
      destruct (sessionPromise (handles w)); [lia|contradiction S; reflexivity].
    + rewrite onmessage_sent. reflexivity.
    + destruct (elapse_sent dt w) as (_ & E). rewrite E. reflexivity.
    + reflexivity.
Qed.

(** *** The silence timer *)

Lemma not_spoken_no_timer (w : World) :
  consistent w -> hasSpokenInTurnRef (segmenter w) = false -> timers (browser w) = [].
Proof.
  intros (_ & Sp & _) H. destruct (timers (browser w)) as [|t l]; [reflexivity|].
  rewrite Sp in H; [discriminate H|discriminate].
Qed.

(** X15.  The energy of the samples alone never switches sending off.  In
    a turn in which no transcription of the user has arrived yet, with
    sending on, let any blocks of samples arrive, loud or silent, over any
    length of time: no silence timer is ever started, the segmenter is
    never Suspended, and, a session being held, every block is sent. *)
Theorem energy_alone_never_suspends (w : World) (events : list (Event Samples)) :
  consistent w ->
  hasSpokenInTurnRef (segmenter w) = false ->
  isSilentRef (segmenter w) = false ->
  captureOnly Samples events ->
  timers (browser (run w events)) = []
  /\ segmentState (run w events) = Idle
  /\ (sessionPromise (handles w) <> None ->
      sent (run w events) = (sent w + blocks Samples events)%nat).
Proof.
  revert w. induction events as [|e events IH]; intros w C Sp Si Q.
  - pose proof (not_spoken_no_timer w C Sp) as T. cbn. split; [exact T|]. split; [|lia].
    unfold segmentState, timerPending. rewrite Si, Sp, T.
    destruct (silenceTimerRef (segmenter w)); reflexivity.
  - inversion Q as [|e' l He Hl]; subst.
    pose proof (step_consistent Samples calculateRMS decodeAudioData w e C) as C'.
    assert (N : hasSpokenInTurnRef (segmenter (step w e)) = false
                /\ isSilentRef (segmenter (step w e)) = false
                /\ handles (step w e) = handles w
                /\ (sessionPromise (handles w) <> None ->
                    sent (step w e)
                    = (sent w + match e with AudioProcess _ => 1 | _ => 0 end)%nat)).
    { destruct e as [x|t m|dt|src|]; try contradiction; cbn [App.step].
      - destruct (onaudioprocess_sent x w) as (H & S).
        destruct (Qlt_le_dec SILENCE_THRESHOLD (calculateRMS x)) as [A|B].
        + destruct (onaudioprocess_above Samples calculateRMS x w A) as (Si' & _ & Sp' & _).
          rewrite Si' in S. rewrite Sp', Sp. repeat split; try assumption.
          intros Hs. rewrite S. destruct (sessionPromise (handles w)); [reflexivity|].
          contradiction Hs. reflexivity.
        + destruct (onaudioprocess_not_above Samples calculateRMS x w B) as (Si' & Sp' & _).
          rewrite Si', Si in S. rewrite Si', Sp', Sp, Si. repeat split; try assumption.
          intros Hs. rewrite S. destruct (sessionPromise (handles w)); [reflexivity|].
          contradiction Hs. reflexivity.
      - destruct (elapse_frame dt w) as (_ & Sp' & _ & _ & _ & Si').
        destruct (elapse_sent dt w) as (H & S).
        rewrite (not_spoken_no_timer w C Sp) in Si'. cbn in Si'.
        rewrite Si', Sp', Sp, Si, S. repeat split; try assumption. intros _. lia. }
    destruct N as (Sp' & Si' & H' & S').
    destruct (IH _ C' Sp' Si' Hl) as (T & St & Sn).
    change (run w (e :: events)) with (run (step w e) events).
    split; [exact T|]. split; [exact St|]. intros Hs.
    rewrite Sn by (rewrite H'; exact Hs). rewrite (S' Hs).
    destruct e; cbn [blocks]; lia.
Qed.

(** X16.  Only two things in an inbound message reach the segmenter: the
    turn-complete flag and a transcription of the user.  A message with
    neither (an audio chunk, a transcription of the interviewer, an
    interruption) leaves the three refs of the silence detection and the
    waiting timers as they are. *)
Theorem other_messages_leave_segmenter (currentTime : Q) (message : LiveServerMessage)
  (w : World) :
  flag turnComplete message = false ->
  transcriptionOf inputTranscription message = None ->
  segmenter (onmessage currentTime message w) = segmenter w
  /\ timers (browser (onmessage currentTime message w)) = timers (browser w).
Proof.
  intros F I. unfold App.onmessage.
  destruct (playChunk_frame decodeAudioData currentTime message w) as (_ & _ & S1 & _ & _ & T1 & _).
  set (w1 := playChunk currentTime message w) in *. clearbody w1.
  destruct (onInterrupted_frame message w1) as (_ & _ & S2 & _ & _ & T2 & _).
  set (w2 := onInterrupted message w1) in *. clearbody w2.
  unfold onTurnComplete. rewrite F. unfold onTranscriptions. rewrite I.
  destruct (transcriptionOf outputTranscription message); cbn; rewrite S2, S1, T2, T1;
    split; reflexivity.
Qed.

Lemma onaudioprocess_above_timer_id (x : Samples) (w : World) :
  SILENCE_THRESHOLD < calculateRMS x ->
  nextTimerId (browser (onaudioprocess x w)) = nextTimerId (browser w).
Proof.
  intros H. unfold App.onaudioprocess. rewrite (gt_true _ _ H).
  destruct w as [a [sp ic oc spn ms ig og us] [r hs si] p it ut [tm nt ns ef]].
  destruct r, sp; reflexivity.
Qed.

(** X17.  A pause that is broken by speech starts over: in PendingSilence,
    however little time the timer has left, a block of samples above the
    threshold followed by one that is not leaves a new timer waiting with
    the full 1500 ms. *)
Theorem pause_broken_by_speech_starts_over (w : World) (loud quiet : Samples) :
  consistent w ->
  segmentState w = PendingSilence ->
  SILENCE_THRESHOLD < calculateRMS loud ->
  calculateRMS quiet <= SILENCE_THRESHOLD ->
  let w' := onaudioprocess quiet (onaudioprocess loud w) in
  timers (browser w') = [(nextTimerId (browser w), SILENCE_DURATION_MS)]
  /\ silenceTimerRef (segmenter w') = Some (nextTimerId (browser w))
  /\ segmentState w' = PendingSilence.
Proof.
  intros C P L Qt w'. subst w'.
  pose proof (pending_has_spoken w C P) as Sp.
  destruct (onaudioprocess_above Samples calculateRMS loud w L) as (Si1 & R1 & Sp1 & T1).
  specialize (T1 C). pose proof (onaudioprocess_above_timer_id loud w L) as N1.
  set (w1 := onaudioprocess loud w) in *. clearbody w1.
  destruct (onaudioprocess_not_above Samples calculateRMS quiet w1 Qt) as (Si2 & _ & _ & _ & M).
  rewrite Sp1, Sp, R1 in M. destruct M as [R2 T2]. rewrite T1, N1 in T2. rewrite N1 in R2.
  split; [exact T2|]. split; [exact R2|].
  unfold segmentState, timerPending. rewrite Si2, Si1, R2, T2. cbn.
  rewrite Pos.eqb_refl. reflexivity.
Qed.

(** *** The turn buffers *)

Lemma onTranscriptions_mirror (message : LiveServerMessage) (w : World) :
  currentUserText (app (onTranscriptions message w))
  = currentUserTextRef (onTranscriptions message w)
  /\ currentInterviewerText (app (onTranscriptions message w))
     = currentInterviewerTextRef (onTranscriptions message w).
Proof.
  unfold onTranscriptions.
  destruct (transcriptionOf outputTranscription message);
    destruct (transcriptionOf inputTranscription message) as [i|]; cbn;
    try destruct (nonEmpty (trim i)); cbn; split; reflexivity.
Qed.

(** X18.  After every inbound message, whatever it holds and whatever the
    state before, the text in progress that the reducer shows for each
    speaker is exactly the turn buffer of that speaker. *)
Theorem shown_text_is_the_buffer (currentTime : Q) (message : LiveServerMessage) (w : World) :
  let w' := onmessage currentTime message w in
  currentUserText (app w') = currentUserTextRef w'
  /\ currentInterviewerText (app w') = currentInterviewerTextRef w'.
Proof.
  cbv zeta. unfold App.onmessage.
  set (w2 := onInterrupted message (playChunk currentTime message w)). clearbody w2.
  destruct (onTranscriptions_mirror message w2) as [U I].
  set (w3 := onTranscriptions message w2) in *. clearbody w3.
  destruct (flag turnComplete message) eqn:F.
  - destruct (onTurnComplete_result message w3 F)
      as (_ & _ & _ & _ & _ & _ & _ & -> & -> & -> & ->). split; reflexivity.
  - unfold onTurnComplete. rewrite F. split; assumption.
Qed.

Lemma trimEnd_blank (s : string) : trimEnd s = ""%string <-> blank s = true.
Proof.
  induction s as [|c s IH]; cbn; [split; reflexivity|].
  destruct (trimEnd s) eqn:E.
  - destruct (is_space c); cbn.
    + rewrite <- IH. split; reflexivity.
    + split; discriminate.
  - split; [discriminate|]. intros H. apply andb_true_iff in H. destruct H as [_ H].
    apply IH in H. discriminate H.
Qed.

Lemma trimStart_blank (s : string) : blank (trimStart s) = blank s.
Proof.
  induction s as [|c s IH]; cbn; [reflexivity|].
  destruct (is_space c) eqn:E; cbn; [exact IH|]. rewrite E. reflexivity.
Qed.

Lemma trim_blank (s : string) : nonEmpty (trim s) = false <-> blank s = true.
Proof.
  unfold trim. rewrite <- trimStart_blank, <- trimEnd_blank.
  destruct (trimEnd (trimStart s)); cbn; split; try reflexivity; discriminate.
Qed.

Lemma finalized_nil (user interviewer : string) :
  finalized user interviewer = [] <-> blank user = true /\ blank interviewer = true.
Proof.
  rewrite <- !trim_blank. unfold finalized.
  destruct (nonEmpty (trim user)); destruct (nonEmpty (trim interviewer)); cbn;
    split; try discriminate; try (intros [A B]; discriminate); auto.
Qed.

(** X19.  A turn-complete event leaves the transcript as it is exactly
    when both turn buffers, with what the event itself adds to them, hold
    nothing but white space; any other turn makes the transcript longer. *)
Theorem blank_turn_adds_nothing (currentTime : Q) (message : LiveServerMessage) (w : World) :
  flag turnComplete message = true ->
  let user := (currentUserTextRef w ++ delta inputTranscription message)%string in
  let interviewer :=
    (currentInterviewerTextRef w ++ delta outputTranscription message)%string in
  let w' := onmessage currentTime message w in
  (transcript (app w') = transcript (app w)
   <-> blank user = true /\ blank interviewer = true)
  /\ (length (transcript (app w)) <= length (transcript (app w')))%nat.
Proof.
  intros F user interviewer w'. subst w'. unfold App.onmessage.
  destruct (playChunk_frame decodeAudioData currentTime message w) as (A1 & _ & _ & I1 & U1 & _).
  set (w1 := playChunk currentTime message w) in *. clearbody w1.
  destruct (onInterrupted_frame message w1) as (A2 & _ & _ & I2 & U2 & _).
  set (w2 := onInterrupted message w1) in *. clearbody w2.
  destruct (onTranscriptions_frame message w2) as (_ & _ & _ & _ & _ & _ & T3 & I3 & U3).
  set (w3 := onTranscriptions message w2) in *. clearbody w3.
  destruct (onTurnComplete_result message w3 F) as (_ & _ & _ & _ & _ & _ & T4 & _).
  rewrite T4, T3, I3, U3, A2, A1, I2, I1, U2, U1. fold user interviewer.
  rewrite <- finalized_nil. split.
  - split.
    + intros H. rewrite <- (app_nil_r (transcript (app w))) in H at 2.
      apply app_inv_head in H. exact H.
    + intros ->. apply app_nil_r.
  - rewrite length_app. lia.
Qed.

(** *** What holds in every state the component can be in *)

Lemma reachable_ind (P : World -> Prop) :
  P initialWorld ->
  (forall w c, P w -> P (exec w c)) ->
  forall w, reachable w -> P w.
Proof.
  intros P0 Pstep w [commands ->].
  assert (G : forall cs w0, P w0 -> P (execAll w0 cs)).
  { induction cs as [|c cs IH]; intros w0 H; [exact H|]. apply IH, Pstep, H. }
  apply G, P0.
Qed.

Lemma cleanupAudio_consistent (w : World) : consistent w -> consistent (cleanupAudio w).
Proof. apply (step_consistent Samples calculateRMS decodeAudioData w Cleanup). Qed.

Lemma exec_consistent (w : World) (c : Command Samples) :
  consistent w -> consistent (exec w c).
Proof.
  intros C. destruct c as [env|b|src prc|e|err|gc|]; cbn [Lifecycle.exec].
  - unfold handleStartConversation.
    destruct (String.eqb _ _); [exact C|]. cbv zeta.
    destruct (apiKey env); cbn [negb]; [|apply cleanupAudio_consistent; exact C].
    destruct (getUserMedia env); [exact C|apply cleanupAudio_consistent; exact C].
  - unfold onWelcomeAudio.
    destruct (outputAudioContext (handles w)); [|exact C].
    destruct (outputGainNode (handles w)); [|exact C].
    destruct (nonEmpty b); exact C.
  - unfold onopen. cbv zeta. cbn [dispatch withApp handles].
    destruct (inputAudioContext (handles w)); [|exact C].
    destruct (userMediaStream (handles w)); [|exact C].
    cbn. destruct (inputGainNode (handles w)); exact C.
  - apply step_consistent, C.
  - apply cleanupAudio_consistent. exact C.
  - unfold handleStopConversation. cbv zeta.
    pose proof (cleanupAudio_consistent w C) as C'.
    destruct (generateInterviewSummary _ _ _); exact C'.
  - exact (cleanupAudio_consistent w C).
Qed.

Lemma onaudioprocess_keeps (x : Samples) (w : World) :
  app (onaudioprocess x w) = app w
  /\ playback (onaudioprocess x w) = playback w
  /\ nextSourceId (browser (onaudioprocess x w)) = nextSourceId (browser w)
  /\ exists tail,
       effects (browser (onaudioprocess x w)) = effects (browser w) ++ tail
       /\ Forall (fun e => sourceOf e = None) tail.
Proof.
  unfold App.onaudioprocess.
  destruct w as [a [sp ic oc spn ms ig og us] [r hs si] p it ut [tm nt ns ef]].
  destruct (gt (calculateRMS x) SILENCE_THRESHOLD); cbn;
    destruct r, hs, si, sp; cbn; rewrite <- ?app_assoc; repeat split;
    first [exists []; rewrite app_nil_r; split; [reflexivity|constructor]
          |eexists; split; [reflexivity|repeat constructor]].
Qed.

Lemma step_cursor (w : World) (e : Event Samples) :
  0 <= nextStartTime (playback w) -> 0 <= nextStartTime (playback (step w e)).
Proof.
  intros Z. destruct e as [x|t m|dt|src|]; cbn [App.step].
  - destruct (onaudioprocess_keeps x w) as (_ & -> & _). exact Z.
  - destruct (onmessage_log t m w) as (_ & _ & -> & _).
    destruct (flag interrupted m); [apply Qle_refl|].
    destruct (playChunk_cases t m w) as [[-> _]|(_ & _ & -> & _)]; [exact Z|].
    pose proof (Q.le_max_l (nextStartTime (playback w)) t).
    pose proof (chunkDuration_nonneg decodeAudioData m).
    apply add_nonneg. lra.
  - destruct (elapse_frame dt w) as (_ & _ & -> & _). exact Z.
  - exact Z.
  - destruct (cleanupAudio_result w) as (_ & -> & _). apply Qle_refl.
Qed.

Lemma exec_cursor (w : World) (c : Command Samples) :
  0 <= nextStartTime (playback w) -> 0 <= nextStartTime (playback (exec w c)).
Proof.
  intros Z.
  assert (K : forall x, 0 <= nextStartTime (playback (cleanupAudio x))).
  { intros x. destruct (cleanupAudio_result x) as (_ & -> & _). apply Qle_refl. }
  destruct c as [env|b|src prc|e|err|gc|]; cbn [Lifecycle.exec].
  - unfold handleStartConversation.
    destruct (String.eqb _ _); [exact Z|]. cbv zeta.
    destruct (apiKey env); cbn [negb]; [|apply K].
    destruct (getUserMedia env); [apply Qle_refl|apply K].
  - unfold onWelcomeAudio.
    destruct (outputAudioContext (handles w)); [|exact Z].
    destruct (outputGainNode (handles w)); [|exact Z].
    destruct (nonEmpty b); exact Z.
  - unfold onopen. cbv zeta. cbn [dispatch withApp handles].
    destruct (inputAudioContext (handles w)); [|exact Z].
    destruct (userMediaStream (handles w)); [|exact Z].
    cbn. destruct (inputGainNode (handles w)); exact Z.
  - apply step_cursor, Z.
  - apply K.
  - unfold handleStopConversation. cbv zeta.
    destruct (generateInterviewSummary _ _ _); apply K.
  - apply K.
Qed.

(** X20.  In every state the component can reach from its first render,
    by any sequence of starts, welcome audio, session openings, audio
    blocks, inbound messages, timer expiries, ended sources, session
    errors, stops and resets, the only timeout waiting is the one whose id
    [silenceTimerRef] holds, a timeout waits only in a turn in which the
    user has spoken, and the timeline cursor is not negative. *)
Theorem reachable_states_are_consistent (w : World) :
  reachable w -> consistent w /\ 0 <= nextStartTime (playback w).
Proof.
  apply (reachable_ind (fun w => consistent w /\ 0 <= nextStartTime (playback w))).
  - split; [apply initialWorld_consistent|apply Qle_refl].
  - intros w0 c [C Z]. split; [apply exec_consistent, C|apply exec_cursor, Z].
Qed.

(** *** The active set *)

Lemma tracked_moved (w w' : World) :
  tracked w ->
  audioSources (playback w') = audioSources (playback w) ->
  browser w' = browser w ->
  tracked w'.
Proof. unfold tracked. intros T -> ->. exact T. Qed.

Lemma tracked_logged (w w' : World) (tail : list Effect) :
  tracked w ->
  audioSources (playback w') = audioSources (playback w) ->
  nextSourceId (browser w') = nextSourceId (browser w) ->
  effects (browser w') = effects (browser w) ++ tail ->
  Forall (fun e => sourceOf e = None) tail ->
  tracked w'.
Proof.
  unfold tracked. intros (ND & St & Lt & Ef) -> -> -> F.
  rewrite Forall_forall in F.
  split; [exact ND|]. split; [|split; [exact Lt|]].
  - intros s Hs. destruct (St s Hs) as [[t Ht] Hn]. split.
    + exists t. apply in_or_app. left. exact Ht.
    + intros H. apply in_app_or in H. destruct H as [H|H]; [exact (Hn H)|].
      apply F in H. discriminate H.
  - intros e s He Hs. apply in_app_or in He. destruct He as [He|He]; [exact (Ef e s He Hs)|].
    apply F in He. rewrite He in Hs. discriminate Hs.
Qed.

Lemma tracked_cleared (w w' : World) (tail : list Effect) :
  tracked w ->
  audioSources (playback w') = [] ->
  nextSourceId (browser w') = nextSourceId (browser w) ->
  effects (browser w') = effects (browser w) ++ tail ->
  (forall e s, In e tail -> sourceOf e = Some s -> In s (audioSources (playback w))) ->
  tracked w'.
Proof.
  unfold tracked. intros (ND & St & Lt & Ef) -> -> -> F.
  split; [constructor|]. split; [intros s []|]. split; [intros s []|].
  intros e s He Hs. apply in_app_or in He. destruct He as [He|He]; [exact (Ef e s He Hs)|].
  apply Lt. exact (F e s He Hs).
Qed.

Lemma tracked_started (w w' : World) (when : Q) :
  tracked w ->
  audioSources (playback w') = audioSources (playback w)
  \/ audioSources (playback w') = audioSources (playback w) ++ [nextSourceId (browser w)] ->
  nextSourceId (browser w') = S (nextSourceId (browser w)) ->
  effects (browser w')
  = effects (browser w) ++ [SourceStart (nextSourceId (browser w)) when] ->
  tracked w'.
Proof.
  unfold tracked. intros (ND & St & Lt & Ef) A -> ->.
  set (id := nextSourceId (browser w)) in *.
  assert (Old : forall s, In s (audioSources (playback w)) ->
                  ((exists t, In (SourceStart s t) (effects (browser w) ++ [SourceStart id when]))
                   /\ ~ In (SourceStop s) (effects (browser w) ++ [SourceStart id when]))
                  /\ (s < S id)%nat).
  { intros s Hs. destruct (St s Hs) as [[t Ht] Hn]. split; [split|].
    - exists t. apply in_or_app. left. exact Ht.
    - intros H. apply in_app_or in H. destruct H as [H|[H|[]]]; [exact (Hn H)|discriminate H].
    - specialize (Lt s Hs). lia. }
  assert (E : forall e s, In e (effects (browser w) ++ [SourceStart id when]) ->
                sourceOf e = Some s -> (s < S id)%nat).
  { intros e s He Hs. apply in_app_or in He. destruct He as [He|[<-|[]]].
    - specialize (Ef e s He Hs). lia.
    - injection Hs as <-. lia. }
  destruct A as [->| ->].
  - split; [exact ND|]. split; [intros s Hs; apply Old, Hs|].
    split; [intros s Hs; apply Old, Hs|exact E].
  - split; [|split; [|split; [|exact E]]].
    + apply NoDup_app; [exact ND|constructor; [intros []|constructor]|].
      intros s Hs [Heq|[]]. specialize (Lt s Hs). rewrite <- Heq in Lt. lia.
    + intros s Hs. apply in_app_or in Hs. destruct Hs as [Hs|[<-|[]]]; [apply Old, Hs|].
      split.
      * exists when. apply in_or_app. right. left. reflexivity.
      * intros H. apply in_app_or in H. destruct H as [H|[H|[]]]; [|discriminate H].
        specialize (Ef _ id H eq_refl). lia.
    + intros s Hs. apply in_app_or in Hs. destruct Hs as [Hs|[<-|[]]]; [apply Old, Hs|lia].
Qed.

Lemma callOn_log (ref : option Handle) (e : Handle -> Effect) (w : World) :
  effects (browser (callOn ref e w))
  = effects (browser w) ++ match ref with Some h => [e h] | None => [] end
  /\ nextSourceId (browser (callOn ref e w)) = nextSourceId (browser w)
  /\ playback (callOn ref e w) = playback w.
Proof. destruct ref; cbn; rewrite ?app_nil_r; repeat split. Qed.

Lemma cancelSilenceTimer_log (w : World) :
  effects (browser (cancelSilenceTimer w))
  = effects (browser w)
    ++ match silenceTimerRef (segmenter w) with Some id => [ClearTimeout id] | None => [] end
  /\ nextSourceId (browser (cancelSilenceTimer w)) = nextSourceId (browser w)
  /\ playback (cancelSilenceTimer w) = playback w.
Proof.
  unfold cancelSilenceTimer.
  destruct (silenceTimerRef (segmenter w)); cbn; rewrite ?app_nil_r; repeat split.
Qed.

Lemma optional_call_not_source (ref : option Handle) (e : Handle -> Effect) :
  (forall h, sourceOf (e h) = None) ->
  Forall (fun x => sourceOf x = None) match ref with Some h => [e h] | None => [] end.
Proof. intros H. destruct ref; repeat constructor. apply H. Qed.

(** What a teardown adds to the log: calls on the refs it holds, and a stop
    for each source of the active set. *)
Lemma cleanupAudio_log (w : World) :
  nextSourceId (browser (cleanupAudio w)) = nextSourceId (browser w)
  /\ exists tail,
       effects (browser (cleanupAudio w)) = effects (browser w) ++ tail
       /\ forall e s, In e tail -> sourceOf e = Some s -> In s (audioSources (playback w)).
Proof.
  unfold cleanupAudio. cbn [browser withHandles].
  destruct (cancelSilenceTimer_log w) as (E0 & N0 & P0).
  set (w0 := cancelSilenceTimer w) in *. clearbody w0.
  set (h := handles w0).
  assert (S1 : exists w1,
             w1 = match sessionPromise h with
                  | Some session =>
                      withHandles
                        {| sessionPromise := None; inputAudioContext := inputAudioContext h;
                           outputAudioContext := outputAudioContext h;
                           scriptProcessorNode := scriptProcessorNode h;
                           mediaStreamSource := mediaStreamSource h;
                           inputGainNode := inputGainNode h;
                           outputGainNode := outputGainNode h;
                           userMediaStream := userMediaStream h |}
                        (call (SessionClose session) w0)
                  | None => w0
                  end
             /\ effects (browser w1)
                = effects (browser w0)
                  ++ match sessionPromise h with Some s => [SessionClose s] | None => [] end
             /\ nextSourceId (browser w1) = nextSourceId (browser w0)
             /\ playback w1 = playback w0).
  { eexists. split; [reflexivity|].
    destruct (sessionPromise h); cbn; rewrite ?app_nil_r; repeat split. }
  destruct S1 as (w1 & <- & E1 & N1 & P1). clearbody h.
  destruct (callOn_log (scriptProcessorNode h) Disconnect w1) as (E2 & N2 & P2).
  set (w2 := callOn (scriptProcessorNode h) Disconnect w1) in *. clearbody w2.
  destruct (callOn_log (mediaStreamSource h) Disconnect w2) as (E3 & N3 & P3).
  set (w3 := callOn (mediaStreamSource h) Disconnect w2) in *. clearbody w3.
  destruct (callOn_log (inputGainNode h) Disconnect w3) as (E4 & N4 & P4).
  set (w4 := callOn (inputGainNode h) Disconnect w3) in *. clearbody w4.
  destruct (callOn_log (outputGainNode h) Disconnect w4) as (E5 & N5 & P5).
  set (w5 := callOn (outputGainNode h) Disconnect w4) in *. clearbody w5.
  destruct (callOn_log (userMediaStream h) TracksStop w5) as (E6 & N6 & P6).
  set (w6 := callOn (userMediaStream h) TracksStop w5) in *. clearbody w6.
  destruct (callOn_log (inputAudioContext h) ContextClose w6) as (E7 & N7 & P7).
  set (w7 := callOn (inputAudioContext h) ContextClose w6) in *. clearbody w7.
  destruct (callOn_log (outputAudioContext h) ContextClose w7) as (E8 & N8 & P8).
  set (w8 := callOn (outputAudioContext h) ContextClose w7) in *. clearbody w8.
  destruct (stopAll_frame (audioSources (playback w8)) w8)
    as (_ & _ & _ & _ & _ & _ & _ & _ & N9 & E9).
  unfold clearSources. cbn [browser setNextStartTime setAudioSources withPlayback].
  rewrite N9, E9, N8, E8, N7, E7, N6, E6, N5, E5, N4, E4, N3, E3, N2, E2, N1, E1, N0, E0.
  rewrite P8, P7, P6, P5, P4, P3, P2, P1, P0.
  split; [reflexivity|]. rewrite <- !app_assoc. eexists. split; [reflexivity|].
  intros e s He Hs.
  assert (Q : forall l, Forall (fun x => sourceOf x = None) l -> In e l -> False).
  { intros l F H. rewrite Forall_forall in F. apply F in H. rewrite H in Hs. discriminate Hs. }
  repeat (apply in_app_or in He; destruct He as [He|He];
          [exfalso; revert He; apply Q;
           first [apply optional_call_not_source; intros; reflexivity
                 |destruct (silenceTimerRef (segmenter w)); repeat constructor
                 |destruct (sessionPromise h); repeat constructor]|]).
  apply in_map_iff in He. destruct He as (s' & <- & Hin). injection Hs as <-. exact Hin.
Qed.

Lemma cleanupAudio_tracked (w : World) : tracked w -> tracked (cleanupAudio w).
Proof.
  intros T. destruct (cleanupAudio_log w) as (N & tail & E & F).
  destruct (cleanupAudio_result w) as (_ & P & _).
  apply (tracked_cleared w _ tail T); [rewrite P; reflexivity|exact N|exact E|exact F].
Qed.

Lemma tracked_ended (source : Handle) (w : World) : tracked w -> tracked (onended source w).
Proof.
  unfold tracked, onended. cbn. intros (ND & St & Lt & Ef).
  split; [apply NoDup_filter, ND|]. split; [|split; [|exact Ef]].
  - intros s Hs. apply filter_In in Hs. apply St, Hs.
  - intros s Hs. apply filter_In in Hs. apply Lt, Hs.
Qed.

Lemma tracked_same_log (w w' : World) :
  tracked w ->
  audioSources (playback w') = audioSources (playback w) ->
  nextSourceId (browser w') = nextSourceId (browser w) ->
  effects (browser w') = effects (browser w) ->
  tracked w'.
Proof.
  intros T A N E. apply (tracked_logged w w' [] T A N); [|constructor].
  rewrite app_nil_r. exact E.
Qed.

Lemma step_tracked (w : World) (e : Event Samples) : tracked w -> tracked (step w e).
Proof.
  intros T. destruct e as [x|t m|dt|src|]; cbn [App.step].
  - destruct (onaudioprocess_keeps x w) as (_ & P & N & tail & E & F).
    apply (tracked_logged w _ tail T); [rewrite P; reflexivity|exact N|exact E|exact F].
  - destruct (onmessage_log t m w) as (E & N & P & _).
    assert (T1 : tracked (playChunk t m w)).
    { destruct (playChunk_cases t m w) as [[P1 B1]|(_ & _ & _ & S1 & E1 & N1 & _)].
      - apply (tracked_moved w _ T); [rewrite P1; reflexivity|exact B1].
      - eapply (tracked_started w); [exact T| |exact N1|exact E1].
        rewrite S1. destruct (existsb _ _); [left|right]; reflexivity. }
    set (w1 := playChunk t m w) in *. clearbody w1.
    set (ct := if flag turnComplete m
               then match silenceTimerRef (segmenter w) with
                    | Some id => [ClearTimeout id]
                    | None => []
                    end
               else []) in *.
    assert (Fct : Forall (fun x => sourceOf x = None) ct).
    { unfold ct. destruct (flag turnComplete m); [|constructor].
      destruct (silenceTimerRef (segmenter w)); repeat constructor. }
    destruct (flag interrupted m).
    + eapply (tracked_cleared w1); [exact T1|rewrite P; reflexivity|exact N|exact E|].
      intros e s He Hs. apply in_app_or in He. destruct He as [He|He].
      * apply in_map_iff in He. destruct He as (s' & <- & Hin). injection Hs as <-. exact Hin.
      * rewrite Forall_forall in Fct. apply Fct in He. rewrite He in Hs. discriminate Hs.
    + apply (tracked_logged w1 _ ct T1); [rewrite P; reflexivity|exact N|exact E|exact Fct].
  - apply (tracked_same_log w _ T).
    + destruct (elapse_frame dt w) as (_ & _ & -> & _). reflexivity.
    + unfold elapse. cbv zeta. destruct (filter _ _); reflexivity.
    + unfold elapse. cbv zeta. destruct (filter _ _); reflexivity.
  - apply tracked_ended, T.
  - apply cleanupAudio_tracked, T.
Qed.

Lemma initialWorld_tracked : tracked initialWorld.
Proof.
  unfold tracked. cbn. split; [constructor|]. split; [intros s []|].
  split; [intros s []|intros e s []].
Qed.

Lemma exec_tracked (w : World) (c : Command Samples) : tracked w -> tracked (exec w c).
Proof.
  intros T.
  assert (K : forall a, tracked (cleanupAudio (dispatch a w))).
  { intros a. apply cleanupAudio_tracked. exact T. }
  destruct c as [env|b|src prc|e|err|gc|]; cbn [Lifecycle.exec].
  - unfold handleStartConversation.
    destruct (String.eqb _ _); [exact T|]. cbv zeta.
    destruct (apiKey env); cbn [negb].
    + destruct (getUserMedia env); [exact T|].
      unfold startFailed. apply cleanupAudio_tracked. exact T.
    + unfold startFailed. apply cleanupAudio_tracked. exact T.
  - unfold onWelcomeAudio.
    destruct (outputAudioContext (handles w)); [|exact T].
    destruct (outputGainNode (handles w)); [|exact T].
    destruct (nonEmpty b); [|exact T].
    eapply (tracked_started w); [exact T|left; reflexivity|reflexivity|reflexivity].
  - unfold onopen. cbv zeta. cbn [dispatch withApp handles].
    destruct (inputAudioContext (handles w)); [|exact T].
    destruct (userMediaStream (handles w)); [|exact T].
    cbn. destruct (inputGainNode (handles w)); exact T.
  - apply step_tracked, T.
  - apply K.
  - unfold handleStopConversation. cbv zeta.
    pose proof (cleanupAudio_tracked w T) as T'.
    destruct (generateInterviewSummary _ _ _); exact T'.
  - exact (cleanupAudio_tracked w T).
Qed.

(** X21.  In every state the component can reach, the active set holds no
    source twice, and every source in it has been started and has not been
    stopped.  So the stops of an interruption or a teardown are calls on
    started sources, each stopped at most once by the component. *)
Theorem reachable_states_track_sources (w : World) :
  reachable w ->
  NoDup (audioSources (playback w))
  /\ forall source, In source (audioSources (playback w)) ->
       (exists when, In (SourceStart source when) (effects (browser w)))
       /\ ~ In (SourceStop source) (effects (browser w)).
Proof.
  intros R.
  assert (T : tracked w).
  { revert w R. apply (reachable_ind tracked); [apply initialWorld_tracked|].
    intros w c T. apply exec_tracked, T. }
  destruct T as (ND & St & _). split; assumption.
Qed.

(** *** The transcript *)

Lemma finalized_wellFormed (user interviewer : string) :
  Forall wellFormedEntry (finalized user interviewer).
Proof.
  unfold finalized, wellFormedEntry.
  destruct (nonEmpty (trim user)) eqn:U; destruct (nonEmpty (trim interviewer)) eqn:I;
    cbn;
    repeat (constructor;
            [split; [first [left; reflexivity|right; reflexivity]|assumption]|]);
    constructor.
Qed.

Lemma onmessage_transcript (currentTime : Q) (message : LiveServerMessage) (w : World) :
  exists added,
    transcript (app (onmessage currentTime message w)) = transcript (app w) ++ added
    /\ Forall wellFormedEntry added.
Proof.
  unfold App.onmessage.
  destruct (playChunk_frame decodeAudioData currentTime message w) as (A1 & _).
  set (w1 := playChunk currentTime message w) in *. clearbody w1.
  destruct (onInterrupted_frame message w1) as (A2 & _).
  set (w2 := onInterrupted message w1) in *. clearbody w2.
  destruct (onTranscriptions_frame message w2) as (_ & _ & _ & _ & _ & _ & T3 & _).
  set (w3 := onTranscriptions message w2) in *. clearbody w3.
  destruct (flag turnComplete message) eqn:F.
  - destruct (onTurnComplete_result message w3 F) as (_ & _ & _ & _ & _ & _ & T4 & _).
    rewrite T4, T3, A2, A1. eexists. split; [reflexivity|apply finalized_wellFormed].
  - unfold onTurnComplete. rewrite F, T3, A2, A1. exists []. rewrite app_nil_r.
    split; [reflexivity|constructor].
Qed.

Lemma exec_transcript (w : World) (c : Command Samples) :
  Forall wellFormedEntry (transcript (app w)) ->
  Forall wellFormedEntry (transcript (app (exec w c))).
Proof.
  intros F.
  assert (K : forall x, app (cleanupAudio x) = app x) by (intros x; apply cleanupAudio_keeps).
  destruct c as [env|b|src prc|e|err|gc|]; cbn [Lifecycle.exec].
  - unfold handleStartConversation.
    destruct (String.eqb _ _); [exact F|]. cbv zeta.
    destruct (apiKey env); cbn [negb].
    + destruct (getUserMedia env); [constructor|].
      unfold startFailed. rewrite K. constructor.
    + unfold startFailed. rewrite K. constructor.
  - unfold onWelcomeAudio.
    destruct (outputAudioContext (handles w)); [|exact F].
    destruct (outputGainNode (handles w)); [|exact F].
    destruct (nonEmpty b); exact F.
  - unfold onopen. cbv zeta. cbn [dispatch withApp handles].
    destruct (inputAudioContext (handles w)); [|exact F].
    destruct (userMediaStream (handles w)); [|exact F].
    cbn. destruct (inputGainNode (handles w)); exact F.
  - destruct e as [x|t m|dt|src|]; cbn [App.step].
    + destruct (onaudioprocess_keeps x w) as (-> & _). exact F.
    + destruct (onmessage_transcript t m w) as (added & -> & Fa).
      apply Forall_app. split; assumption.
    + unfold elapse. cbv zeta. destruct (filter _ _); exact F.
    + exact F.
    + rewrite K. exact F.
  - unfold onerror. rewrite K. exact F.
  - unfold handleStopConversation. cbv zeta.
    pose proof (K w) as Kw. set (c := cleanupAudio w) in *. clearbody c.
    destruct (generateInterviewSummary _ _ _); cbn; rewrite Kw; exact F.
  - constructor.
Qed.

(** X22.  In every state the component can reach, every entry of the
    transcript is from "You" or from "Interviewer" and has a text that is
    not empty. *)
Theorem reachable_transcript_is_well_formed (w : World) :
  reachable w -> Forall wellFormedEntry (transcript (app w)).
Proof.
  apply (reachable_ind (fun w => Forall wellFormedEntry (transcript (app w)))).
  - constructor.
  - intros w0 c F. apply exec_transcript, F.
Qed.

(** *** Across conversations *)

Lemma initial_script_not_blank : String.eqb (trim (script initialState)) "" = false.
Proof. vm_compute. reflexivity. Qed.

(** X23.  The flag that switches sending off outlives the conversation.
    If an interview is ended while the segmenter is Suspended, then reset
    and started again with success, the new session opens with the
    segmenter still Suspended: blocks of samples at or below the threshold
    are not handed to the new session, until a block above the threshold
    or a turn-complete event switches sending on. *)
Theorem suspension_outlives_the_conversation
  (generateContent : string -> Settled SummaryResponse) (env : StartEnv) (stream : Handle)
  (source processor : Handle) (w : World) :
  isSilentRef (segmenter w) = true ->
  apiKey env = true ->
  getUserMedia env = Fulfilled stream ->
  let started :=
    handleStartConversation env (handleReset (handleStopConversation generateContent w)) in
  exists opened,
    onopen source processor started = Returned opened
    /\ interviewState (app opened) = IN_CONVERSATION
    /\ sessionPromise (handles opened) = Some (connect env)
    /\ segmentState opened = Suspended
    /\ forall quiet, calculateRMS quiet <= SILENCE_THRESHOLD ->
         sent (onaudioprocess quiet opened) = sent opened.
Proof.
  intros Si K G started.
  assert (S1 : isSilentRef (segmenter (handleStopConversation generateContent w)) = true).
  { unfold handleStopConversation. cbv zeta.
    destruct (cleanupAudio_keeps w) as (_ & _ & _ & _ & E).
    set (c := cleanupAudio w) in *. clearbody c.
    destruct (generateInterviewSummary _ _ _); cbn; rewrite E; exact Si. }
  set (w1 := handleStopConversation generateContent w) in *. clearbody w1.
  assert (S2 : isSilentRef (segmenter (handleReset w1)) = true).
  { unfold handleReset. destruct (cleanupAudio_keeps w1) as (_ & _ & _ & _ & E).
    set (c := cleanupAudio w1) in *. clearbody c. cbn. rewrite E. exact S1. }
  assert (A2 : app (handleReset w1) = initialState) by reflexivity.
  set (w2 := handleReset w1) in *. clearbody w2.
  unfold started, handleStartConversation. rewrite A2, initial_script_not_blank.
  cbv zeta. rewrite K, G. cbn [negb].
  unfold onopen. cbn. eexists. split; [reflexivity|]. cbn.
  split; [reflexivity|]. split; [reflexivity|].
  split; [unfold segmentState; cbn; rewrite S2; reflexivity|].
  intros quiet Q.
  match goal with
  | |- sent (onaudioprocess quiet ?o) = _ =>
      destruct (onaudioprocess_sent quiet o) as (_ & E);
      destruct (onaudioprocess_not_above Samples calculateRMS quiet o Q) as (Si' & _);
      rewrite Si' in E; cbn in E; rewrite S2 in E; rewrite E; lia
  end.
Qed.

Lemma reachable_tracked (w : World) : reachable w -> tracked w.
Proof.
  apply (reachable_ind tracked); [apply initialWorld_tracked|].
  intros w0 c T. apply exec_tracked, T.
Qed.

Lemma reachable_consistent (w : World) : reachable w -> consistent w.
Proof.
  apply (reachable_ind consistent); [apply initialWorld_consistent|].
  intros w0 c C. apply exec_consistent, C.
Qed.

(** *** Teardown *)


(** X24.  The welcome audio is played outside the timeline: its source is
    started at once, the active set and the cursor stay as they are, and
    so neither an interruption nor a teardown calls stop on it. *)
Theorem welcome_audio_is_not_tracked (welcomeAudioBase64 : string) (currentTime : Q)
  (message : LiveServerMessage) (w : World) :
  reachable w ->
  playbackReady w ->
  nonEmpty welcomeAudioBase64 = true ->
  let source := nextSourceId (browser w) in
  let w1 := onWelcomeAudio welcomeAudioBase64 w in
  effects (browser w1) = effects (browser w) ++ [SourceStart source 0]
  /\ playback w1 = playback w
  /\ ~ In (SourceStop source) (effects (browser (onmessage currentTime message w1)))
  /\ ~ In (SourceStop source) (effects (browser (cleanupAudio w1))).
Proof.
  intros R [Hc Hg] N source w1.
  destruct (reachable_tracked w R) as (_ & _ & Lt & Ef).
  assert (W : effects (browser w1) = effects (browser w) ++ [SourceStart source 0]
              /\ playback w1 = playback w
              /\ nextSourceId (browser w1) = S source).
  { unfold w1, onWelcomeAudio.
    destruct (outputAudioContext (handles w)); [|contradiction Hc; reflexivity].
    destruct (outputGainNode (handles w)); [|contradiction Hg; reflexivity].
    rewrite N. cbn. repeat split. }
  destruct W as (E1 & P1 & N1). clearbody w1.
  assert (Old : ~ In (SourceStop source) (effects (browser w1))).
  { rewrite E1. intros H. apply in_app_or in H. destruct H as [H|[H|[]]]; [|discriminate H].
    specialize (Ef _ source H eq_refl). unfold source in Ef. lia. }
  assert (Mem : ~ In source (audioSources (playback w1))).
  { rewrite P1. intros H. specialize (Lt source H). unfold source in Lt. lia. }
  split; [exact E1|]. split; [exact P1|]. split.
  - destruct (onmessage_log currentTime message w1) as (E & _). rewrite E. clear E.
    intros H. apply in_app_or in H. destruct H as [H|H].
    + destruct (playChunk_cases currentTime message w1) as [[_ B]|(_ & _ & _ & _ & E & _)].
      * rewrite B in H. exact (Old H).
      * rewrite E in H. apply in_app_or in H. destruct H as [H|[H|[]]]; [exact (Old H)|].
        discriminate H.
    + apply in_app_or in H. destruct H as [H|H].
      * destruct (flag interrupted message); [|destruct H].
        apply in_map_iff in H. destruct H as (s & Hs & Hin). injection Hs as ->.
        destruct (playChunk_cases currentTime message w1) as [[P _]|(_ & _ & _ & S & _)].
        -- rewrite P in Hin. exact (Mem Hin).
        -- rewrite S in Hin. destruct (existsb _ _); [exact (Mem Hin)|].
           apply in_app_or in Hin. destruct Hin as [Hin|[Hin|[]]]; [exact (Mem Hin)|].
           rewrite N1 in Hin. lia.
      * destruct (flag turnComplete message); [|destruct H].
        destruct (silenceTimerRef (segmenter w1)); [destruct H as [H|[]]; discriminate H|].
        destruct H.
  - destruct (cleanupAudio_log w1) as (_ & tail & E & F). rewrite E.
    intros H. apply in_app_or in H. destruct H as [H|H]; [exact (Old H)|].
    exact (Mem (F _ source H eq_refl)).
Qed.

End LiveSessionMore.

(** ** Further runs of the scenario *)

Section MoreRuns.
Import JsString ErrorUtil GeminiService SummaryService App Lifecycle Scenario.
Local Open Scope list_scope.

Abbreviation handle := (onmessage halfSecond).
Abbreviation process := (onaudioprocess Q energy).
Abbreviation play := (run Q energy halfSecond).
Abbreviation perform := (execAll Q energy halfSecond).

(** A conversation as the component itself gets into it. *)
Example started_and_opened :
  let w := perform initialWorld [Start granted; Open 21%nat 22%nat] in
  interviewState (app w) = IN_CONVERSATION
  /\ handles w
     = {| sessionPromise := Some 16%nat; inputAudioContext := Some 14%nat;
          outputAudioContext := Some 11%nat; scriptProcessorNode := Some 22%nat;
          mediaStreamSource := Some 21%nat; inputGainNode := Some 15%nat;
          outputGainNode := Some 12%nat; userMediaStream := Some 13%nat |}.
Proof. split; reflexivity. Qed.

Example stop_with_answer :
  let w := perform initialWorld
             [Start granted; Open 21%nat 22%nat; Live (Message 0 (userSaid "hello"));
              Stop answering] in
  interviewState (app w) = FINISHED
  /\ summary (app w) = Some "## Overall Summary"%string
  /\ transcript (app w) = []
  /\ handles w = noHandles.
Proof. repeat split. Qed.





Lemma consecutive_chunks_back_to_back_witness :
  let start1 := Qmax (nextStartTime (playback conversing)) 0 in
  let w1 := onmessage tenthPerCharacter 0 (audio "A") conversing in
  let cursor := nextStartTime (playback w1) in
  let start2 := Qmax cursor (1 # 16) in
  start2 = cursor
  /\ start1 <= start2
  /\ (start1 + chunkDuration tenthPerCharacter (audio "A")) * (1 - Double.pow2 (-53)) <= start2.
Proof.
  destruct (consecutive_chunks_back_to_back tenthPerCharacter conversing 0 (1 # 16)
              (audio "A") (audio "AAAAAAA")) as (_ & _ & _ & A & _ & B & D).
  - split; discriminate.
  - apply audio_uninterrupted. reflexivity.
  - apply audio_uninterrupted. reflexivity.
  - reflexivity.
  - reflexivity.
  - split; [apply A; vm_compute; discriminate|]. split; [exact B|].
    destruct D as [D _]; [vm_compute; discriminate|exact D].
Defined.

Lemma chunk_after_interruption_starts_now_witness :
  let w0 := handle (1 # 4) wasInterrupted (handle 0 (audio "AAAA") conversing) in
  let w1 := handle (1 # 2) (audio "BBBB") w0 in
  exists start tail,
    effects (browser w1)
    = effects (browser w0) ++ SourceStart (nextSourceId (browser w0)) start :: tail
    /\ start == 1 # 2
    /\ audioSources (playback w1) = [nextSourceId (browser w0)].
Proof.
  apply (chunk_after_interruption_starts_now halfSecond
           (handle 0 (audio "AAAA") conversing) (1 # 4) (1 # 2) wasInterrupted (audio "BBBB")).
  - split; discriminate.
  - reflexivity.
  - split; [|reflexivity]. exists "BBBB"%string. split; reflexivity.
  - vm_compute. discriminate.
Defined.

Lemma suspended_sends_nothing_witness :
  let w := play pendingSilence [Elapse 1500] in
  let events := [AudioProcess 0; Elapse 100; AudioProcess (1 # 100)] in
  sent (play w events) = sent w /\ segmentState (play w events) = Suspended.
Proof.
  apply (suspended_sends_nothing Q energy halfSecond (play pendingSilence [Elapse 1500])).
  - reflexivity.
  - constructor; [vm_compute; discriminate|]. constructor; [exact I|].
    constructor; [vm_compute; discriminate|]. constructor.
Defined.

Lemma loud_blocks_are_all_sent_witness :
  let events := [AudioProcess (1 # 2); Message 0 (userSaid "hi"); AudioProcess (1 # 3)] in
  sent (play conversing events) = (sent conversing + 2)%nat.
Proof.
  apply (loud_blocks_are_all_sent Q energy halfSecond conversing).
  - discriminate.
  - constructor; [reflexivity|]. constructor; [exact I|]. constructor; [reflexivity|].
    constructor.
  - repeat constructor.
Defined.

Lemma energy_alone_never_suspends_witness :
  let events := [AudioProcess 0; Elapse 5000; AudioProcess (1 # 2); AudioProcess 0] in
  timers (browser (play conversing events)) = []
  /\ segmentState (play conversing events) = Idle
  /\ sent (play conversing events) = (sent conversing + 3)%nat.
Proof.
  destruct (energy_alone_never_suspends Q energy halfSecond conversing
              [AudioProcess 0; Elapse 5000; AudioProcess (1 # 2); AudioProcess 0])
    as (T & S & N).
  - split; [intros t []|]. split; intros H; contradiction H; reflexivity.
  - reflexivity.
  - reflexivity.
  - repeat constructor.
  - split; [exact T|]. split; [exact S|]. apply N. discriminate.
Defined.

Lemma other_messages_leave_segmenter_witness :
  segmenter (handle 0 wasInterrupted pendingSilence) = segmenter pendingSilence
  /\ timers (browser (handle 0 wasInterrupted pendingSilence)) = timers (browser pendingSilence).
Proof.
  apply (other_messages_leave_segmenter halfSecond 0 wasInterrupted pendingSilence);
    reflexivity.
Defined.

Lemma pause_broken_by_speech_starts_over_witness :
  let w := play pendingSilence [Elapse 1400] in
  let w' := process 0 (process (1 # 2) w) in
  timers (browser w) = [(1%positive, 100%N)]
  /\ timers (browser w') = [(nextTimerId (browser w), SILENCE_DURATION_MS)]
  /\ segmentState w' = PendingSilence.
Proof.
  intros w w'. split; [reflexivity|].
  destruct (pause_broken_by_speech_starts_over Q energy w (1 # 2) 0) as (T & _ & S).
  - split; [|split].
    + intros t [<-|[]]. reflexivity.
    + reflexivity.
    + intros _ H. discriminate H.
  - reflexivity.
  - reflexivity.
  - vm_compute. discriminate.
  - split; [exact T|exact S].
Defined.

Lemma blank_turn_adds_nothing_witness :
  let w := handle 0 (userSaid "  ") conversing in
  transcript (app (handle 0 turnCompleted w)) = transcript (app w).
Proof.
  intros w.
  destruct (blank_turn_adds_nothing halfSecond 0 turnCompleted w) as [[_ B] _].
  - reflexivity.
  - apply B. split; reflexivity.
Defined.

Lemma reachable_states_are_consistent_witness :
  let w := perform initialWorld
             [Start granted; Open 21%nat 22%nat; Live (Message 0 (userSaid "hi"));
              Live (AudioProcess 0); Live (Elapse 1500)] in
  segmentState w = Suspended /\ consistent w /\ 0 <= nextStartTime (playback w).
Proof.
  intros w. split; [reflexivity|].
  apply (reachable_states_are_consistent Q energy halfSecond w).
  eexists. reflexivity.
Defined.

Lemma reachable_states_track_sources_witness :
  let w := perform initialWorld
             [Start granted; Welcome "UklGRg"; Open 21%nat 22%nat;
              Live (Message 0 (audio "AAAA")); Live (Message (1 # 10) (audio "BBBB"));
              Live (Ended 1%nat)] in
  audioSources (playback w) = [2%nat]
  /\ NoDup (audioSources (playback w))
  /\ forall source, In source (audioSources (playback w)) ->
       (exists when, In (SourceStart source when) (effects (browser w)))
       /\ ~ In (SourceStop source) (effects (browser w)).
Proof.
  intros w. split; [reflexivity|].
  apply (reachable_states_track_sources Q energy halfSecond w).
  eexists. reflexivity.
Defined.

Lemma reachable_transcript_is_well_formed_witness :
  let w := perform initialWorld
             [Start granted; Open 21%nat 22%nat; Live (Message 0 (userSaid "hello"));
              Live (Message 0 (interviewerSaid "hi there")); Live (Message 0 turnCompleted)] in
  length (transcript (app w)) = 2%nat /\ Forall wellFormedEntry (transcript (app w)).
Proof.
  intros w. split; [reflexivity|].
  apply (reachable_transcript_is_well_formed Q energy halfSecond w).
  eexists. reflexivity.
Defined.

Lemma suspension_outlives_the_conversation_witness :
  let w := play pendingSilence [Elapse 1500] in
  let started := handleStartConversation granted (handleReset (handleStopConversation answering w)) in
  exists opened,
    onopen 21%nat 22%nat started = Returned opened
    /\ interviewState (app opened) = IN_CONVERSATION
    /\ sessionPromise (handles opened) = Some (connect granted)
    /\ segmentState opened = Suspended
    /\ forall quiet, energy quiet <= SILENCE_THRESHOLD ->
         sent (process quiet opened) = sent opened.
Proof.
  apply (suspension_outlives_the_conversation Q energy answering granted 13%nat
           21%nat 22%nat (play pendingSilence [Elapse 1500])); reflexivity.
Defined.

Lemma welcome_audio_is_not_tracked_witness :
  let w := perform initialWorld [Start granted] in
  let w1 := onWelcomeAudio "UklGRg" w in
  effects (browser w1) = effects (browser w) ++ [SourceStart 0%nat 0]
  /\ ~ In (SourceStop 0%nat) (effects (browser (handle (1 # 10) wasInterrupted w1))).
Proof.
  intros w w1.
  destruct (welcome_audio_is_not_tracked Q energy halfSecond "UklGRg" (1 # 10) wasInterrupted w)
    as (E & _ & N & _).
  - eexists. reflexivity.
  - split; discriminate.
  - reflexivity.
  - split; [exact E|exact N].
Defined.

End MoreRuns.
